(** * Perchance language support: the document-analysis core

    A shallow embedding of the line classifier, the markup-boundary
    detector, the definition / reference extractors and the diagnostic
    rules of the Perchance extension, as they are written in

    - [scripts/validate-examples.js]         (the batch validator),
    - [.github/copilot-instructions.md]      (the current [extension.js],
                                              embedded in that file),
    - [src/extension.js]                     (the earlier [extension.js]).

    JavaScript strings are sequences of UTF-16 code units; a string is
    modelled as a list of code units, each an [N].  Columns, [indexOf],
    [slice] and [length] all count code units, as they do in the source. *)

From Stdlib Require Import NArith List String Ascii Bool Lia.
From stdpp Require Import list gmap strings.
From Stdlib Require Qround Sorted.

Local Open Scope N_scope.
Local Open Scope nat_scope.

(** ** JavaScript strings *)

Module Js.

Abbreviation str := (list N).

(** The code unit of an ASCII character, to write character constants. *)
Definition ch (a : ascii) : N := N_of_ascii a.
Arguments ch a%_char : simpl never.

(** A string literal as its code units. *)
Fixpoint js (s : string) : list N :=
  match s with
  | EmptyString => []
  | String a s' => ch a :: js s'
  end.
Arguments js s%_string : simpl never.

Definition inRange (lo hi c : N) : bool := (lo <=? c)%N && (c <=? hi)%N.

(** [WhiteSpace] and [LineTerminator] of ECMAScript: what [trim],
    [trimStart] and the regular-expression class [\s] recognise. *)
Definition isWhiteSpace (c : N) : bool :=
  inRange 9 13 c || (c =? 32)%N || (c =? 160)%N || (c =? 5760)%N
  || inRange 8192 8202 c || (c =? 8232)%N || (c =? 8233)%N
  || (c =? 8239)%N || (c =? 8287)%N || (c =? 12288)%N || (c =? 65279)%N.

(** [[A-Za-z]] *)
Definition isLetter (c : N) : bool := inRange 65 90 c || inRange 97 122 c.
(** [[0-9]] *)
Definition isDigit (c : N) : bool := inRange 48 57 c.
(** [\w], that is [[A-Za-z0-9_]] *)
Definition isWordChar (c : N) : bool := isLetter c || isDigit c || (c =? ch "_")%N.

Fixpoint takeWhile {A} (p : A -> bool) (l : list A) : list A :=
  match l with
  | x :: l' => if p x then x :: takeWhile p l' else []
  | [] => []
  end.

Fixpoint dropWhile {A} (p : A -> bool) (l : list A) : list A :=
  match l with
  | x :: l' => if p x then dropWhile p l' else l
  | [] => []
  end.

Definition trimStart (s : str) : str := dropWhile isWhiteSpace s.
Definition trimEnd (s : str) : str := reverse (dropWhile isWhiteSpace (reverse s)).
Definition trim (s : str) : str := trimEnd (trimStart s).

Definition eqs (a b : str) : bool := bool_decide (a = b).

(** [s.startsWith(p)] *)
Fixpoint startsWith (s p : str) {struct p} : bool :=
  match p, s with
  | [], _ => true
  | c :: p', d :: s' => (c =? d)%N && startsWith s' p'
  | _ :: _, [] => false
  end.

(** [s.indexOf(p)], searching from the start of [s]; [None] is JavaScript's -1. *)
Fixpoint indexOfFrom (s p : str) (i : nat) : option nat :=
  if startsWith s p then Some i
  else match s with
       | [] => None
       | _ :: s' => indexOfFrom s' p (S i)
       end.
Definition indexOf (s p : str) : option nat := indexOfFrom s p 0.

(** [s.includes(c)] for a one-character needle. *)
Definition includes (s : str) (c : N) : bool := existsb (N.eqb c) s.

End Js.
Import Js.

(** ** The boundary detector ([looksLikeHtmlStart], [findHtmlStart]) *)

(** [/<\/?[a-zA-Z]/.test(s)]: somewhere in [s] a [<], an optional [/], a letter. *)
Fixpoint hasTagOpener (s : str) : bool :=
  match s with
  | [] => false
  | c :: s' =>
      ((c =? ch "<")%N &&
       match s' with
       | d :: s'' =>
           isLetter d ||
           ((d =? ch "/")%N && match s'' with e :: _ => isLetter e | [] => false end)
       | [] => false
       end)
      || hasTagOpener s'
  end.

Definition looksLikeHtmlStart (line : str) : bool :=
  let trimmed := trimStart line in
  if negb (startsWith trimmed (js "<")) then false
  else if startsWith trimmed (js "<<<<<") then false
  else hasTagOpener trimmed.

(** The loop of [findHtmlStart], entered at line [index] with the flag
    [sawBlank]; [lines] is what is left of the document from [index] on. *)
Fixpoint findHtmlStart_loop (lines : list str) (index : nat) (sawBlank : bool) : nat :=
  match lines with
  | [] => index
  | line :: rest =>
      if eqs (trim line) [] then findHtmlStart_loop rest (S index) true
      else if sawBlank && looksLikeHtmlStart line then index
      else findHtmlStart_loop rest (S index) false
  end.

Definition findHtmlStart (lines : list str) : nat := findHtmlStart_loop lines 0 false.

(** ** Indentation ([countIndentLevel]) *)

(** The [for (const char of indent)] loop, with its two counters. *)
Fixpoint countIndentLevel_loop (indent : str) (level spaces : nat) : nat :=
  match indent with
  | [] => level
  | char :: rest =>
      if (char =? ch "009")%N then countIndentLevel_loop rest (level + 1) spaces
      else if (char =? ch " ")%N then
        if Nat.eqb (spaces + 1) 2 then countIndentLevel_loop rest (level + 1) 0
        else countIndentLevel_loop rest level (spaces + 1)
      else countIndentLevel_loop rest level spaces
  end.

Definition countIndentLevel (indent : str) : nat := countIndentLevel_loop indent 0 0.


(** ** The regular expressions of the line classifier

    Each matcher follows one regular-expression constant of the source.
    Every quantifier in them is followed by a character outside its own
    class, so the greedy run is the only way to match and the matchers
    need no backtracking (the optional [async] group apart). *)

(** [[A-Za-z_]] *)
Definition identStart (c : N) : bool := isLetter c || (c =? ch "_")%N.
(** [[A-Za-z0-9_-]] *)
Definition identChar (c : N) : bool :=
  isLetter c || isDigit c || (c =? ch "_")%N || (c =? ch "-")%N.
(** [[A-Za-z0-9_$-]] and [[\w$-]] *)
Definition nameChar (c : N) : bool := isWordChar c || (c =? ch "$")%N || (c =? ch "-")%N.

(** An identifier at the head of [s], [[A-Za-z_]] then the longest run of [tail] characters, and what follows it. *)
Definition matchIdent (tail : N -> bool) (s : str) : option (str * str) :=
  match s with
  | c :: r => if identStart c then Some (c :: takeWhile tail r, dropWhile tail r) else None
  | [] => None
  end.

(** [regex.exec(text)] with [lastIndex = i] for a regular expression whose
    match at the head of a string is [matchHere], where [s] is the text
    from [i] on: the index of the leftmost match at or after [i] and what
    it captures.  A pattern of the source never matches the empty string,
    so the end of the text yields no match. *)
Fixpoint execFrom (matchHere : str -> option str) (s : str) (i : nat) : option (nat * str) :=
  match s with
  | [] => None
  | _ :: s' =>
      match matchHere s with
      | Some captured => Some (i, captured)
      | None => execFrom matchHere s' (S i)
      end
  end.

Section Regexes.

(** The class of the characters after the first one of an identifier:
    [identChar] in the current sources, without the hyphen in the earlier
    [src/extension.js]. *)
Variable tail : N -> bool.

(** [/\[\[(ID)\]\]/] at the head of [s], where ID is [[A-Za-z_]] followed by a run of [tail] characters: the captured name. *)
Definition matchRefHere (s : str) : option str :=
  match s with
  | a :: b :: r =>
      if (a =? ch "[")%N && (b =? ch "[")%N then
        match matchIdent tail r with
        | Some (name, rest) => if startsWith rest (js "]]") then Some name else None
        | None => None
        end
      else None
  | _ => None
  end.

(** [LIST_REF_REGEX.exec(text)] from [lastIndex = i]. *)
Definition execRef : str -> nat -> option (nat * str) := execFrom matchRefHere.

(** [/^(ID|\$ID)$/]: the captured group. *)
Definition blockHeaderWith (s : str) : option str :=
  match matchIdent tail s with
  | Some (name, []) => Some name
  | Some (_, _ :: _) => None
  | None =>
      match s with
      | c :: r =>
          if (c =? ch "$")%N then
            match matchIdent tail r with
            | Some (name, []) => Some (c :: name)
            | _ => None
            end
          else None
      | [] => None
      end
  end.

(** [/^(ID)\s*=/]: the captured name. *)
Definition shorthandWith (s : str) : option str :=
  match matchIdent tail s with
  | Some (name, rest) =>
      if startsWith (dropWhile isWhiteSpace rest) (js "=") then Some name else None
  | None => None
  end.

(** [/^\$(ID)\s*=/]: the captured name. *)
Definition dollarShorthandWith (s : str) : option str :=
  match s with
  | c :: r => if (c =? ch "$")%N then shorthandWith r else None
  | [] => None
  end.

End Regexes.

Definition LIST_REF_REGEX_exec := execRef identChar.
Definition LIST_BLOCK_HEADER_REGEX := blockHeaderWith identChar.
Definition LIST_SHORTHAND_REGEX := shorthandWith identChar.
Definition DOLLAR_SHORTHAND_REGEX := dollarShorthandWith identChar.

(** [[A-Za-z_][A-Za-z0-9_$-]*\s*\([^)]*\)\s*=>\s*$] at the head of [s]. *)
Definition functionHeaderBody (s : str) : bool :=
  match s with
  | c :: r =>
      identStart c &&
      match dropWhile isWhiteSpace (dropWhile nameChar r) with
      | p :: args =>
          (p =? ch "(")%N &&
          match dropWhile (fun x => negb (x =? ch ")")%N) args with
          | _ :: after =>
              match dropWhile isWhiteSpace after with
              | e :: g :: fin =>
                  (e =? ch "=")%N && (g =? ch ">")%N && eqs (dropWhile isWhiteSpace fin) []
              | _ => false
              end
          | [] => false
          end
      | [] => false
      end
  | [] => false
  end.

(** [FUNCTION_HEADER_REGEX.test(s)], the regular expression
    [/^(async\s+)?[A-Za-z_][A-Za-z0-9_$-]*\s*\([^)]*\)\s*=>\s*$/]: the
    optional group is tried first, then skipped. *)
Definition FUNCTION_HEADER_REGEX (s : str) : bool :=
  (startsWith s (js "async") &&
   match drop 5 s with
   | w :: r => isWhiteSpace w && functionHeaderBody (dropWhile isWhiteSpace r)
   | [] => false
   end)
  || functionHeaderBody s.

(** ** Line helpers shared by the batch script and the extension

    [stripComment], [parseListName], [looksLikeHtmlStart], [findHtmlStart],
    [findIfElseSingleEquals] and [hasSingleEquals] have the same text in
    [validate-examples.js] and in the current [extension.js]. *)

Definition stripComment (text : str) : str :=
  match indexOf text (js "//") with
  | None => text
  | Some index => take index text
  end.

Definition parseListName (trimmedLine : str) : option str :=
  let line :=
    if startsWith trimmedLine (js "async ")
    then trimStart (drop (length (js "async ")) trimmedLine)
    else trimmedLine in
  match line with
  | c :: r => if isWordChar c || (c =? ch "$")%N then Some (c :: takeWhile nameChar r) else None
  | [] => None
  end.

(** [line.match(/^[\t ]+/)], with the empty string when there is no match. *)
Definition isTabOrSpace (c : N) : bool := (c =? ch "009")%N || (c =? ch " ")%N.
Definition leadingIndent (line : str) : str := takeWhile isTabOrSpace line.

(** [isListHeaderLine] of [validate-examples.js]. *)
Definition isListHeaderLine (trimmedLine : str) : bool :=
  if eqs trimmedLine [] then false
  else if bool_decide (is_Some (LIST_BLOCK_HEADER_REGEX trimmedLine)) then true
  else if bool_decide (is_Some (LIST_SHORTHAND_REGEX trimmedLine)) then true
  else if bool_decide (is_Some (DOLLAR_SHORTHAND_REGEX trimmedLine)) then true
  else FUNCTION_HEADER_REGEX trimmedLine.

(** [/\b=>\s*$/.test(s)], scanning [s] with the character before it in
    [prev]: a word boundary before [=] needs a word character there. *)
Fixpoint arrowAtEnd (prev : option N) (s : str) : bool :=
  match s with
  | [] => false
  | c :: r =>
      (match prev with Some p => isWordChar p | None => false end
       && (c =? ch "=")%N
       && match r with
          | g :: fin => (g =? ch ">")%N && eqs (dropWhile isWhiteSpace fin) []
          | [] => false
          end)
      || arrowAtEnd (Some c) r
  end.

Definition isFunctionListStart (trimmedLine : str) : bool :=
  if eqs trimmedLine [] then false else arrowAtEnd None trimmedLine.

(** ** The single-equals rule ([hasSingleEquals], [findIfElseSingleEquals]) *)

(** [text[i - 1]] and [text[i + 1]], each defaulting to the empty string:
    [None] stands for the empty string that an index outside the text
    yields. *)
Definition charBefore (text : str) (i : nat) : option N :=
  match i with
  | 0 => None
  | S j => text !! j
  end.
Definition charAfter (text : str) (i : nat) : option N := text !! (i + 1).

Definition charIs (o : option N) (c : N) : bool :=
  match o with
  | Some d => (d =? c)%N
  | None => false
  end.

(** The body of the scanning loop at index [i]: [true] when the character
    there is an [=] that survives the three [continue] tests. *)
Definition singleEqualsAt (text : str) (i : nat) : bool :=
  if negb (charIs (text !! i) (ch "=")) then false
  else
    let prev := charBefore text i in
    let next := charAfter text i in
    if charIs prev (ch "=") || charIs next (ch "=") then false
    else if charIs prev (ch "!") || charIs prev (ch ">") || charIs prev (ch "<") then false
    else if charIs next (ch ">") then false
    else true.

(** [for (let i = ...; i < text.length; i += 1)], with [n] iterations left. *)
Fixpoint hasSingleEquals_loop (text : str) (i n : nat) : bool :=
  match n with
  | 0 => false
  | S n' => if singleEqualsAt text i then true else hasSingleEquals_loop text (i + 1) n'
  end.

Definition hasSingleEquals (text : str) : bool :=
  hasSingleEquals_loop text 0 (length text).

(** [/\[([^\]]+)\]/] at the head of [s]: the captured content. *)
Definition notClose (c : N) : bool := negb (c =? ch "]")%N.
Definition matchBracketHere (s : str) : option str :=
  match s with
  | c :: r =>
      if (c =? ch "[")%N then
        match takeWhile notClose r, dropWhile notClose r with
        | (_ :: _) as content, _ :: _ => Some content
        | _, _ => None
        end
      else None
  | [] => None
  end.

(** [pattern.exec(text)] from [lastIndex = i]. *)
Definition execBracket : str -> nat -> option (nat * str) := execFrom matchBracketHere.

Record Span := { span_start : nat; span_end : nat }.

(** The [while ((match = pattern.exec(text)) !== null)] loop.  Each match
    is at least three characters long, so [fuel] bounds the iterations
    when it exceeds the length of the text. *)
Fixpoint findIfElseSingleEquals_loop (fuel : nat) (text : str) (lastIndex : nat) : list Span :=
  match fuel with
  | 0 => []
  | S fuel' =>
      match execBracket (drop lastIndex text) lastIndex with
      | None => []
      | Some (index, content) =>
          let matchEnd := index + (length content + 2) in
          let rest := findIfElseSingleEquals_loop fuel' text matchEnd in
          match indexOf content (js "?"), indexOf content (js ":") with
          | Some questionIndex, Some _ =>
              let condition := take questionIndex content in
              if hasSingleEquals condition
              then {| span_start := index; span_end := matchEnd |} :: rest
              else rest
          | _, _ => rest
          end
      end
  end.

Definition findIfElseSingleEquals (text : str) : list Span :=
  findIfElseSingleEquals_loop (S (length text)) text 0.

(** ** The quick fix ([replaceFirstSingleEquals], [replaceSingleEqualsInIfElse]) *)

Fixpoint replaceFirstSingleEquals_loop (text replacement : str) (i n : nat) : option str :=
  match n with
  | 0 => None
  | S n' =>
      if singleEqualsAt text i
      then Some (take i text ++ replacement ++ drop (i + 1) text)
      else replaceFirstSingleEquals_loop text replacement (i + 1) n'
  end.

Definition replaceFirstSingleEquals (text replacement : str) : option str :=
  replaceFirstSingleEquals_loop text replacement 0 (length text).

(** [[^\]]+\?[^\]]+:[^\]]+] against the whole of [content], which holds no
    [']']: some [?] and some later [:] leave a character before, between
    and after them. *)
Definition ternaryShaped (content : str) : bool :=
  let n := length content in
  existsb (fun i =>
    existsb (fun j =>
      (1 <=? i) && (i + 2 <=? j) && (j + 2 <=? n)
      && charIs (content !! i) (ch "?") && charIs (content !! j) (ch ":"))
      (seq 0 n))
    (seq 0 n).

(** [/\[([^\]]+\?[^\]]+:[^\]]+)\]/] at the head of [s]: the captured block. *)
Definition matchTernaryHere (s : str) : option str :=
  match matchBracketHere s with
  | Some content => if ternaryShaped content then Some content else None
  | None => None
  end.

(** [lineText.match(...)] without the [g] flag: the leftmost match. *)
Definition matchTernary (lineText : str) : option (nat * str) :=
  execFrom matchTernaryHere lineText 0.

(** [GetSubstitution] of ECMAScript for a replacement that follows a string
    pattern (no captures): [$$] is a dollar, [$&] the matched text, [$`]
    the text before the match, [$'] the text after it; every other [$]
    stands for itself. *)
Fixpoint getSubstitution (matched before after template : str) : str :=
  match template with
  | [] => []
  | c :: t =>
      if (c =? ch "$")%N then
        match t with
        | d :: t' =>
            if (d =? ch "$")%N then ch "$" :: getSubstitution matched before after t'
            else if (d =? ch "&")%N then matched ++ getSubstitution matched before after t'
            else if (d =? ch "`")%N then before ++ getSubstitution matched before after t'
            else if (d =? ch "'")%N then after ++ getSubstitution matched before after t'
            else c :: getSubstitution matched before after t
        | [] => [c]
        end
      else c :: getSubstitution matched before after t
  end.

(** [s.replace(pattern, replacement)] with a string pattern: the first
    occurrence is replaced, and the replacement goes through
    [GetSubstitution]. *)
Definition replaceString (s pattern replacement : str) : str :=
  match indexOf s pattern with
  | None => s
  | Some pos =>
      let before := take pos s in
      let after := drop (pos + length pattern) s in
      before ++ getSubstitution pattern before after replacement ++ after
  end.

Definition replaceSingleEqualsInIfElse (lineText : str) : option str :=
  match matchTernary lineText with
  | None => None
  | Some (_, block) =>
      match indexOf block (js "?") with
      | None => None
      | Some questionIndex =>
          let condition := take questionIndex block in
          match replaceFirstSingleEquals condition (js "==") with
          | None => None
          | Some conditionFixed =>
              let fixedBlock := conditionFixed ++ drop questionIndex block in
              Some (replaceString lineText (js "[" ++ block ++ js "]")
                                  (js "[" ++ fixedBlock ++ js "]"))
          end
      end
  end.

(** ** Documents, positions and the two extractors *)

(** A document is the list of its lines: [document.lineAt(i).text] is line
    [i], [document.lineCount] their number, and
    [document.getText().split(/\r?\n/)] the list itself. *)

Record Position := { pos_line : nat; pos_character : nat }.

Record Reference := {
  ref_name : str;
  ref_line : nat;
  ref_start : nat;
  ref_end : nat
}.

(** [for (...; index < lines.length; ...) body(index, lines[index])],
    threading the state that the body updates. *)
Fixpoint forLines {St} (body : nat -> str -> St -> St) (lines : list str) (index : nat) (st : St) : St :=
  match lines with
  | [] => st
  | line :: rest => forLines body rest (S index) (body index line st)
  end.

Section References.

Variable exec : str -> nat -> option (nat * str).

(** The inner [while ((match = LIST_REF_REGEX.exec(text)))] loop on one
    line, from [lastIndex] on. *)
Fixpoint lineReferences_loop (fuel : nat) (text : str) (lineIndex lastIndex : nat) : list Reference :=
  match fuel with
  | 0 => []
  | S fuel' =>
      match exec (drop lastIndex text) lastIndex with
      | None => []
      | Some (index, name) =>
          let matchEnd := index + (length name + 4) in
          {| ref_name := name; ref_line := lineIndex; ref_start := index; ref_end := matchEnd |}
          :: lineReferences_loop fuel' text lineIndex matchEnd
      end
  end.

Definition lineReferences (lineIndex : nat) (text : str) : list Reference :=
  lineReferences_loop (S (length text)) text lineIndex 0.

Definition collectListReferencesWith (document : list str) : list Reference :=
  forLines (fun lineIndex text references => references ++ lineReferences lineIndex text)
           document 0 [].

End References.

(** [collectListReferences] of the current [extension.js]. *)
Definition collectListReferences : list str -> list Reference :=
  collectListReferencesWith LIST_REF_REGEX_exec.

(** [collectListDefinitions] of the current [extension.js]: the body of
    its loop, then the loop over the lines before the markup boundary. *)
Definition collectListDefinitions_body (lineIndex : nat) (text : str)
    (definitions : gmap (list N) Position) : gmap (list N) Position :=
  let start := {| pos_line := lineIndex; pos_character := 0 |} in
  let trimmed := trim text in
  if eqs trimmed [] || startsWith trimmed (js "//") || startsWith trimmed (js "<")
  then definitions
  else if negb (match text with c :: _ => isWhiteSpace c | [] => false end) then
    match parseListName trimmed with
    | Some listName =>
        if negb (startsWith listName (js "$")) then <[listName := start]> definitions
        else definitions
    | None => definitions
    end
  else
    match LIST_BLOCK_HEADER_REGEX trimmed with
    | Some name =>
        if negb (startsWith name (js "$")) then <[name := start]> definitions
        else definitions
    | None =>
        match LIST_SHORTHAND_REGEX trimmed with
        | Some name => <[name := start]> definitions
        | None => definitions
        end
    end.

Definition collectListDefinitions (document : list str) : gmap (list N) Position :=
  let htmlStart := findHtmlStart document in
  forLines collectListDefinitions_body
           (take (Nat.min (length document) htmlStart) document) 0 ∅.

(** The earlier [src/extension.js]: identifiers have no hyphen, and the
    definitions are collected over the whole document. *)
Module Legacy.

(** [[A-Za-z0-9_]] *)
Definition identChar (c : N) : bool := isLetter c || isDigit c || (c =? ch "_")%N.

Definition LIST_REF_REGEX_exec := execRef identChar.
Definition LIST_BLOCK_HEADER_REGEX := blockHeaderWith identChar.
Definition LIST_SHORTHAND_REGEX := shorthandWith identChar.
Definition DOLLAR_SHORTHAND_REGEX := dollarShorthandWith identChar.

Definition collectListDefinitions_body (lineIndex : nat) (text : str)
    (definitions : gmap (list N) Position) : gmap (list N) Position :=
  let start := {| pos_line := lineIndex; pos_character := 0 |} in
  let trimmed := trim text in
  if eqs trimmed [] || startsWith trimmed (js "//") || startsWith trimmed (js "<")
  then definitions
  else
    match LIST_BLOCK_HEADER_REGEX trimmed with
    | Some name =>
        if negb (startsWith name (js "$")) then <[name := start]> definitions
        else definitions
    | None =>
        match LIST_SHORTHAND_REGEX trimmed with
        | Some name => <[name := start]> definitions
        | None => definitions
        end
    end.

Definition collectListDefinitions (document : list str) : gmap (list N) Position :=
  forLines collectListDefinitions_body document 0 ∅.

Definition collectListReferences : list str -> list Reference :=
  collectListReferencesWith LIST_REF_REGEX_exec.

End Legacy.

(** ** The batch analyzer ([analyzePerchance] of [validate-examples.js]) *)

Record Warning := {
  w_line : nat;
  w_code : string;
  w_message : str
}.

(** [content.split(/\r?\n/)] *)
Fixpoint splitLines_loop (s current : str) : list str :=
  match s with
  | [] => [current]
  | c :: r =>
      if (c =? ch "010")%N then current :: splitLines_loop r []
      else
        match r with
        | d :: r' =>
            if (c =? ch "013")%N && (d =? ch "010")%N then current :: splitLines_loop r' []
            else splitLines_loop r (current ++ [c])
        | [] => splitLines_loop r (current ++ [c])
        end
  end.
Definition splitLines (content : str) : list str := splitLines_loop content [].

Record BatchState := {
  b_warnings : list Warning;
  b_listNameIndex : gmap (list N) nat
}.

(** The body of the first loop of [analyzePerchance]. *)
Definition analyzePerchance_body (index : nat) (line : str) (st : BatchState) : BatchState :=
  let trimmed := trim line in
  if eqs trimmed [] || startsWith trimmed (js "//") then st
  else
    let indent := leadingIndent line in
    let contentText := drop (length indent) line in
    let commentFree := stripComment contentText in
    let st1 :=
      if eqs indent [] then
        match parseListName trimmed with
        | Some listName =>
            if negb (startsWith listName (js "$")) then
              if bool_decide (is_Some (b_listNameIndex st !! listName)) then
                {| b_warnings := b_warnings st ++
                     [{| w_line := index + 1; w_code := "duplicate-list";
                         w_message := js "Duplicate top-level list name: " ++ listName |}];
                   b_listNameIndex := b_listNameIndex st |}
              else
                {| b_warnings := b_warnings st;
                   b_listNameIndex := <[listName := index]> (b_listNameIndex st) |}
            else st
        | None => st
        end
      else
        let w1 :=
          if includes indent (ch "009") && includes indent (ch " ") then
            [{| w_line := index + 1; w_code := "mixed-indent";
                w_message := js "Mixed tabs and spaces in indentation" |}]
          else [] in
        let spaceCount := length (filter (fun c => c ≠ ch "009") indent) in
        let w2 :=
          if negb (Nat.eqb (spaceCount mod 2) 0) then
            [{| w_line := index + 1; w_code := "odd-indent";
                w_message := js "Indentation should use tabs or multiples of two spaces" |}]
          else [] in
        {| b_warnings := b_warnings st ++ w1 ++ w2;
           b_listNameIndex := b_listNameIndex st |} in
    let ifElseWarnings := findIfElseSingleEquals commentFree in
    {| b_warnings := b_warnings st1 ++
         map (fun _ => {| w_line := index + 1; w_code := "single-equals";
                          w_message := js "If/else conditions should use == instead of =" |})
             ifElseWarnings;
       b_listNameIndex := b_listNameIndex st1 |}.

(** The second loop, over the lines from the markup boundary on, which
    stops at its first finding. *)
Fixpoint listAfterHtml_loop (lines : list str) (index : nat) : list Warning :=
  match lines with
  | [] => []
  | line :: rest =>
      let trimmed := trim line in
      if eqs trimmed [] || startsWith trimmed (js "<!--") then listAfterHtml_loop rest (S index)
      else if isListHeaderLine trimmed then
        [{| w_line := index + 1; w_code := "list-after-html";
            w_message := js "List header appears after HTML start" |}]
      else listAfterHtml_loop rest (S index)
  end.

(** The state after the first loop. *)
Definition analyzePerchance_scan (lines : list str) : BatchState :=
  forLines analyzePerchance_body (take (findHtmlStart lines) lines) 0
           {| b_warnings := []; b_listNameIndex := ∅ |}.

Definition analyzePerchance_lines (lines : list str) : list Warning :=
  let htmlStart := findHtmlStart lines in
  b_warnings (analyzePerchance_scan lines)
  ++ listAfterHtml_loop (drop htmlStart lines) htmlStart.

Definition analyzePerchance (content : str) : list Warning :=
  analyzePerchance_lines (splitLines content).

(** ** The diagnostic engine of the extension ([analyzeDocument]) *)

Record Range := { range_start : Position; range_end : Position }.

Inductive DiagnosticSeverity := SeverityWarning.

Record Diagnostic := {
  d_range : Range;
  d_message : str;
  d_severity : DiagnosticSeverity;
  d_code : option string;
  d_data : option nat
}.

(** The three toggles read from the configuration, each with its default
    already applied. *)
Record Config := {
  checkDuplicates : bool;
  checkIndentation : bool;
  checkIfElseEquals : bool
}.

Definition createDiagnostic (line start end_ : nat) (message : str)
    (code : string) (data : option nat) : Diagnostic :=
  {| d_range :=
       {| range_start := {| pos_line := line; pos_character := start |};
          range_end := {| pos_line := line; pos_character := Nat.max (start + 1) end_ |} |};
     d_message := message;
     d_severity := SeverityWarning;
     d_code := if String.eqb code "" then None else Some code;
     d_data := data |}.

(** The [references.forEach] block: one diagnostic per reference whose name
    the definitions do not hold. *)
Definition unknownReference (definitions : gmap (list N) Position) (ref : Reference) : list Diagnostic :=
  if bool_decide (is_Some (definitions !! ref_name ref)) then []
  else
    [{| d_range :=
          {| range_start := {| pos_line := ref_line ref; pos_character := ref_start ref |};
             range_end := {| pos_line := ref_line ref; pos_character := ref_end ref |} |};
        d_message := js "Unknown list reference: " ++ ref_name ref;
        d_severity := SeverityWarning;
        d_code := None;
        d_data := None |}].

Record EngineState := {
  e_diagnostics : list Diagnostic;
  e_listNameIndex : gmap (list N) nat;
  e_functionIndentLevel : option nat
}.

(** The body of the loop of [analyzeDocument] over the lines before the
    markup boundary. *)
Definition analyzeDocument_body (config : Config) (index : nat) (line : str)
    (st : EngineState) : EngineState :=
  let trimmed := trim line in
  if eqs trimmed [] || startsWith trimmed (js "//") then st
  else
    let indent := leadingIndent line in
    let indentLevel := countIndentLevel indent in
    let content := drop (length indent) line in
    let commentFree := stripComment content in
    let commentFreeTrimmed := trim commentFree in
    let level1 :=
      match e_functionIndentLevel st with
      | Some level =>
          if negb (eqs trimmed []) && (indentLevel <=? level) then None else Some level
      | None => None
      end in
    let functionIndentLevel :=
      if isFunctionListStart commentFreeTrimmed then Some indentLevel else level1 in
    let '(diagnostics1, listNameIndex) :=
      if checkDuplicates config && eqs indent [] && negb (eqs trimmed []) then
        match parseListName commentFreeTrimmed with
        | Some listName =>
            if bool_decide (is_Some (e_listNameIndex st !! listName)) then
              (e_diagnostics st ++
                 [createDiagnostic index 0 (length listName)
                    (js "Duplicate top-level list name.")
                    "perchance.duplicateListName" None],
               e_listNameIndex st)
            else (e_diagnostics st, <[listName := index]> (e_listNameIndex st))
        | None => (e_diagnostics st, e_listNameIndex st)
        end
      else (e_diagnostics st, e_listNameIndex st) in
    let diagnostics2 :=
      if checkIndentation config && negb (eqs indent []) then
        let mixed :=
          if includes indent (ch "009") && includes indent (ch " ") then
            [createDiagnostic index 0 (length indent)
               (js "Mixed tabs and spaces in indentation.")
               "perchance.indentationMixed" None]
          else [] in
        let spaceCount := length (filter (fun c => c ≠ ch "009") indent) in
        let odd :=
          if negb (Nat.eqb (spaceCount mod 2) 0) then
            [createDiagnostic index 0 (length indent)
               (js "Indentation should use tabs or multiples of two spaces.")
               "perchance.indentationSpacing" None]
          else [] in
        diagnostics1 ++ mixed ++ odd
      else diagnostics1 in
    let skipPerchanceBlocks :=
      match functionIndentLevel with
      | Some level => level <? indentLevel
      | None => false
      end in
    let diagnostics3 :=
      if checkIfElseEquals config && negb skipPerchanceBlocks then
        diagnostics2 ++
        map (fun warning =>
               createDiagnostic index (length indent + span_start warning)
                 (length indent + span_end warning)
                 (js "If/else conditions should use == instead of =.")
                 "perchance.ifElseSingleEquals" (Some index))
            (findIfElseSingleEquals commentFree)
      else diagnostics2 in
    {| e_diagnostics := diagnostics3;
       e_listNameIndex := listNameIndex;
       e_functionIndentLevel := functionIndentLevel |}.

(** The state when [analyzeDocument] returns: after the reference check
    alone when every toggle is off, after the loop otherwise. *)
Definition analyzeDocument_scan (document : list str) (config : Config) : EngineState :=
  let definitions := collectListDefinitions document in
  let references := collectListReferences document in
  let initial :=
    {| e_diagnostics := flat_map (unknownReference definitions) references;
       e_listNameIndex := ∅;
       e_functionIndentLevel := None |} in
  if negb (checkDuplicates config) && negb (checkIndentation config)
     && negb (checkIfElseEquals config)
  then initial
  else
    let htmlStart := findHtmlStart document in
    forLines (analyzeDocument_body config) (take htmlStart document) 0 initial.

Definition analyzeDocument (document : list str) (config : Config) : list Diagnostic :=
  e_diagnostics (analyzeDocument_scan document config).

(** The default configuration: every toggle on. *)
Definition defaultConfig : Config :=
  {| checkDuplicates := true; checkIndentation := true; checkIfElseEquals := true |}.
(** * Properties *)

(** ** Facts about the string helpers *)

Section StringFacts.

Lemma js_cons a s : js (String a s) = ch a :: js s.
Proof. reflexivity. Qed.

Lemma js_nil : js EmptyString = [].
Proof. reflexivity. Qed.

Lemma takeWhile_dropWhile {A} (p : A -> bool) (l : list A) :
  takeWhile p l ++ dropWhile p l = l.
Proof. induction l as [|x l IH]; simpl; [done|]. destruct (p x); simpl; congruence. Qed.

Lemma takeWhile_all {A} (p : A -> bool) (l : list A) :
  Forall (fun x => p x = true) (takeWhile p l).
Proof.
  induction l as [|x l IH]; simpl; [constructor|].
  destruct (p x) eqn:E; constructor; auto.
Qed.

Lemma dropWhile_head {A} (p : A -> bool) (l : list A) x r :
  dropWhile p l = x :: r -> p x = false.
Proof.
  induction l as [|y l IH]; simpl; [discriminate|].
  destruct (p y) eqn:E; [auto|]. intros [= -> _]. exact E.
Qed.

Lemma eqs_true (a b : str) : eqs a b = true <-> a = b.
Proof. unfold eqs. apply bool_decide_eq_true. Qed.

Lemma eqs_false (a b : str) : eqs a b = false <-> a <> b.
Proof. unfold eqs. apply bool_decide_eq_false. Qed.

Lemma startsWith_spec (s p : str) : startsWith s p = true <-> exists r, s = p ++ r.
Proof.
  revert s. induction p as [|c p IH]; intros s; simpl.
  - split; [intros _; by exists s|done].
  - destruct s as [|d s]; simpl.
    + split; [done|]. intros [r Hr]. discriminate.
    + rewrite andb_true_iff, N.eqb_eq, IH. split.
      * intros [-> [r ->]]. eauto.
      * intros [r [= -> ->]]. eauto.
Qed.

End StringFacts.

(** Unfolds the string literals of the goal into their characters. *)
Ltac unjs := rewrite ?js_cons, ?js_nil.

(** Nests the concatenations of the goal to the right. *)
Ltac norm_app :=
  repeat (rewrite <- app_assoc || rewrite <- app_comm_cons || rewrite app_nil_l).

(** ** Indentation levels *)

(** The number of occurrences of the code unit [c] in [s]. *)
Definition countChar (c : N) (s : str) : nat := length (filter (fun x => x = c) s).

Lemma countChar_cons c d s :
  countChar c (d :: s) = (if (d =? c)%N then 1 else 0) + countChar c s.
Proof.
  unfold countChar. rewrite filter_cons.
  destruct (N.eqb_spec d c); destruct (decide (d = c)); simpl; congruence.
Qed.

Lemma countIndentLevel_loop_spec indent level spaces :
  spaces < 2 ->
  countIndentLevel_loop indent level spaces =
    level + countChar (ch "009") indent + (spaces + countChar (ch " ") indent) / 2.
Proof.
  revert level spaces. induction indent as [|c rest IH]; intros level spaces Hs;
    cbn [countIndentLevel_loop].
  - change (countChar _ []) with 0. rewrite !Nat.add_0_r, Nat.div_small by lia. lia.
  - rewrite !countChar_cons.
    destruct (N.eqb_spec c (ch "009")) as [->|Htab].
    + rewrite IH by lia. simpl. lia.
    + destruct (N.eqb_spec c (ch " ")) as [->|Hsp].
      * destruct spaces as [|[|?]]; [| |lia]; simpl Nat.eqb; cbv iota.
        -- rewrite IH by lia. simpl. lia.
        -- rewrite IH by lia.
           replace (1 + (1 + countChar (ch " ") rest)) with (countChar (ch " ") rest + 1 * 2) by lia.
           rewrite Nat.div_add by lia. simpl. lia.
      * rewrite IH by lia. simpl. lia.
Qed.

(** C5.  For every indentation string, [countIndentLevel] is the number of
    tab characters plus half the number of space characters, rounded down
    (a leftover odd space is not counted); two tabs give 2, four spaces
    give 2 and three spaces give 1. *)
Theorem countIndentLevel_tabs_and_space_pairs :
  (forall indent : str,
     countIndentLevel indent
     = countChar (ch "009") indent + countChar (ch " ") indent / 2)
  /\ countIndentLevel [ch "009"; ch "009"] = 2
  /\ countIndentLevel (js "    ") = 2
  /\ countIndentLevel (js "   ") = 1.
Proof.
  split; [|repeat split; reflexivity].
  intros indent. unfold countIndentLevel.
  rewrite countIndentLevel_loop_spec by lia. simpl. lia.
Qed.

(** ** The markup boundary *)

(** A tag opener somewhere in [s]: a [<], then a letter, or a [/] and a
    letter. *)
Definition tagPattern (s : str) : Prop :=
  exists k c, s !! k = Some (ch "<") /\ isLetter c = true /\
    (s !! (k + 1) = Some c \/ (s !! (k + 1) = Some (ch "/") /\ s !! (k + 2) = Some c)).

(** Conditions (b) and (c) on a line: left-trimmed, it starts with [<] but
    not with five of them, and it holds a tag opener. *)
Definition opensMarkup (line : str) : Prop :=
  (exists r, trimStart line = ch "<" :: r)
  /\ ~ (exists r, trimStart line = js "<<<<<" ++ r)
  /\ tagPattern (trimStart line).

(** The saw-blank-line flag once the lines [scanned] have been passed
    without a return: a blank line sets it, any other line clears it. *)
Fixpoint sawBlankAfter (scanned : list str) (flag : bool) : bool :=
  match scanned with
  | [] => flag
  | line :: rest => sawBlankAfter rest (eqs (trim line) [])
  end.

(** Line [i] is where the boundary may be put: the flag is set when the
    scan reaches it, and the line opens markup. *)
Definition boundaryCandidate (lines : list str) (i : nat) : Prop :=
  sawBlankAfter (take i lines) false = true
  /\ exists line, lines !! i = Some line /\ opensMarkup line.

Lemma hasTagOpener_spec s : hasTagOpener s = true <-> tagPattern s.
Proof.
  unfold tagPattern. induction s as [|c s IH]; simpl.
  - split; [done|]. intros (k & c & H & _). by rewrite lookup_nil in H.
  - rewrite orb_true_iff, IH, andb_true_iff, N.eqb_eq. split.
    + intros [[-> H]|(k & d & Hk & Hd & H)].
      * destruct s as [|d s]; [done|].
        apply orb_true_iff in H as [H|H].
        -- exists 0, d. simpl. auto.
        -- apply andb_true_iff in H as [Hd H]. apply N.eqb_eq in Hd as ->.
           destruct s as [|e s]; [done|]. exists 0, e. simpl. auto.
      * exists (S k), d. simpl. auto.
    + intros (k & d & Hk & Hd & H). destruct k as [|k]; simpl in *.
      * left. injection Hk as ->. split; [done|].
        destruct s as [|x s]; [destruct H as [H|[H _]]; done|].
        simpl in H. destruct H as [[= ->]|[[= ->] H]].
        -- by rewrite Hd.
        -- destruct s as [|e s]; [done|]. simpl in H. injection H as ->.
           rewrite Hd. rewrite N.eqb_refl. apply orb_true_r.
      * right. exists k, d. auto.
Qed.

Lemma looksLikeHtmlStart_spec line : looksLikeHtmlStart line = true <-> opensMarkup line.
Proof.
  unfold looksLikeHtmlStart, opensMarkup.
  destruct (startsWith (trimStart line) (js "<")) eqn:E1; cbn [negb].
  - apply startsWith_spec in E1 as [r Hr]. change (js "<" ++ r) with (ch "<" :: r) in Hr.
    destruct (startsWith (trimStart line) (js "<<<<<")) eqn:E2.
    + apply startsWith_spec in E2. split; [done|]. intros (_ & Hn & _). done.
    + rewrite hasTagOpener_spec. split.
      * intros H. split; [by exists r|]. split; [|done].
        intros H5. apply startsWith_spec in H5. congruence.
      * intros (_ & _ & H). done.
  - split; [done|]. intros [[r Hr] _].
    assert (startsWith (trimStart line) (js "<") = true) as H; [|congruence].
    apply startsWith_spec. by exists r.
Qed.

Lemma dropWhile_nil_all {A} (p : A -> bool) l :
  dropWhile p l = [] -> Forall (fun x => p x = true) l.
Proof.
  induction l as [|x l IH]; simpl; [constructor|].
  destruct (p x) eqn:E; [|done]. intros H. constructor; auto.
Qed.

Lemma trimEnd_nil s : trimEnd s = [] -> Forall (fun c => isWhiteSpace c = true) s.
Proof.
  unfold trimEnd. intros H.
  assert (dropWhile isWhiteSpace (reverse s) = []) as H'.
  { apply (f_equal reverse) in H. by rewrite reverse_involutive in H. }
  apply dropWhile_nil_all in H'. rewrite Forall_forall in *.
  intros x Hx. apply H'. by apply elem_of_reverse.
Qed.

(** A blank line does not open markup. *)
Lemma blank_not_opensMarkup line : trim line = [] -> ~ opensMarkup line.
Proof.
  intros Hb [[r Hr] _]. unfold trim in Hb. apply trimEnd_nil in Hb.
  rewrite Hr in Hb. apply Forall_cons in Hb as [Hw _].
  unfold trimStart in Hr. apply dropWhile_head in Hr. congruence.
Qed.

Lemma sawBlankAfter_snoc scanned line flag :
  sawBlankAfter (scanned ++ [line]) flag = eqs (trim line) [].
Proof. revert flag. induction scanned as [|l scanned IH]; intros flag; simpl; auto. Qed.

(** The flag is set at line [i] exactly when line [i - 1] is blank. *)
Lemma sawBlankAfter_previous_line (lines : list str) i :
  i <= length lines ->
  sawBlankAfter (take i lines) false = true
  <-> exists j prev, i = S j /\ lines !! j = Some prev /\ trim prev = [].
Proof.
  intros Hi. destruct i as [|j].
  - rewrite take_0. simpl. split; [done|]. intros (j & ? & ? & _). lia.
  - destruct (lookup_lt_is_Some_2 lines j) as [prev Hprev]; [lia|].
    rewrite (take_S_r _ _ _ Hprev), sawBlankAfter_snoc, eqs_true. split.
    + intros H. by exists j, prev.
    + intros (j' & prev' & [= <-] & H1 & H2). congruence.
Qed.

Lemma boundaryCandidate_middle scanned line rest :
  boundaryCandidate (scanned ++ line :: rest) (length scanned)
  <-> sawBlankAfter scanned false = true /\ opensMarkup line.
Proof.
  unfold boundaryCandidate. rewrite take_app_length.
  rewrite list_lookup_middle by done. split.
  - intros [Hf (l & [= <-] & Ho)]. done.
  - intros [Hf Ho]. split; [done|]. by exists line.
Qed.

Lemma findHtmlStart_loop_spec scanned rest :
  (forall i, i < length scanned -> ~ boundaryCandidate (scanned ++ rest) i) ->
  let b := findHtmlStart_loop rest (length scanned) (sawBlankAfter scanned false) in
  (boundaryCandidate (scanned ++ rest) b \/ b = length (scanned ++ rest))
  /\ forall i, i < b -> ~ boundaryCandidate (scanned ++ rest) i.
Proof.
  revert scanned. induction rest as [|line rest IH]; intros scanned Hpre; simpl.
  - rewrite app_nil_r in *. split; [by right|done].
  - pose proof (boundaryCandidate_middle scanned line rest) as Hcand.
    assert (~ boundaryCandidate (scanned ++ line :: rest) (length scanned) ->
            forall i, i < length (scanned ++ [line]) ->
                      ~ boundaryCandidate ((scanned ++ [line]) ++ rest) i) as Hnext.
    { intros Hn i Hi. rewrite <- app_assoc. simpl.
      rewrite length_app in Hi. simpl in Hi.
      destruct (decide (i = length scanned)) as [->|Hne]; [done|].
      apply Hpre. lia. }
    assert (S (length scanned) = length (scanned ++ [line])) as Hlen.
    { rewrite length_app. simpl. lia. }
    destruct (eqs (trim line) []) eqn:Eb.
    + apply eqs_true in Eb.
      specialize (IH (scanned ++ [line])).
      rewrite sawBlankAfter_snoc, <- Hlen, <- app_assoc in IH. simpl in IH.
      replace (eqs (trim line) []) with true in IH by (symmetry; by apply eqs_true).
      apply IH. rewrite <- app_assoc in Hnext. simpl in Hnext. rewrite Hlen. apply Hnext.
      rewrite Hcand. intros [_ Ho]. by apply blank_not_opensMarkup in Ho.
    + destruct (sawBlankAfter scanned false && looksLikeHtmlStart line) eqn:Eret.
      * apply andb_true_iff in Eret as [Hf Hl]. apply looksLikeHtmlStart_spec in Hl.
        split; [left; by apply Hcand|done].
      * specialize (IH (scanned ++ [line])).
        rewrite sawBlankAfter_snoc, <- Hlen, <- app_assoc, Eb in IH. simpl in IH.
        apply IH. rewrite <- app_assoc in Hnext. simpl in Hnext. rewrite Hlen. apply Hnext.
        rewrite Hcand. intros [Hf Ho]. apply looksLikeHtmlStart_spec in Ho.
        rewrite Hf, Ho in Eret. done.
Qed.

(** C3.  [findHtmlStart] returns the index of the first line that the scan
    reaches with the saw-blank-line flag set (the line just before it is
    blank) and that opens markup: left-trimmed it starts with [<], not with
    five [<], and holds [<] or [</] followed by a letter.  When no line is
    such, it returns the number of lines. *)
Theorem findHtmlStart_first_markup_line (lines : list str) :
  let b := findHtmlStart lines in
  (boundaryCandidate lines b
   \/ b = length lines /\ forall i, ~ boundaryCandidate lines i)
  /\ (forall i, i < b -> ~ boundaryCandidate lines i)
  /\ (forall i, boundaryCandidate lines i <->
        (exists j prev, i = S j /\ lines !! j = Some prev /\ trim prev = [])
        /\ exists line, lines !! i = Some line /\ opensMarkup line).
Proof.
  pose proof (findHtmlStart_loop_spec [] lines) as H. simpl in H.
  destruct H as [Hb Hfirst]; [intros i Hi; lia|].
  fold (findHtmlStart lines) in Hb, Hfirst. simpl.
  split; [|split; [done|]].
  - destruct Hb as [Hb|Hb]; [by left|right]. split; [done|].
    intros i Hc. destruct (decide (i < findHtmlStart lines)) as [Hlt|Hge].
    + by apply (Hfirst i).
    + destruct Hc as [_ (line & Hl & _)]. apply lookup_lt_Some in Hl. lia.
  - intros i. unfold boundaryCandidate. split.
    + intros [Hf (line & Hl & Ho)]. split; [|by exists line].
      apply sawBlankAfter_previous_line; [|done].
      apply lookup_lt_Some in Hl. lia.
    + intros [Hp (line & Hl & Ho)]. split; [|by exists line].
      apply sawBlankAfter_previous_line; [|done].
      apply lookup_lt_Some in Hl. lia.
Qed.

(** ** Scanning a text for the successive matches of a pattern *)

Section Scanning.

(** The match of a pattern at the head of a string, and the length of the
    match that captured [v]. *)
Variable matchHere : str -> option str.
Variable width : str -> nat.
Hypothesis width_ok :
  forall s v, matchHere s = Some v -> 0 < width v /\ width v <= length s.

(** The successive results of [exec] from [lastIndex] on, each search
    starting where the previous match ended. *)
Fixpoint scan (fuel : nat) (text : str) (lastIndex : nat) : list (nat * str) :=
  match fuel with
  | 0 => []
  | S fuel' =>
      match execFrom matchHere (drop lastIndex text) lastIndex with
      | None => []
      | Some (p, v) => (p, v) :: scan fuel' text (p + width v)
      end
  end.

(** The leftmost, non-overlapping matches of the pattern in [text] from
    index [from] on, in order. *)
Inductive leftmostMatches (text : str) : nat -> list (nat * str) -> Prop :=
| lm_done from :
    (forall q, from <= q -> matchHere (drop q text) = None) ->
    leftmostMatches text from []
| lm_step from p v rest :
    from <= p ->
    matchHere (drop p text) = Some v ->
    (forall q, from <= q < p -> matchHere (drop q text) = None) ->
    leftmostMatches text (p + width v) rest ->
    leftmostMatches text from ((p, v) :: rest).

Lemma matchHere_nil : matchHere [] = None.
Proof.
  destruct (matchHere []) as [v|] eqn:E; [|done].
  apply width_ok in E. simpl in E. lia.
Qed.

Lemma execFrom_some s i p v :
  execFrom matchHere s i = Some (p, v) <->
  exists k, p = i + k /\ matchHere (drop k s) = Some v
            /\ forall k', k' < k -> matchHere (drop k' s) = None.
Proof.
  revert i. induction s as [|c s IH]; intros i; simpl.
  - split; [done|]. intros (k & _ & H & _). rewrite drop_nil, matchHere_nil in H. done.
  - destruct (matchHere (c :: s)) as [w|] eqn:E.
    + split.
      * intros [= <- <-]. exists 0. rewrite Nat.add_0_r. repeat split; [done|]. lia.
      * intros (k & -> & Hk & Hlt). destruct k as [|k].
        -- rewrite drop_0 in Hk. rewrite Nat.add_0_r. congruence.
        -- specialize (Hlt 0 ltac:(lia)). rewrite drop_0 in Hlt. congruence.
    + rewrite IH. split.
      * intros (k & -> & Hk & Hlt). exists (S k). repeat split; [lia|done|].
        intros [|k'] Hk'; [done|]. simpl. apply Hlt. lia.
      * intros (k & -> & Hk & Hlt). destruct k as [|k].
        -- rewrite drop_0 in Hk. congruence.
        -- exists k. repeat split; [lia|done|].
           intros k' Hk'. apply (Hlt (S k')). lia.
Qed.

Lemma execFrom_none s i :
  execFrom matchHere s i = None <-> forall k, matchHere (drop k s) = None.
Proof.
  revert i. induction s as [|c s IH]; intros i; simpl.
  - split; [|done]. intros _ k. rewrite drop_nil. apply matchHere_nil.
  - destruct (matchHere (c :: s)) as [w|] eqn:E.
    + split; [done|]. intros H. specialize (H 0). rewrite drop_0 in H. congruence.
    + rewrite IH. split.
      * intros H [|k]; [done|]. apply H.
      * intros H k. apply (H (S k)).
Qed.

Lemma exec_drop_some text i p v :
  execFrom matchHere (drop i text) i = Some (p, v) <->
  i <= p /\ matchHere (drop p text) = Some v
  /\ forall q, i <= q < p -> matchHere (drop q text) = None.
Proof.
  rewrite execFrom_some. split.
  - intros (k & -> & Hk & Hlt). rewrite drop_drop in Hk. repeat split; [lia|done|].
    intros q Hq. specialize (Hlt (q - i) ltac:(lia)). rewrite drop_drop in Hlt.
    by replace (i + (q - i)) with q in Hlt by lia.
  - intros (Hle & Hp & Hlt). exists (p - i). rewrite drop_drop.
    replace (i + (p - i)) with p by lia. repeat split; [done|].
    intros k' Hk'. rewrite drop_drop. apply Hlt. lia.
Qed.

Lemma exec_drop_none text i :
  execFrom matchHere (drop i text) i = None <->
  forall q, i <= q -> matchHere (drop q text) = None.
Proof.
  rewrite execFrom_none. split.
  - intros H q Hq. specialize (H (q - i)). rewrite drop_drop in H.
    by replace (i + (q - i)) with q in H by lia.
  - intros H k. rewrite drop_drop. apply H. lia.
Qed.

(** With more fuel than there is text left, the loop finds every match. *)
Lemma scan_leftmost fuel text lastIndex :
  length text < fuel + lastIndex ->
  leftmostMatches text lastIndex (scan fuel text lastIndex).
Proof.
  revert lastIndex. induction fuel as [|fuel IH]; intros lastIndex Hfuel; simpl.
  - apply lm_done. intros q Hq. rewrite drop_ge by lia. apply matchHere_nil.
  - destruct (execFrom matchHere (drop lastIndex text) lastIndex) as [[p v]|] eqn:E.
    + apply exec_drop_some in E as (Hle & Hp & Hlt).
      apply lm_step; [done..|]. apply IH.
      apply width_ok in Hp as [Hpos _]. lia.
    + apply lm_done. by apply exec_drop_none.
Qed.

Lemma leftmostMatches_elem text from l p v :
  leftmostMatches text from l -> (p, v) ∈ l ->
  from <= p /\ matchHere (drop p text) = Some v.
Proof.
  induction 1 as [|from p' v' rest Hle Hm Hlt Hrest IH]; intros Hin.
  - by apply elem_of_nil in Hin.
  - apply elem_of_cons in Hin as [[= -> ->]|Hin]; [done|].
    destruct (IH Hin) as [H1 H2]. split; [lia|done].
Qed.

(** The matches are in increasing order and do not overlap. *)
Lemma leftmostMatches_apart text from l i j p v q w :
  leftmostMatches text from l ->
  l !! i = Some (p, v) -> l !! j = Some (q, w) -> i < j ->
  p + width v <= q.
Proof.
  intros H. revert i j. induction H as [|from p' v' rest Hle Hm Hlt Hrest IH]; intros i j Hi Hj Hij.
  - by rewrite lookup_nil in Hi.
  - destruct j as [|j]; [lia|]. simpl in Hj. destruct i as [|i].
    + injection Hi as -> ->.
      apply list_elem_of_lookup_2 in Hj.
      by destruct (leftmostMatches_elem _ _ _ _ _ Hrest Hj).
    + simpl in Hi. apply (IH i j); [done..|lia].
Qed.

(** No match is skipped: a place where the pattern matches lies within
    one of the matches found. *)
Lemma leftmostMatches_cover text from l q w :
  leftmostMatches text from l -> from <= q -> matchHere (drop q text) = Some w ->
  exists p v, (p, v) ∈ l /\ p <= q < p + width v.
Proof.
  induction 1 as [from Hnone|from p v rest Hle Hm Hlt Hrest IH]; intros Hq Hw.
  - rewrite Hnone in Hw by done. done.
  - destruct (decide (q < p)) as [Hqp|Hqp].
    + rewrite Hlt in Hw by lia. done.
    + destruct (decide (q < p + width v)) as [Hin|Hout].
      * exists p, v. split; [left|lia].
      * destruct IH as (p' & v' & Hin' & Hrange); [lia|done|].
        exists p', v'. split; [by right|done].
Qed.

Lemma leftmostMatches_NoDup_starts text from l :
  leftmostMatches text from l -> NoDup (l.*1).
Proof.
  induction 1 as [|from p v rest Hle Hm Hlt Hrest IH]; simpl; constructor; [|done].
  intros Hin. apply list_elem_of_fmap in Hin as ([p' v'] & Heq & Hin). simpl in Heq. subst p'.
  destruct (leftmostMatches_elem _ _ _ _ _ Hrest Hin) as [Hge _].
  apply width_ok in Hm. lia.
Qed.

End Scanning.

(** ** [indexOf] *)

Lemma indexOfFrom_some s p i k :
  indexOfFrom s p i = Some k <->
  exists j, k = i + j /\ startsWith (drop j s) p = true
            /\ forall j', j' < j -> startsWith (drop j' s) p = false.
Proof.
  revert i. induction s as [|c s IH]; intros i; simpl.
  - destruct (startsWith [] p) eqn:E.
    + split.
      * intros [= <-]. exists 0. rewrite Nat.add_0_r. repeat split; [done|]. lia.
      * intros (j & -> & Hj & Hlt). destruct j as [|j]; [by rewrite Nat.add_0_r|].
        specialize (Hlt 0 ltac:(lia)). simpl in Hlt. congruence.
    + split; [done|]. intros (j & _ & Hj & _). rewrite drop_nil in Hj. congruence.
  - destruct (startsWith (c :: s) p) eqn:E.
    + split.
      * intros [= <-]. exists 0. rewrite Nat.add_0_r. repeat split; [done|]. lia.
      * intros (j & -> & Hj & Hlt). destruct j as [|j]; [by rewrite Nat.add_0_r|].
        specialize (Hlt 0 ltac:(lia)). simpl in Hlt. congruence.
    + rewrite IH. split.
      * intros (j & -> & Hj & Hlt). exists (S j). repeat split; [lia|done|].
        intros [|j'] Hj'; [done|]. simpl. apply Hlt. lia.
      * intros (j & -> & Hj & Hlt). destruct j as [|j].
        -- simpl in Hj. congruence.
        -- exists j. repeat split; [lia|done|]. intros j' Hj'. apply (Hlt (S j')). lia.
Qed.

Lemma indexOfFrom_none s p i :
  indexOfFrom s p i = None <-> forall j, startsWith (drop j s) p = false.
Proof.
  revert i. induction s as [|c s IH]; intros i; simpl.
  - destruct (startsWith [] p) eqn:E.
    + split; [done|]. intros H. specialize (H 0). simpl in H. congruence.
    + split; [|done]. intros _ j. by rewrite drop_nil.
  - destruct (startsWith (c :: s) p) eqn:E.
    + split; [done|]. intros H. specialize (H 0). simpl in H. congruence.
    + rewrite IH. split.
      * intros H [|j]; [done|]. apply H.
      * intros H j. apply (H (S j)).
Qed.

Lemma startsWith_char s c j : startsWith (drop j s) [c] = true <-> s !! j = Some c.
Proof.
  replace (s !! j) with (drop j s !! 0) by (rewrite lookup_drop; f_equal; lia).
  destruct (drop j s) as [|d r]; simpl; [done|].
  rewrite andb_true_r, N.eqb_eq. split; [by intros ->|by intros [= ->]].
Qed.

(** [q] is the index of the first [c] in [s]. *)
Definition firstIndexOf (c : N) (s : str) (q : nat) : Prop :=
  s !! q = Some c /\ forall j, j < q -> s !! j <> Some c.

Lemma indexOf_char_some s c q : indexOf s [c] = Some q <-> firstIndexOf c s q.
Proof.
  unfold indexOf, firstIndexOf. rewrite indexOfFrom_some. split.
  - intros (j & -> & Hj & Hlt). simpl. split; [by apply startsWith_char|].
    intros j' Hj' Hc. apply startsWith_char in Hc. rewrite Hlt in Hc by done. done.
  - intros [Hq Hlt]. exists q. repeat split; [by apply startsWith_char|].
    intros j' Hj'. destruct (startsWith (drop j' s) [c]) eqn:E; [|done].
    apply startsWith_char in E. by apply Hlt in E.
Qed.

Lemma indexOf_char_none s c : indexOf s [c] = None <-> c ∉ s.
Proof.
  unfold indexOf. rewrite indexOfFrom_none. split.
  - intros H Hin. apply list_elem_of_lookup in Hin as [j Hj].
    apply startsWith_char in Hj. rewrite H in Hj. done.
  - intros H j. destruct (startsWith (drop j s) [c]) eqn:E; [|done].
    apply startsWith_char in E. apply list_elem_of_lookup_2 in E. done.
Qed.

(** ** The single-equals rule *)

(** The [=] at index [i] of a condition stands alone: the character before
    it, if any, is none of [=], [!], [>], [<], and the character after it,
    if any, is neither [=] nor [>]. *)
Definition lonelyEquals (cond : str) (i : nat) : Prop :=
  cond !! i = Some (ch "=")
  /\ (forall j p, i = S j -> cond !! j = Some p ->
        p <> ch "=" /\ p <> ch "!" /\ p <> ch ">" /\ p <> ch "<")
  /\ (forall n, cond !! S i = Some n -> n <> ch "=" /\ n <> ch ">").

Lemma charIs_true o c : charIs o c = true <-> o = Some c.
Proof.
  destruct o as [d|]; simpl; [|done]. rewrite N.eqb_eq. split; congruence.
Qed.

Lemma charIs_false o c : charIs o c = false <-> o <> Some c.
Proof.
  rewrite <- charIs_true. destruct (charIs o c); split; congruence.
Qed.

Lemma singleEqualsAt_spec text i : singleEqualsAt text i = true <-> lonelyEquals text i.
Proof.
  unfold singleEqualsAt, lonelyEquals, charAfter.
  replace (i + 1) with (S i) by lia. split.
  - intros H.
    destruct (charIs (text !! i) (ch "=")) eqn:E0; [|done]. cbn [negb] in H.
    destruct (charIs (charBefore text i) (ch "=")) eqn:P1; [done|].
    destruct (charIs (text !! S i) (ch "=")) eqn:N1; [done|].
    destruct (charIs (charBefore text i) (ch "!")) eqn:P2; [done|].
    destruct (charIs (charBefore text i) (ch ">")) eqn:P3; [done|].
    destruct (charIs (charBefore text i) (ch "<")) eqn:P4; [done|].
    destruct (charIs (text !! S i) (ch ">")) eqn:N2; [done|].
    rewrite charIs_true in E0. rewrite charIs_false in P1, P2, P3, P4, N1, N2.
    split; [done|]. split.
    + intros j p -> Hj. simpl in P1, P2, P3, P4. rewrite Hj in P1, P2, P3, P4.
      repeat split; congruence.
    + intros n Hn. rewrite Hn in N1, N2. split; congruence.
  - intros (H0 & Hp & Hn).
    apply charIs_true in H0. rewrite H0. cbn [negb].
    assert (forall c, c = ch "=" \/ c = ch "!" \/ c = ch ">" \/ c = ch "<" ->
                      charIs (charBefore text i) c = false) as Hprev.
    { intros c Hc. apply charIs_false. intros Hb.
      destruct i as [|j]; [done|]. simpl in Hb.
      destruct (Hp j _ eq_refl Hb) as (?&?&?&?). intuition congruence. }
    assert (forall c, c = ch "=" \/ c = ch ">" -> charIs (text !! S i) c = false) as Hnext.
    { intros c Hc. apply charIs_false. intros Hb.
      destruct (Hn _ Hb) as [? ?]. intuition congruence. }
    rewrite !Hprev, !Hnext by auto. done.
Qed.

Lemma hasSingleEquals_loop_spec text i n :
  hasSingleEquals_loop text i n = true <->
  exists k, i <= k < i + n /\ singleEqualsAt text k = true.
Proof.
  revert i. induction n as [|n IH]; intros i; simpl.
  - split; [done|]. intros (k & Hk & _). lia.
  - destruct (singleEqualsAt text i) eqn:E.
    + split; [|done]. intros _. exists i. split; [lia|done].
    + rewrite IH. split.
      * intros (k & Hk & H). exists k. split; [lia|done].
      * intros (k & Hk & H). exists k. split; [|done].
        destruct (decide (k = i)) as [->|]; [congruence|lia].
Qed.

(** [hasSingleEquals] holds exactly when some [=] of the text stands alone. *)
Lemma hasSingleEquals_spec text :
  hasSingleEquals text = true <-> exists i, lonelyEquals text i.
Proof.
  unfold hasSingleEquals. rewrite hasSingleEquals_loop_spec. split.
  - intros (k & _ & H). exists k. by apply singleEqualsAt_spec.
  - intros (i & H). exists i. split; [|by apply singleEqualsAt_spec].
    destruct H as [H _]. apply lookup_lt_Some in H. lia.
Qed.

(** The width of the match of [/\[([^\]]+)\]/] that captured [content]. *)
Definition bracketWidth (content : str) : nat := length content + 2.

(** A bracketed span at the head of [s]: a [[], a non-empty content
    without []], and the closing []]. *)
Definition bracketed (s content : str) : Prop :=
  content <> [] /\ (ch "]" ∉ content) /\ exists post, s = ch "[" :: content ++ ch "]" :: post.

Lemma takeWhile_notClose_spec content post :
  ch "]" ∉ content -> takeWhile notClose (content ++ ch "]" :: post) = content
                      /\ dropWhile notClose (content ++ ch "]" :: post) = ch "]" :: post.
Proof.
  induction content as [|c content IH]; intros Hnot; simpl.
  - done.
  - apply not_elem_of_cons in Hnot as [Hne Hnot].
    unfold notClose at 1 3. destruct (N.eqb_spec c (ch "]")) as [->|_]; [done|]. simpl.
    destruct (IH Hnot) as [-> ->]. done.
Qed.

Lemma takeWhile_notClose_free r : ch "]" ∉ takeWhile notClose r.
Proof.
  intros Hin. pose proof (takeWhile_all notClose r) as Hall.
  rewrite Forall_forall in Hall. apply Hall in Hin. done.
Qed.

Lemma matchBracketHere_spec s content :
  matchBracketHere s = Some content <-> bracketed s content.
Proof.
  unfold matchBracketHere, bracketed. destruct s as [|c r].
  - split; [done|]. intros (_ & _ & post & H). done.
  - destruct (N.eqb_spec c (ch "[")) as [->|Hne].
    + split.
      * pose proof (takeWhile_dropWhile notClose r) as Hsplit.
        pose proof (takeWhile_notClose_free r) as Hfree.
        destruct (takeWhile notClose r) as [|x xs] eqn:Et; [done|].
        destruct (dropWhile notClose r) as [|y ys] eqn:Ed; [done|].
        intros [= <-]. split; [done|]. split; [done|].
        apply dropWhile_head in Ed. unfold notClose in Ed.
        apply negb_false_iff, N.eqb_eq in Ed as ->.
        exists ys. by rewrite Hsplit.
      * intros (Hne & Hfree & post & [= ->]).
        destruct (takeWhile_notClose_spec content post Hfree) as [-> ->].
        destruct content; done.
    + split; [done|]. intros (_ & _ & post & [= ? _]). done.
Qed.

Lemma bracketWidth_ok s v :
  matchBracketHere s = Some v -> 0 < bracketWidth v /\ bracketWidth v <= length s.
Proof.
  intros H. apply matchBracketHere_spec in H as (_ & _ & post & ->).
  unfold bracketWidth. simpl. rewrite length_app. simpl. lia.
Qed.

(** The test that the loop body applies to the content of a match. *)
Definition flagsContent (content : str) : bool :=
  match indexOf content (js "?"), indexOf content (js ":") with
  | Some questionIndex, Some _ => hasSingleEquals (take questionIndex content)
  | _, _ => false
  end.

(** What the rule is after: the content holds a [:] and a [?], and the
    part before its first [?] holds an [=] that stands alone. *)
Definition ternaryWithSingleEquals (content : str) : Prop :=
  (ch ":" ∈ content)
  /\ exists q, firstIndexOf (ch "?") content q
               /\ exists i, lonelyEquals (take q content) i.

Lemma flagsContent_spec content :
  flagsContent content = true <-> ternaryWithSingleEquals content.
Proof.
  unfold flagsContent, ternaryWithSingleEquals.
  change (js "?") with [ch "?"]. change (js ":") with [ch ":"].
  destruct (indexOf content [ch "?"]) as [q|] eqn:Eq.
  - apply indexOf_char_some in Eq.
    destruct (indexOf content [ch ":"]) as [c|] eqn:Ec.
    + apply indexOf_char_some in Ec as [Hc _]. apply list_elem_of_lookup_2 in Hc.
      rewrite hasSingleEquals_spec. split.
      * intros H. split; [done|]. by exists q.
      * intros (_ & q' & Hq' & H).
        assert (q' = q) as ->; [|done].
        destruct Eq as [E1 E2], Hq' as [F1 F2].
        destruct (Nat.lt_trichotomy q' q) as [Hlt|[->|Hlt]]; [|done|].
        -- by apply E2 in Hlt.
        -- by apply F2 in Hlt.
    + apply indexOf_char_none in Ec. split; [done|]. by intros [H _].
  - apply indexOf_char_none in Eq. split; [done|].
    intros (_ & q & [Hq _] & _). apply list_elem_of_lookup_2 in Hq. done.
Qed.

Definition spanOf (m : nat * str) : Span :=
  {| span_start := m.1; span_end := m.1 + (length m.2 + 2) |}.

Lemma findIfElseSingleEquals_loop_scan fuel text lastIndex :
  findIfElseSingleEquals_loop fuel text lastIndex =
  spanOf <$> filter (fun m => flagsContent m.2 = true)
                    (scan matchBracketHere bracketWidth fuel text lastIndex).
Proof.
  revert lastIndex. induction fuel as [|fuel IH]; intros lastIndex; [done|].
  cbn [findIfElseSingleEquals_loop scan]. unfold execBracket.
  destruct (execFrom matchBracketHere (drop lastIndex text) lastIndex) as [[p c]|]; [|done].
  rewrite filter_cons, IH. cbn [snd]. fold (bracketWidth c).
  set (rest := spanOf <$> filter _ (scan _ _ fuel text (p + bracketWidth c))).
  transitivity (if flagsContent c then spanOf (p, c) :: rest else rest).
  - unfold flagsContent.
    destruct (indexOf c (js "?")) as [q|]; [|done].
    destruct (indexOf c (js ":")) as [k|]; done.
  - destruct (flagsContent c) eqn:E.
    + rewrite decide_True by done. done.
    + rewrite decide_False by congruence. done.
Qed.

(** A string between double quotes. *)
Definition quoted (s : str) : str := ch "034" :: s ++ [ch "034"].

(** C4.  On every text, the findings of the single-equals rule are, in
    order, the bracketed spans -- the leftmost, non-overlapping [[...]]
    with a non-empty content free of []] -- whose content holds a [:] and a
    [?] and, before its first [?], an [=] that is neither preceded by one
    of [=], [!], [>], [<] nor followed by [=] or [>]; each such span yields
    one finding, over the whole span, and no other span yields any.  The
    four sample conditions behave as the specification says. *)
Theorem findIfElseSingleEquals_flags_lone_equals :
  (forall s content, matchBracketHere s = Some content <-> bracketed s content)
  /\ (forall text : str,
        exists spans kept : list (nat * str),
          leftmostMatches matchBracketHere bracketWidth text 0 spans
          /\ sublist kept spans
          /\ (forall m, m ∈ kept <-> m ∈ spans /\ ternaryWithSingleEquals m.2)
          /\ findIfElseSingleEquals text
             = (fun m => {| span_start := m.1; span_end := m.1 + (length m.2 + 2) |}) <$> kept)
  /\ findIfElseSingleEquals
       (js "[x = 1 ? " ++ quoted (js "a") ++ js " : " ++ quoted (js "b") ++ js "]")
     = [{| span_start := 0; span_end := 19 |}]
  /\ findIfElseSingleEquals
       (js "[x == 1 ? " ++ quoted (js "a") ++ js " : " ++ quoted (js "b") ++ js "]") = []
  /\ findIfElseSingleEquals
       (js "[x != 1 ? " ++ quoted (js "a") ++ js " : " ++ quoted (js "b") ++ js "]") = []
  /\ findIfElseSingleEquals
       (js "[fn() => x ? " ++ quoted (js "a") ++ js " : " ++ quoted (js "b") ++ js "]") = [].
Proof.
  split; [apply matchBracketHere_spec|].
  split; [|repeat split; vm_compute; reflexivity].
  intros text.
  exists (scan matchBracketHere bracketWidth (S (length text)) text 0).
  exists (filter (fun m => flagsContent m.2 = true)
                 (scan matchBracketHere bracketWidth (S (length text)) text 0)).
  split; [apply scan_leftmost; [apply bracketWidth_ok|lia]|].
  split; [apply sublist_filter|].
  split.
  - intros m. rewrite list_elem_of_filter, flagsContent_spec. tauto.
  - unfold findIfElseSingleEquals. apply findIfElseSingleEquals_loop_scan.
Qed.

(** ** References *)

(** The text of a reference to [name]. *)
Definition referenceText (name : str) : str := js "[[" ++ name ++ js "]]".

(** The width of the match of [LIST_REF_REGEX] that captured [name]. *)
Definition refWidth (name : str) : nat := length name + 4.

Definition mkReference (lineIndex : nat) (m : nat * str) : Reference :=
  {| ref_name := m.2; ref_line := lineIndex; ref_start := m.1;
     ref_end := m.1 + (length m.2 + 4) |}.

Section ReferenceFacts.

Variable tail : N -> bool.
Hypothesis tail_not_open : tail (ch "[") = false.
Hypothesis tail_not_close : tail (ch "]") = false.

(** An identifier: [[A-Za-z_]] first, then characters of the class [tail]. *)
Definition isIdentifier (name : str) : Prop :=
  exists c r, name = c :: r /\ identStart c = true /\ Forall (fun x => tail x = true) r.

(** [[[name]]] stands in [text] at column [p], for an identifier [name]. *)
Definition occursAt (text : str) (p : nat) (name : str) : Prop :=
  isIdentifier name /\ take (length name + 4) (drop p text) = referenceText name.

Lemma takeWhile_run (r post : str) d :
  Forall (fun x => tail x = true) r -> tail d = false ->
  takeWhile tail (r ++ d :: post) = r /\ dropWhile tail (r ++ d :: post) = d :: post.
Proof.
  intros Hr Hd. induction Hr as [|x r Hx Hr IH]; simpl.
  - by rewrite Hd.
  - rewrite Hx. destruct IH as [-> ->]. done.
Qed.

Lemma matchRefHere_spec s name :
  matchRefHere tail s = Some name <->
  isIdentifier name /\ exists post, s = referenceText name ++ post.
Proof.
  unfold matchRefHere, isIdentifier, referenceText, matchIdent. unjs. cbn [app]. split.
  - destruct s as [|a [|b r]]; [done..|].
    destruct (N.eqb_spec a (ch "[")) as [->|]; [|done].
    destruct (N.eqb_spec b (ch "[")) as [->|]; [|done]. cbn [andb].
    destruct r as [|c r]; [done|].
    destruct (identStart c) eqn:Ec; [|done].
    destruct (startsWith (dropWhile tail r) [ch "]"; ch "]"]) eqn:Ee; [|done].
    intros [= <-]. apply startsWith_spec in Ee as [post Hpost]. split.
    + exists c, (takeWhile tail r). split; [done|]. split; [done|]. apply takeWhile_all.
    + exists post. simpl. do 3 f_equal.
      rewrite <- app_assoc, <- Hpost. symmetry. apply takeWhile_dropWhile.
  - intros [(c & r & -> & Hc & Hr) (post & ->)].
    cbn [app]. rewrite !N.eqb_refl. cbn [andb]. rewrite Hc, <- app_assoc. cbn [app].
    destruct (takeWhile_run r (ch "]" :: post) (ch "]") Hr tail_not_close) as [-> ->].
    cbn [startsWith]. rewrite !N.eqb_refl. done.
Qed.

Lemma refWidth_ok s v :
  matchRefHere tail s = Some v -> 0 < refWidth v /\ refWidth v <= length s.
Proof.
  intros H. apply matchRefHere_spec in H as [_ (post & ->)].
  unfold refWidth, referenceText. rewrite !length_app.
  change (length (js "[[")) with 2. change (length (js "]]")) with 2. lia.
Qed.

Lemma matchRefHere_occursAt text p name :
  matchRefHere tail (drop p text) = Some name <-> occursAt text p name.
Proof.
  rewrite matchRefHere_spec. unfold occursAt. split.
  - intros [Hid (post & Hpost)]. split; [done|]. rewrite Hpost.
    apply take_app_length'. unfold referenceText. rewrite !length_app.
    change (length (js "[[")) with 2. change (length (js "]]")) with 2. lia.
  - intros [Hid Htake]. split; [done|]. exists (drop (length name + 4) (drop p text)).
    rewrite <- Htake. symmetry. apply take_drop.
Qed.

(** Two occurrences never overlap: inside [[[name]]] no character but
    the first is a [[] followed by another [[]. *)
Lemma occurrences_apart text p q v w :
  matchRefHere tail (drop p text) = Some v ->
  matchRefHere tail (drop q text) = Some w ->
  p <= q < p + refWidth v -> q = p.
Proof.
  intros Hp Hq Hrange.
  apply matchRefHere_spec in Hp as [(c & r & -> & Hc & Hr) (post & Hpost)].
  apply matchRefHere_spec in Hq as [_ (post' & Hpost')].
  destruct (decide (q = p)) as [|Hne]; [done|]. exfalso.
  assert (forall k x, drop p text !! k = Some x -> text !! (p + k) = Some x) as Hat.
  { intros k x. by rewrite lookup_drop. }
  assert (text !! q = Some (ch "[") /\ text !! (q + 1) = Some (ch "[")) as [Hq0 Hq1].
  { split.
    - replace q with (q + 0) by lia. rewrite <- lookup_drop, Hpost'. done.
    - rewrite <- lookup_drop, Hpost'. done. }
  unfold refWidth in Hrange. simpl in Hrange.
  assert (forall k, 1 <= k -> k < length r + 5 -> text !! (p + k) = Some (ch "[") ->
                    k = 1) as Honly.
  { intros k Hk1 Hk2. rewrite <- lookup_drop, Hpost. unfold referenceText.
    change (js "[[" ++ (c :: r) ++ js "]]") with (ch "[" :: ch "[" :: c :: r ++ js "]]").
    destruct k as [|[|[|k]]]; [lia|done| |].
    - simpl. intros [= ->]. done.
    - simpl. rewrite <- app_assoc. intros Hk.
      destruct (decide (k < length r)) as [Hlt|Hge].
      + rewrite lookup_app_l in Hk by done.
        rewrite Forall_forall in Hr. apply list_elem_of_lookup_2 in Hk.
        apply Hr in Hk. congruence.
      + rewrite lookup_app_r in Hk by lia.
        destruct (k - length r) as [|[|?]] eqn:Ek; [done|done|lia]. }
  assert (q - p = 1) as Hk1.
  { apply Honly; [lia|lia|]. by replace (p + (q - p)) with q by lia. }
  assert (q - p + 1 = 1); [|lia].
  apply Honly; [lia|lia|]. by replace (p + (q - p + 1)) with (q + 1) by lia.
Qed.

(** The references that the inner loop finds on a line are the
    occurrences of [[[identifier]]] in it. *)
Lemma lineReferences_scan lineIndex text :
  lineReferences (execRef tail) lineIndex text
  = mkReference lineIndex <$> scan (matchRefHere tail) refWidth (S (length text)) text 0.
Proof.
  unfold lineReferences. generalize (S (length text)) as fuel. generalize 0 as lastIndex.
  intros lastIndex fuel. revert lastIndex.
  induction fuel as [|fuel IH]; intros lastIndex; [done|].
  cbn [lineReferences_loop scan]. unfold execRef at 1.
  destruct (execFrom (matchRefHere tail) (drop lastIndex text) lastIndex) as [[p v]|]; [|done].
  rewrite fmap_cons, IH. done.
Qed.

Lemma scan_occurrences text p name :
  (p, name) ∈ scan (matchRefHere tail) refWidth (S (length text)) text 0
  <-> occursAt text p name.
Proof.
  pose proof (scan_leftmost (matchRefHere tail) refWidth refWidth_ok
                (S (length text)) text 0 ltac:(lia)) as Hl.
  rewrite <- matchRefHere_occursAt. split.
  - intros Hin. eapply leftmostMatches_elem in Hin as [_ Hin]; [done|exact Hl].
  - intros Hm.
    edestruct leftmostMatches_cover as (p' & v' & Hin & Hrange);
      [exact Hl|apply Nat.le_0_l|exact Hm|].
    edestruct leftmostMatches_elem as [_ Hm']; [exact Hl|exact Hin|].
    assert (p = p') as <- by (eapply occurrences_apart; eauto).
    assert (v' = name) as -> by congruence. done.
Qed.

Lemma lineReferences_elem lineIndex text r :
  r ∈ lineReferences (execRef tail) lineIndex text <->
  ref_line r = lineIndex
  /\ occursAt text (ref_start r) (ref_name r)
  /\ ref_end r = ref_start r + (length (ref_name r) + 4).
Proof.
  rewrite lineReferences_scan, list_elem_of_fmap. split.
  - intros ([p name] & -> & Hin). apply scan_occurrences in Hin. done.
  - intros (Hl & Ho & He). exists (ref_start r, ref_name r). split.
    + destruct r; simpl in *. unfold mkReference. simpl. congruence.
    + by apply scan_occurrences.
Qed.

Lemma lineReferences_NoDup lineIndex text :
  NoDup (lineReferences (execRef tail) lineIndex text).
Proof.
  rewrite lineReferences_scan.
  pose proof (scan_leftmost (matchRefHere tail) refWidth refWidth_ok
                (S (length text)) text 0 ltac:(lia)) as Hl.
  apply leftmostMatches_NoDup_starts in Hl; [|apply refWidth_ok].
  apply (NoDup_fmap_1 ref_start). rewrite <- list_fmap_compose.
  replace (ref_start ∘ mkReference lineIndex) with (@fst nat str); [done|].
  done.
Qed.

Lemma collectListReferences_loop_elem lines k acc r :
  r ∈ forLines (fun lineIndex text references =>
                  references ++ lineReferences (execRef tail) lineIndex text) lines k acc
  <-> r ∈ acc \/ exists j text, lines !! j = Some text
                                /\ r ∈ lineReferences (execRef tail) (k + j) text.
Proof.
  revert k acc. induction lines as [|line lines IH]; intros k acc; simpl.
  - split; [by left|]. intros [H|(j & t & H & _)]; [done|]. by rewrite lookup_nil in H.
  - rewrite IH, elem_of_app. split.
    + intros [[H|H]|(j & t & Hj & H)].
      * by left.
      * right. exists 0, line. rewrite Nat.add_0_r. done.
      * right. exists (S j), t. replace (k + S j) with (S k + j) by lia. done.
    + intros [H|(j & t & Hj & H)]; [by left; left|].
      destruct j as [|j]; simpl in Hj.
      * injection Hj as <-. rewrite Nat.add_0_r in H. by left; right.
      * right. exists j, t. replace (S k + j) with (k + S j) by lia. done.
Qed.

Lemma collectListReferences_loop_NoDup lines k acc :
  NoDup acc -> (forall r, r ∈ acc -> ref_line r < k) ->
  NoDup (forLines (fun lineIndex text references =>
                     references ++ lineReferences (execRef tail) lineIndex text) lines k acc).
Proof.
  revert k acc. induction lines as [|line lines IH]; intros k acc Hnd Hlt; simpl; [done|].
  apply IH.
  - apply NoDup_app. split; [done|]. split; [|apply lineReferences_NoDup].
    intros r Hr Hr'. apply Hlt in Hr. apply lineReferences_elem in Hr' as [Hl _]. lia.
  - intros r Hr. apply elem_of_app in Hr as [Hr|Hr].
    + apply Hlt in Hr. lia.
    + apply lineReferences_elem in Hr as [Hl _]. lia.
Qed.

Lemma collectListReferencesWith_elem (document : list str) r :
  r ∈ collectListReferencesWith (execRef tail) document <->
  exists text, document !! ref_line r = Some text
               /\ occursAt text (ref_start r) (ref_name r)
               /\ ref_end r = ref_start r + (length (ref_name r) + 4).
Proof.
  unfold collectListReferencesWith. rewrite collectListReferences_loop_elem. split.
  - intros [H|(j & t & Hj & H)]; [by apply elem_of_nil in H|].
    apply lineReferences_elem in H as (Hl & Ho & He). simpl in Hl. subst j.
    by exists t.
  - intros (t & Ht & Ho & He). right. exists (ref_line r), t. split; [done|].
    apply lineReferences_elem. done.
Qed.

Lemma collectListReferencesWith_NoDup (document : list str) :
  NoDup (collectListReferencesWith (execRef tail) document).
Proof.
  apply collectListReferences_loop_NoDup; [constructor|].
  intros r Hr. by apply elem_of_nil in Hr.
Qed.

End ReferenceFacts.

Lemma identChar_class c :
  identChar c = true <->
  isLetter c = true \/ isDigit c = true \/ c = ch "_" \/ c = ch "-".
Proof.
  unfold identChar. rewrite !orb_true_iff, !N.eqb_eq. tauto.
Qed.

Lemma identStart_class c : identStart c = true <-> isLetter c = true \/ c = ch "_".
Proof. unfold identStart. rewrite orb_true_iff, N.eqb_eq. tauto. Qed.

(** C1.  [collectListReferences] scans every line of the document, and
    its records are exactly the occurrences of [[[identifier]]] in them,
    one record for each: a record names a line of the document and a span
    of columns at which [[[name]]] stands, the text of the line over that
    span is [[[name]]], and every such place has its record.  An identifier
    is a letter or underscore followed by letters, digits, underscores and
    hyphens.  Two references to the same name give two records. *)
Theorem collectListReferences_occurrences :
  (forall (document : list str) r,
     r ∈ collectListReferences document <->
     exists text, document !! ref_line r = Some text
                  /\ occursAt identChar text (ref_start r) (ref_name r)
                  /\ ref_end r = ref_start r + (length (ref_name r) + 4))
  /\ (forall (document : list str) r,
        r ∈ collectListReferences document ->
        exists text, document !! ref_line r = Some text
                     /\ take (ref_end r - ref_start r) (drop (ref_start r) text)
                        = js "[[" ++ ref_name r ++ js "]]")
  /\ (forall document : list str, NoDup (collectListReferences document))
  /\ (forall c, identStart c = true <-> isLetter c = true \/ c = ch "_")
  /\ (forall c, identChar c = true <->
                isLetter c = true \/ isDigit c = true \/ c = ch "_" \/ c = ch "-")
  /\ collectListReferences [js "[[a]] [[a]]"; js "<p>[[a]]</p>"]
     = [ {| ref_name := js "a"; ref_line := 0; ref_start := 0; ref_end := 5 |};
         {| ref_name := js "a"; ref_line := 0; ref_start := 6; ref_end := 11 |};
         {| ref_name := js "a"; ref_line := 1; ref_start := 3; ref_end := 8 |} ].
Proof.
  assert (forall (document : list str) r,
     r ∈ collectListReferences document <->
     exists text, document !! ref_line r = Some text
                  /\ occursAt identChar text (ref_start r) (ref_name r)
                  /\ ref_end r = ref_start r + (length (ref_name r) + 4)) as Hiff.
  { intros document r. by apply collectListReferencesWith_elem. }
  split; [exact Hiff|]. split; [|split; [|split; [|split]]].
  - intros document r Hr. apply Hiff in Hr as (text & Ht & [_ Ho] & He).
    exists text. split; [done|]. rewrite He.
    replace (ref_start r + (length (ref_name r) + 4) - ref_start r)
      with (length (ref_name r) + 4) by lia.
    exact Ho.
  - intros document. by apply collectListReferencesWith_NoDup.
  - apply identStart_class.
  - apply identChar_class.
  - vm_compute. reflexivity.
Qed.

(** The earlier [src/extension.js] has the same loop over a narrower
    class: its identifiers hold no hyphen, so a hyphenated reference that
    the current extension records is not seen there. *)
Lemma legacy_collectListReferences_occurrences (document : list str) r :
  r ∈ Legacy.collectListReferences document <->
  exists text, document !! ref_line r = Some text
               /\ occursAt Legacy.identChar text (ref_start r) (ref_name r)
               /\ ref_end r = ref_start r + (length (ref_name r) + 4).
Proof. by apply collectListReferencesWith_elem. Qed.

Lemma legacy_references_without_hyphen :
  Legacy.collectListReferences [js "[[my-list]]"] = []
  /\ collectListReferences [js "[[my-list]]"]
     = [ {| ref_name := js "my-list"; ref_line := 0; ref_start := 0; ref_end := 11 |} ].
Proof. split; vm_compute; reflexivity. Qed.

(** ** Loops over the lines of a document *)

(** What a pass over the lines [rest] produces when each line contributes
    [g pre i line], where [pre] holds the lines before it and [i] is its
    index. *)
Fixpoint perLine {B} (g : list str -> nat -> str -> list B) (pre rest : list str) : list B :=
  match rest with
  | [] => []
  | line :: rest' => g pre (length pre) line ++ perLine g (pre ++ [line]) rest'
  end.

(** The indices, in increasing order, of the lines that satisfy [P]. *)
Definition linesWhere (P : str -> Prop) `{!forall l, Decision (P l)} (lines : list str) : list nat :=
  perLine (fun _ i line => if decide (P line) then [i] else []) [] lines.

Section Loops.

Context {St A B : Type}.
Variable body : nat -> str -> St -> St.
Variable out : St -> list A.
Variable emit : nat -> str -> St -> list A.
Hypothesis body_out : forall i line st, out (body i line st) = out st ++ emit i line st.

(** A view [h] of the output that distributes over concatenation, the
    contribution [g] of each line to it, and an invariant [Inv pre st] of
    the state once the lines [pre] have been processed. *)
Variable h : list A -> list B.
Variable g : list str -> nat -> str -> list B.
Variable Inv : list str -> St -> Prop.
Hypothesis h_app : forall a b, h (a ++ b) = h a ++ h b.
Hypothesis step :
  forall pre line st, Inv pre st ->
    h (emit (length pre) line st) = g pre (length pre) line
    /\ Inv (pre ++ [line]) (body (length pre) line st).

Lemma forLines_perLine rest pre st :
  Inv pre st ->
  h (out (forLines body rest (length pre) st)) = h (out st) ++ perLine g pre rest
  /\ Inv (pre ++ rest) (forLines body rest (length pre) st).
Proof.
  revert pre st. induction rest as [|line rest IH]; intros pre st HI; simpl.
  - rewrite !app_nil_r. done.
  - destruct (step pre line st HI) as [Hh HI'].
    specialize (IH (pre ++ [line]) (body (length pre) line st) HI').
    rewrite length_app in IH. simpl in IH.
    replace (length pre + 1) with (S (length pre)) in IH by lia.
    destruct IH as [IH1 IH2]. rewrite <- app_assoc in IH2. simpl in IH2.
    split; [|done]. rewrite IH1, body_out, h_app, Hh, <- app_assoc. done.
Qed.

End Loops.

Lemma perLine_elem {B} (g : list str -> nat -> str -> list B) pre rest x :
  x ∈ perLine g pre rest <->
  exists j line, rest !! j = Some line
                 /\ x ∈ g (pre ++ take j rest) (length pre + j) line.
Proof.
  revert pre. induction rest as [|l rest IH]; intros pre; simpl.
  - split; [by intros H; apply elem_of_nil in H|].
    intros (j & line & H & _). by rewrite lookup_nil in H.
  - rewrite elem_of_app, IH. split.
    + intros [H|(j & line & Hj & H)].
      * exists 0, l. rewrite take_0, app_nil_r, Nat.add_0_r. done.
      * exists (S j), line. split; [done|]. simpl.
        rewrite length_app, <- app_assoc in H. simpl in H.
        by replace (length pre + S j) with (length pre + 1 + j) by lia.
    + intros (j & line & Hj & H). destruct j as [|j]; simpl in Hj.
      * injection Hj as <-. rewrite take_0, app_nil_r, Nat.add_0_r in H. by left.
      * right. exists j, line. split; [done|]. simpl in H.
        rewrite length_app, <- app_assoc. simpl.
        by replace (length pre + 1 + j) with (length pre + S j) by lia.
Qed.

Lemma linesWhere_elem (P : str -> Prop) `{!forall l, Decision (P l)} (lines : list str) i :
  i ∈ linesWhere P lines <-> exists line, lines !! i = Some line /\ P line.
Proof.
  unfold linesWhere. rewrite perLine_elem. simpl. split.
  - intros (j & line & Hj & Hin). destruct (decide (P line)); [|by apply elem_of_nil in Hin].
    apply list_elem_of_singleton in Hin as ->. by exists line.
  - intros (line & Hi & HP). exists i, line. split; [done|].
    rewrite decide_True by done. by apply list_elem_of_singleton.
Qed.

(** ** Lines and their indentation *)

(** A line that the analyzers look at: not blank, and not a [//] comment. *)
Definition codeLine (line : str) : Prop :=
  trim line <> [] /\ startsWith (trim line) (js "//") = false.

(** The leading run of tabs and spaces holds both a tab and a space. *)
Definition mixedIndent (line : str) : Prop :=
  codeLine line /\ ch "009" ∈ leadingIndent line /\ ch " " ∈ leadingIndent line.

(** The leading run of tabs and spaces holds an odd number of spaces. *)
Definition oddIndent (line : str) : Prop :=
  codeLine line /\ countChar (ch " ") (leadingIndent line) mod 2 = 1.

#[local] Instance codeLine_dec line : Decision (codeLine line).
Proof. unfold codeLine. apply _. Defined.
#[local] Instance mixedIndent_dec line : Decision (mixedIndent line).
Proof. unfold mixedIndent. apply _. Defined.
#[local] Instance oddIndent_dec line : Decision (oddIndent line).
Proof. unfold oddIndent. apply _. Defined.

Lemma skipped_not_codeLine line :
  eqs (trim line) [] || startsWith (trim line) (js "//") = true <-> ~ codeLine line.
Proof.
  unfold codeLine. rewrite orb_true_iff, eqs_true.
  destruct (startsWith (trim line) (js "//")); destruct (decide (trim line = [])) as [He|Hne].
  - split; [intros _ [? _]; done|by left].
  - split; [intros _ [_ ?]; done|by right].
  - split; [intros _ [? _]; done|by left].
  - split; [intros [?|?]; done|intros Hn; exfalso; by apply Hn].
Qed.

Lemma kept_codeLine line :
  eqs (trim line) [] || startsWith (trim line) (js "//") = false <-> codeLine line.
Proof.
  pose proof (skipped_not_codeLine line) as H.
  destruct (eqs (trim line) [] || startsWith (trim line) (js "//")).
  - split; [done|]. intros Hc. exfalso. by apply H.
  - split; [|done]. intros _. destruct (decide (codeLine line)) as [|Hn]; [done|].
    apply H in Hn. done.
Qed.

Lemma includes_spec s c : includes s c = true <-> c ∈ s.
Proof.
  unfold includes. rewrite existsb_exists. split.
  - intros (x & Hx & He). apply N.eqb_eq in He as ->. by apply list_elem_of_In.
  - intros H. exists c. split; [by apply list_elem_of_In|apply N.eqb_refl].
Qed.

Lemma leadingIndent_chars line :
  Forall (fun c => c = ch "009" \/ c = ch " ") (leadingIndent line).
Proof.
  unfold leadingIndent. pose proof (takeWhile_all isTabOrSpace line) as H.
  eapply Forall_impl; [exact H|]. intros c Hc. unfold isTabOrSpace in Hc.
  apply orb_true_iff in Hc as [Hc|Hc]; apply N.eqb_eq in Hc; auto.
Qed.

(** In a run of tabs and spaces, what is left once the tabs are removed is
    the spaces. *)
Lemma spaces_without_tabs indent :
  Forall (fun c => c = ch "009" \/ c = ch " ") indent ->
  length (filter (fun c => c <> ch "009") indent) = countChar (ch " ") indent.
Proof.
  unfold countChar. induction 1 as [|c indent Hc _ IH]; [done|].
  rewrite !filter_cons. destruct Hc as [->| ->].
  - rewrite decide_False by (intros H; by apply H).
    rewrite decide_False by done. exact IH.
  - rewrite decide_True by done. rewrite decide_True by done. simpl. by rewrite IH.
Qed.

Lemma mod2_odd n : negb (Nat.eqb (n mod 2) 0) = true <-> n mod 2 = 1.
Proof.
  pose proof (Nat.mod_upper_bound n 2 ltac:(lia)).
  destruct (Nat.eqb_spec (n mod 2) 0); cbn [negb]; split; intros; try done; [exfalso|]; lia.
Qed.

(** ** The batch analyzer, line by line *)

Definition batchWarning (index : nat) (code : string) (message : str) : Warning :=
  {| w_line := index + 1; w_code := code; w_message := message |}.

(** The name that a line declares at the top level for the batch analyzer:
    the line is looked at, starts with neither tab nor space, and
    [parseListName] finds in it a name that does not start with [$]. *)
Definition batchName (line : str) : option str :=
  if decide (codeLine line /\ leadingIndent line = []) then
    match parseListName (trim line) with
    | Some name => if startsWith name (js "$") then None else Some name
    | None => None
    end
  else None.

(** [if (index.has(name)) ... else index.set(name, i)]: a name is recorded
    at its first line only. *)
Definition recordName (name : option str) (i : nat) (index : gmap (list N) nat)
    : gmap (list N) nat :=
  match name with
  | Some n => if bool_decide (is_Some (index !! n)) then index else <[n := i]> index
  | None => index
  end.

Definition batchDuplicate (name : option str) (i : nat) (index : gmap (list N) nat)
    : list Warning :=
  match name with
  | Some n =>
      if bool_decide (is_Some (index !! n))
      then [batchWarning i "duplicate-list" (js "Duplicate top-level list name: " ++ n)]
      else []
  | None => []
  end.

Definition batchSingleEquals (i : nat) (line : str) : list Warning :=
  if decide (codeLine line) then
    map (fun _ => batchWarning i "single-equals"
                    (js "If/else conditions should use == instead of ="))
        (findIfElseSingleEquals (stripComment (drop (length (leadingIndent line)) line)))
  else [].

Definition batch_emit (i : nat) (line : str) (st : BatchState) : list Warning :=
  batchDuplicate (batchName line) i (b_listNameIndex st)
  ++ (if decide (mixedIndent line)
      then [batchWarning i "mixed-indent" (js "Mixed tabs and spaces in indentation")]
      else [])
  ++ (if decide (oddIndent line)
      then [batchWarning i "odd-indent"
              (js "Indentation should use tabs or multiples of two spaces")]
      else [])
  ++ batchSingleEquals i line.

Lemma mixed_test line :
  includes (leadingIndent line) (ch "009") && includes (leadingIndent line) (ch " ") = true
  <-> ch "009" ∈ leadingIndent line /\ ch " " ∈ leadingIndent line.
Proof. by rewrite andb_true_iff, !includes_spec. Qed.

Lemma odd_test line :
  negb (Nat.eqb (length (filter (fun c => c <> ch "009") (leadingIndent line)) mod 2) 0) = true
  <-> countChar (ch " ") (leadingIndent line) mod 2 = 1.
Proof. by rewrite mod2_odd, spaces_without_tabs by apply leadingIndent_chars. Qed.

(** An empty indentation is neither mixed nor odd. *)
Lemma no_indent_plain line : leadingIndent line = [] -> ~ mixedIndent line /\ ~ oddIndent line.
Proof.
  intros He. unfold mixedIndent, oddIndent. rewrite He. split.
  - intros (_ & H & _). by apply elem_of_nil in H.
  - intros [_ H]. done.
Qed.

Lemma analyzePerchance_body_eq i line st :
  analyzePerchance_body i line st
  = {| b_warnings := b_warnings st ++ batch_emit i line st;
       b_listNameIndex := recordName (batchName line) i (b_listNameIndex st) |}.
Proof.
  destruct st as [ws idx].
  unfold analyzePerchance_body, batch_emit, batchName, batchSingleEquals, batchDuplicate,
    recordName.
  cbn [b_warnings b_listNameIndex].
  destruct (eqs (trim line) [] || startsWith (trim line) (js "//")) eqn:Eskip.
  - apply skipped_not_codeLine in Eskip.
    rewrite (decide_False (P := codeLine line /\ _)) by tauto.
    rewrite (decide_False (P := mixedIndent line)) by (unfold mixedIndent; tauto).
    rewrite (decide_False (P := oddIndent line)) by (unfold oddIndent; tauto).
    rewrite (decide_False (P := codeLine line)) by done.
    cbn [app]. by rewrite app_nil_r.
  - apply kept_codeLine in Eskip. rewrite (decide_True (P := codeLine line)) by done.
    destruct (eqs (leadingIndent line) []) eqn:Eind.
    + apply eqs_true in Eind. destruct (no_indent_plain line Eind) as [Hm Ho].
      rewrite (decide_True (P := codeLine line /\ _)) by done.
      rewrite (decide_False (P := mixedIndent line)) by done.
      rewrite (decide_False (P := oddIndent line)) by done.
      cbn [app].
      destruct (parseListName (trim line)) as [name|]; [|done].
      destruct (startsWith name (js "$")); cbn [negb]; [done|].
      destruct (bool_decide (is_Some (idx !! name))); cbn [b_warnings b_listNameIndex].
      * by rewrite <- app_assoc.
      * done.
    + apply eqs_false in Eind.
      rewrite (decide_False (P := codeLine line /\ _)) by tauto.
      cbn [b_warnings b_listNameIndex app]. f_equal. rewrite <- !app_assoc. f_equal. f_equal.
      * destruct (includes (leadingIndent line) (ch "009")
                  && includes (leadingIndent line) (ch " ")) eqn:Em.
        -- apply mixed_test in Em. rewrite decide_True by (by split). done.
        -- rewrite decide_False; [done|]. intros (_ & Hm). apply mixed_test in Hm. congruence.
      * f_equal.
        destruct (negb (Nat.eqb (length (filter (fun c => c <> ch "009")
                                           (leadingIndent line)) mod 2) 0)) eqn:Eo.
        -- apply odd_test in Eo. rewrite decide_True by (by split). done.
        -- rewrite decide_False; [done|]. intros (_ & Ho). apply odd_test in Ho. congruence.
Qed.

(** ** The diagnostic engine, line by line *)

(** The text of a line after its indentation, up to a [//] comment. *)
Definition commentFreeOf (line : str) : str :=
  stripComment (drop (length (leadingIndent line)) line).

(** The name that a line declares at the top level for the engine: the
    line is looked at, starts with neither tab nor space, and
    [parseListName] finds a name in its comment-free text. *)
Definition editorName (line : str) : option str :=
  if decide (codeLine line /\ leadingIndent line = [])
  then parseListName (trim (commentFreeOf line))
  else None.

(** The function-header level after a line: a line at or below the level
    clears it, a line that [isFunctionListStart] recognises sets it. *)
Definition functionLevelStep (line : str) (level : option nat) : option nat :=
  if decide (codeLine line) then
    if isFunctionListStart (trim (commentFreeOf line))
    then Some (countIndentLevel (leadingIndent line))
    else match level with
         | Some l => if countIndentLevel (leadingIndent line) <=? l then None else Some l
         | None => None
         end
  else level.

(** A line is suppressed from the single-equals rule under the level [level]. *)
Definition suppressedUnder (level : option nat) (line : str) : bool :=
  match level with
  | Some l => l <? countIndentLevel (leadingIndent line)
  | None => false
  end.

Definition editorDuplicate (name : option str) (i : nat) (index : gmap (list N) nat)
    : list Diagnostic :=
  match name with
  | Some n =>
      if bool_decide (is_Some (index !! n))
      then [createDiagnostic i 0 (length n) (js "Duplicate top-level list name.")
              "perchance.duplicateListName" None]
      else []
  | None => []
  end.

Definition editorSingleEquals (i : nat) (line : str) : list Diagnostic :=
  map (fun warning =>
         createDiagnostic i (length (leadingIndent line) + span_start warning)
           (length (leadingIndent line) + span_end warning)
           (js "If/else conditions should use == instead of =.")
           "perchance.ifElseSingleEquals" (Some i))
      (findIfElseSingleEquals (commentFreeOf line)).

Definition editor_emit (config : Config) (i : nat) (line : str) (st : EngineState)
    : list Diagnostic :=
  (if checkDuplicates config
   then editorDuplicate (editorName line) i (e_listNameIndex st) else [])
  ++ (if decide (checkIndentation config = true /\ mixedIndent line)
      then [createDiagnostic i 0 (length (leadingIndent line))
              (js "Mixed tabs and spaces in indentation.")
              "perchance.indentationMixed" None]
      else [])
  ++ (if decide (checkIndentation config = true /\ oddIndent line)
      then [createDiagnostic i 0 (length (leadingIndent line))
              (js "Indentation should use tabs or multiples of two spaces.")
              "perchance.indentationSpacing" None]
      else [])
  ++ (if decide (checkIfElseEquals config = true /\ codeLine line
                 /\ suppressedUnder (functionLevelStep line (e_functionIndentLevel st)) line
                    = false)
      then editorSingleEquals i line else []).

Lemma analyzeDocument_body_eq config i line st :
  analyzeDocument_body config i line st
  = {| e_diagnostics := e_diagnostics st ++ editor_emit config i line st;
       e_listNameIndex :=
         if checkDuplicates config
         then recordName (editorName line) i (e_listNameIndex st)
         else e_listNameIndex st;
       e_functionIndentLevel := functionLevelStep line (e_functionIndentLevel st) |}.
Proof.
  destruct st as [ds idx level]. destruct config as [cd ci ce].
  unfold analyzeDocument_body, editor_emit, editorName, functionLevelStep, editorDuplicate,
    editorSingleEquals, recordName, suppressedUnder, commentFreeOf.
  cbn [e_diagnostics e_listNameIndex e_functionIndentLevel
       checkDuplicates checkIndentation checkIfElseEquals].
  destruct (eqs (trim line) [] || startsWith (trim line) (js "//")) eqn:Eskip.
  - apply skipped_not_codeLine in Eskip.
    rewrite (decide_False (P := codeLine line /\ _)) by tauto.
    rewrite (decide_False (P := _ /\ mixedIndent line)) by (unfold mixedIndent; tauto).
    rewrite (decide_False (P := _ /\ oddIndent line)) by (unfold oddIndent; tauto).
    rewrite (decide_False (P := codeLine line)) by done.
    rewrite (decide_False (P := _ /\ codeLine line /\ _)) by tauto.
    destruct cd; cbn [app]; by rewrite app_nil_r.
  - pose proof Eskip as Hcode. apply kept_codeLine in Hcode.
    assert (eqs (trim line) [] = false) as Hne.
    { apply orb_false_iff in Eskip. tauto. }
    rewrite Hne. cbn [negb andb].
    rewrite (decide_True (P := codeLine line)) by done.
    set (indent := leadingIndent line).
    set (indentLevel := countIndentLevel indent).
    set (cft := trim (stripComment (drop (length indent) line))).
    set (level1 := match level with
                   | Some l => if indentLevel <=? l then None else Some l
                   | None => None
                   end).
    set (level2 := if isFunctionListStart cft then Some indentLevel else level1).
    assert (forall ds',
      (if ce && negb match level2 with Some l => l <? indentLevel | None => false end
       then ds' ++ map (fun warning =>
                          createDiagnostic i (length indent + span_start warning)
                            (length indent + span_end warning)
                            (js "If/else conditions should use == instead of =.")
                            "perchance.ifElseSingleEquals" (Some i))
                       (findIfElseSingleEquals (stripComment (drop (length indent) line)))
       else ds')
      = ds' ++ (if decide (ce = true /\ codeLine line
                           /\ match level2 with Some l => l <? indentLevel | None => false end
                              = false)
                then map (fun warning =>
                          createDiagnostic i (length indent + span_start warning)
                            (length indent + span_end warning)
                            (js "If/else conditions should use == instead of =.")
                            "perchance.ifElseSingleEquals" (Some i))
                       (findIfElseSingleEquals (stripComment (drop (length indent) line)))
                else [])) as Heq.
    { intros ds'. destruct ce; cbn [andb].
      - destruct (match level2 with Some l => l <? indentLevel | None => false end); cbn [negb].
        + rewrite decide_False by (intros (_ & _ & ?); done). by rewrite app_nil_r.
        + rewrite decide_True by done. done.
      - rewrite decide_False by (intros (? & _); done). by rewrite app_nil_r. }
    assert (forall ds',
      (if ci && negb (eqs indent [])
       then ds'
            ++ (if includes indent (ch "009") && includes indent (ch " ")
                then [createDiagnostic i 0 (length indent)
                        (js "Mixed tabs and spaces in indentation.")
                        "perchance.indentationMixed" None]
                else [])
            ++ (if negb (Nat.eqb (length (filter (fun c => c <> ch "009") indent) mod 2) 0)
                then [createDiagnostic i 0 (length indent)
                        (js "Indentation should use tabs or multiples of two spaces.")
                        "perchance.indentationSpacing" None]
                else [])
       else ds')
      = ds'
        ++ (if decide (ci = true /\ mixedIndent line)
            then [createDiagnostic i 0 (length indent)
                    (js "Mixed tabs and spaces in indentation.")
                    "perchance.indentationMixed" None]
            else [])
        ++ (if decide (ci = true /\ oddIndent line)
            then [createDiagnostic i 0 (length indent)
                    (js "Indentation should use tabs or multiples of two spaces.")
                    "perchance.indentationSpacing" None]
            else [])) as Hind.
    { intros ds'. destruct ci; cbn [andb].
      - destruct (eqs indent []) eqn:Eind; cbn [negb].
        + apply eqs_true in Eind. destruct (no_indent_plain line Eind) as [Hm Ho].
          rewrite !decide_False by tauto. by rewrite app_nil_r.
        + f_equal. f_equal.
          * destruct (includes indent (ch "009") && includes indent (ch " ")) eqn:Em.
            -- apply mixed_test in Em.
               rewrite decide_True by (split; [done|split; [done|exact Em]]). done.
            -- rewrite decide_False; [done|]. intros (_ & _ & Hm).
               apply mixed_test in Hm. fold indent in Hm. congruence.
          * destruct (negb (Nat.eqb (length (filter (fun c => c <> ch "009") indent) mod 2) 0))
              eqn:Eo.
            -- apply odd_test in Eo.
               rewrite decide_True by (split; [done|split; [done|exact Eo]]). done.
            -- rewrite decide_False; [done|]. intros (_ & _ & Ho).
               apply odd_test in Ho. fold indent in Ho. congruence.
      - rewrite !decide_False by (intros (? & _); done). by rewrite app_nil_r. }
    match goal with
    | |- context [match ?e with (_, _) => _ end] =>
        destruct e as [d1 idx'] eqn:Escrut
    end.
    rewrite Heq, Hind. rewrite <- !app_assoc.
    assert (d1 = ds ++ (if cd
                        then match (if decide (codeLine line /\ leadingIndent line = [])
                                    then parseListName cft else None) with
                             | Some n =>
                                 if bool_decide (is_Some (idx !! n))
                                 then [createDiagnostic i 0 (length n)
                                         (js "Duplicate top-level list name.")
                                         "perchance.duplicateListName" None]
                                 else []
                             | None => []
                             end
                        else [])
            /\ idx' = (if cd
                       then match (if decide (codeLine line /\ leadingIndent line = [])
                                   then parseListName cft else None) with
                            | Some n =>
                                if bool_decide (is_Some (idx !! n)) then idx
                                else <[n := i]> idx
                            | None => idx
                            end
                       else idx)) as [-> ->]; [|by rewrite <- !app_assoc].
    destruct cd; cbn [andb] in Escrut.
    + destruct (eqs indent []) eqn:Eind; cbn [andb] in Escrut.
      * apply eqs_true in Eind.
        rewrite (decide_True (P := codeLine line /\ _)) by done.
        destruct (parseListName cft) as [name|].
        -- destruct (bool_decide (is_Some (idx !! name))); cbv iota in Escrut;
             injection Escrut as <- <-; by rewrite ?app_nil_r.
        -- injection Escrut as <- <-. by rewrite app_nil_r.
      * apply eqs_false in Eind.
        rewrite (decide_False (P := codeLine line /\ _)) by tauto.
        injection Escrut as <- <-. by rewrite app_nil_r.
    + injection Escrut as <- <-. by rewrite app_nil_r.
Qed.

(** ** Findings by code *)

(** The line indices (from 0) of the batch findings with a given code, in
    the order of the report; the batch script numbers lines from 1. *)
Definition batchLinesWith (code : string) (ws : list Warning) : list nat :=
  (fun w => w_line w - 1) <$> filter (fun w => w_code w = code) ws.

(** The line indices of the diagnostics with a given code, in order. *)
Definition editorLinesWith (code : string) (ds : list Diagnostic) : list nat :=
  (fun d => pos_line (range_start (d_range d))) <$> filter (fun d => d_code d = Some code) ds.

Lemma batchLinesWith_app code a b :
  batchLinesWith code (a ++ b) = batchLinesWith code a ++ batchLinesWith code b.
Proof. unfold batchLinesWith. by rewrite filter_app, fmap_app. Qed.

Lemma editorLinesWith_app code a b :
  editorLinesWith code (a ++ b) = editorLinesWith code a ++ editorLinesWith code b.
Proof. unfold editorLinesWith. by rewrite filter_app, fmap_app. Qed.

Lemma batchLinesWith_none code ws :
  Forall (fun w => w_code w <> code) ws -> batchLinesWith code ws = [].
Proof.
  unfold batchLinesWith. induction 1 as [|w ws Hw _ IH]; [done|].
  by rewrite filter_cons_False.
Qed.

Lemma editorLinesWith_none code ds :
  Forall (fun d => d_code d <> Some code) ds -> editorLinesWith code ds = [].
Proof.
  unfold editorLinesWith. induction 1 as [|d ds Hd _ IH]; [done|].
  by rewrite filter_cons_False.
Qed.

Lemma batchLinesWith_one code i message :
  batchLinesWith code [batchWarning i code message] = [i].
Proof.
  unfold batchLinesWith. rewrite filter_cons_True by done. simpl. f_equal. lia.
Qed.

Lemma batchDuplicate_codes name i index :
  Forall (fun w => w_code w = "duplicate-list"%string) (batchDuplicate name i index).
Proof.
  unfold batchDuplicate. destruct name as [n|]; [|constructor].
  destruct (bool_decide _); repeat constructor.
Qed.

Lemma batchSingleEquals_codes i line :
  Forall (fun w => w_code w = "single-equals"%string) (batchSingleEquals i line).
Proof.
  unfold batchSingleEquals. destruct (decide (codeLine line)); [|constructor].
  apply Forall_forall. intros w Hw. apply list_elem_of_fmap in Hw as (x & -> & _). done.
Qed.

Lemma editorDuplicate_codes name i index :
  Forall (fun d => d_code d = Some "perchance.duplicateListName"%string)
         (editorDuplicate name i index).
Proof.
  unfold editorDuplicate. destruct name as [n|]; [|constructor].
  destruct (bool_decide _); repeat constructor.
Qed.

Lemma editorSingleEquals_codes i line :
  Forall (fun d => d_code d = Some "perchance.ifElseSingleEquals"%string)
         (editorSingleEquals i line).
Proof.
  unfold editorSingleEquals.
  apply Forall_forall. intros w Hw. apply list_elem_of_fmap in Hw as (x & -> & _). done.
Qed.

Lemma unknownReference_codes definitions references :
  Forall (fun d => d_code d = None) (flat_map (unknownReference definitions) references).
Proof.
  induction references as [|r references IH]; simpl; [constructor|].
  apply Forall_app. split; [|done]. unfold unknownReference.
  destruct (bool_decide _); repeat constructor.
Qed.

Lemma listAfterHtml_loop_codes lines k :
  Forall (fun w => w_code w = "list-after-html"%string) (listAfterHtml_loop lines k).
Proof.
  revert k. induction lines as [|line lines IH]; intros k; cbn [listAfterHtml_loop];
    [constructor|].
  destruct (eqs (trim line) [] || startsWith (trim line) (js "<!--")); [apply IH|].
  destruct (isListHeaderLine (trim line)); [repeat constructor|apply IH].
Qed.

Lemma Forall_code_other {A} (f : A -> string) (c c' : string) (l : list A) :
  c <> c' -> Forall (fun x => f x = c) l -> Forall (fun x => f x <> c') l.
Proof. intros Hne H. eapply Forall_impl; [exact H|]. intros x ->. done. Qed.

Lemma Forall_ocode_other {A} (f : A -> option string) (c : option string) (c' : string)
    (l : list A) :
  c <> Some c' -> Forall (fun x => f x = c) l -> Forall (fun x => f x <> Some c') l.
Proof. intros Hne H. eapply Forall_impl; [exact H|]. intros x ->. done. Qed.

(** The warnings of the batch analyzer that come from its first loop. *)
Lemma analyzePerchance_scan_perLine (lines : list str) {B} (h : list Warning -> list B)
    (g : list str -> nat -> str -> list B) (Inv : list str -> BatchState -> Prop) :
  (forall a b, h (a ++ b) = h a ++ h b) ->
  h [] = [] ->
  (forall pre line st, Inv pre st ->
     h (batch_emit (length pre) line st) = g pre (length pre) line
     /\ Inv (pre ++ [line]) (analyzePerchance_body (length pre) line st)) ->
  Inv [] {| b_warnings := []; b_listNameIndex := ∅ |} ->
  h (b_warnings (analyzePerchance_scan lines))
  = perLine g [] (take (findHtmlStart lines) lines)
  /\ Inv (take (findHtmlStart lines) lines) (analyzePerchance_scan lines).
Proof.
  intros Happ Hnil Hstep Hinit. unfold analyzePerchance_scan.
  pose proof (forLines_perLine analyzePerchance_body b_warnings batch_emit
                ltac:(intros; by rewrite analyzePerchance_body_eq)
                h g Inv Happ Hstep (take (findHtmlStart lines) lines) [] _ Hinit) as [H1 H2].
  simpl in H1, H2. by rewrite H1, Hnil.
Qed.

Lemma analyzeDocument_scan_perLine (lines : list str) config {B}
    (h : list Diagnostic -> list B)
    (g : list str -> nat -> str -> list B) (Inv : list str -> EngineState -> Prop) :
  negb (checkDuplicates config) && negb (checkIndentation config)
    && negb (checkIfElseEquals config) = false ->
  (forall a b, h (a ++ b) = h a ++ h b) ->
  (forall pre line st, Inv pre st ->
     h (editor_emit config (length pre) line st) = g pre (length pre) line
     /\ Inv (pre ++ [line]) (analyzeDocument_body config (length pre) line st)) ->
  Inv [] {| e_diagnostics :=
              flat_map (unknownReference (collectListDefinitions lines))
                       (collectListReferences lines);
            e_listNameIndex := ∅; e_functionIndentLevel := None |} ->
  h (analyzeDocument lines config)
  = h (flat_map (unknownReference (collectListDefinitions lines))
                (collectListReferences lines))
    ++ perLine g [] (take (findHtmlStart lines) lines)
  /\ Inv (take (findHtmlStart lines) lines) (analyzeDocument_scan lines config).
Proof.
  intros Hon Happ Hstep Hinit. unfold analyzeDocument, analyzeDocument_scan. rewrite Hon.
  pose proof (forLines_perLine (analyzeDocument_body config) e_diagnostics (editor_emit config)
                ltac:(intros; by rewrite analyzeDocument_body_eq)
                h g Inv Happ Hstep (take (findHtmlStart lines) lines) [] _ Hinit) as [H1 H2].
  simpl in H1, H2. by rewrite H1.
Qed.

(** ** The indentation rules *)

Lemma batch_indent_lines (lines : list str) code message (P : str -> Prop)
    `{!forall l, Decision (P l)} :
  code <> "duplicate-list"%string -> code <> "single-equals"%string ->
  code <> "list-after-html"%string ->
  (forall i line st,
     batchLinesWith code (batch_emit i line st)
     = batchLinesWith code (if decide (P line) then [batchWarning i code message] else [])) ->
  batchLinesWith code (analyzePerchance_lines lines)
  = linesWhere P (take (findHtmlStart lines) lines).
Proof.
  intros Hd He Hl Hemit. unfold analyzePerchance_lines. rewrite batchLinesWith_app.
  rewrite (batchLinesWith_none code (listAfterHtml_loop _ _))
    by (eapply Forall_code_other; [|apply listAfterHtml_loop_codes]; done).
  rewrite app_nil_r.
  apply (analyzePerchance_scan_perLine lines (batchLinesWith code)
           (fun _ i line => if decide (P line) then [i] else []) (fun _ _ => True));
    [apply batchLinesWith_app|done| |done].
  intros pre line st _. split; [|done]. rewrite Hemit.
  destruct (decide (P line)); [apply batchLinesWith_one|done].
Qed.

Lemma batch_emit_mixed i line st :
  batchLinesWith "mixed-indent" (batch_emit i line st)
  = batchLinesWith "mixed-indent"
      (if decide (mixedIndent line)
       then [batchWarning i "mixed-indent" (js "Mixed tabs and spaces in indentation")]
       else []).
Proof.
  unfold batch_emit. rewrite !batchLinesWith_app.
  rewrite (batchLinesWith_none _ (batchDuplicate _ _ _))
    by (eapply Forall_code_other; [|apply batchDuplicate_codes]; done).
  rewrite (batchLinesWith_none _ (batchSingleEquals _ _))
    by (eapply Forall_code_other; [|apply batchSingleEquals_codes]; done).
  rewrite (batchLinesWith_none _ (if decide (oddIndent line) then _ else _))
    by (destruct (decide (oddIndent line)); repeat constructor; done).
  by rewrite !app_nil_r.
Qed.

Lemma batch_emit_odd i line st :
  batchLinesWith "odd-indent" (batch_emit i line st)
  = batchLinesWith "odd-indent"
      (if decide (oddIndent line)
       then [batchWarning i "odd-indent"
               (js "Indentation should use tabs or multiples of two spaces")]
       else []).
Proof.
  unfold batch_emit. rewrite !batchLinesWith_app.
  rewrite (batchLinesWith_none _ (batchDuplicate _ _ _))
    by (eapply Forall_code_other; [|apply batchDuplicate_codes]; done).
  rewrite (batchLinesWith_none _ (batchSingleEquals _ _))
    by (eapply Forall_code_other; [|apply batchSingleEquals_codes]; done).
  rewrite (batchLinesWith_none _ (if decide (mixedIndent line) then _ else _))
    by (destruct (decide (mixedIndent line)); repeat constructor; done).
  by rewrite !app_nil_r.
Qed.

Lemma editor_indent_lines (lines : list str) config code (P : str -> Prop)
    `{!forall l, Decision (P l)} :
  checkIndentation config = true ->
  (forall i line st,
     editorLinesWith code (editor_emit config i line st)
     = if decide (P line) then [i] else []) ->
  editorLinesWith code (analyzeDocument lines config)
  = linesWhere P (take (findHtmlStart lines) lines).
Proof.
  intros Hon Hemit.
  destruct (analyzeDocument_scan_perLine lines config (editorLinesWith code)
           (fun _ i line => if decide (P line) then [i] else []) (fun _ _ => True))
    as [Hres _]; [| apply editorLinesWith_app | | done |].
  - rewrite Hon. cbn [negb]. by rewrite andb_false_r.
  - intros pre line st _. split; [|done]. apply Hemit.
  - rewrite Hres. rewrite editorLinesWith_none; [done|].
    eapply Forall_ocode_other; [|apply unknownReference_codes]. done.
Qed.

Lemma editor_emit_mixed dup eq i line st :
  editorLinesWith "perchance.indentationMixed"
    (editor_emit {| checkDuplicates := dup; checkIndentation := true;
                    checkIfElseEquals := eq |} i line st)
  = if decide (mixedIndent line) then [i] else [].
Proof.
  unfold editor_emit. cbn [checkDuplicates checkIndentation checkIfElseEquals].
  rewrite !editorLinesWith_app.
  rewrite (editorLinesWith_none _ (if dup then _ else _)).
  2:{ destruct dup; [|constructor].
      eapply Forall_ocode_other; [|apply editorDuplicate_codes]. done. }
  rewrite (editorLinesWith_none _ (if decide (eq = true /\ _) then _ else _)).
  2:{ destruct (decide (eq = true /\ _)); [|constructor].
      eapply Forall_ocode_other; [|apply editorSingleEquals_codes]. done. }
  rewrite (editorLinesWith_none _ (if decide (_ /\ oddIndent line) then _ else _)).
  2:{ destruct (decide (_ /\ oddIndent line)); repeat constructor. done. }
  cbn [app]. rewrite ?app_nil_r.
  destruct (decide (mixedIndent line)) as [Hm|Hm].
  - rewrite decide_True by done. unfold editorLinesWith.
    rewrite filter_cons_True by done. done.
  - rewrite decide_False by tauto. done.
Qed.

Lemma editor_emit_odd dup eq i line st :
  editorLinesWith "perchance.indentationSpacing"
    (editor_emit {| checkDuplicates := dup; checkIndentation := true;
                    checkIfElseEquals := eq |} i line st)
  = if decide (oddIndent line) then [i] else [].
Proof.
  unfold editor_emit. cbn [checkDuplicates checkIndentation checkIfElseEquals].
  rewrite !editorLinesWith_app.
  rewrite (editorLinesWith_none _ (if dup then _ else _)).
  2:{ destruct dup; [|constructor].
      eapply Forall_ocode_other; [|apply editorDuplicate_codes]. done. }
  rewrite (editorLinesWith_none _ (if decide (eq = true /\ _) then _ else _)).
  2:{ destruct (decide (eq = true /\ _)); [|constructor].
      eapply Forall_ocode_other; [|apply editorSingleEquals_codes]. done. }
  rewrite (editorLinesWith_none _ (if decide (_ /\ mixedIndent line) then _ else _)).
  2:{ destruct (decide (_ /\ mixedIndent line)); repeat constructor. done. }
  cbn [app]. rewrite ?app_nil_r.
  destruct (decide (oddIndent line)) as [Hm|Hm].
  - rewrite decide_True by done. unfold editorLinesWith.
    rewrite filter_cons_True by done. done.
  - rewrite decide_False by tauto. done.
Qed.

(** C8.  With the indentation check on, the batch script and the engine
    flag the same lines, in the same order: a mixed-indentation finding at
    exactly the looked-at lines before the markup boundary whose leading
    run of tabs and spaces holds both a tab and a space, and an
    odd-indentation finding at exactly those whose leading run holds an odd
    number of spaces.  Such lines are indented, and one line can get both
    findings. *)
Theorem indentation_rules_agree :
  (forall (lines : list str) (dup eq : bool),
     let config := {| checkDuplicates := dup; checkIndentation := true;
                      checkIfElseEquals := eq |} in
     let region := take (findHtmlStart lines) lines in
     batchLinesWith "mixed-indent" (analyzePerchance_lines lines)
       = linesWhere mixedIndent region
     /\ editorLinesWith "perchance.indentationMixed" (analyzeDocument lines config)
       = linesWhere mixedIndent region
     /\ batchLinesWith "odd-indent" (analyzePerchance_lines lines)
       = linesWhere oddIndent region
     /\ editorLinesWith "perchance.indentationSpacing" (analyzeDocument lines config)
       = linesWhere oddIndent region)
  /\ (forall line, mixedIndent line \/ oddIndent line -> leadingIndent line <> [])
  /\ (let lines := [js "list"; [ch " "; ch "009"] ++ js "item"] in
      batchLinesWith "mixed-indent" (analyzePerchance_lines lines) = [1]
      /\ batchLinesWith "odd-indent" (analyzePerchance_lines lines) = [1]
      /\ editorLinesWith "perchance.indentationMixed" (analyzeDocument lines defaultConfig) = [1]
      /\ editorLinesWith "perchance.indentationSpacing" (analyzeDocument lines defaultConfig)
         = [1]).
Proof.
  split; [|split].
  - intros lines dup eq. cbv zeta. repeat split.
    + eapply batch_indent_lines; [done..|]. intros. apply batch_emit_mixed.
    + apply editor_indent_lines; [done|]. intros. apply editor_emit_mixed.
    + eapply batch_indent_lines; [done..|]. intros. apply batch_emit_odd.
    + apply editor_indent_lines; [done|]. intros. apply editor_emit_odd.
  - intros line H He. destruct (no_indent_plain line He). tauto.
  - cbv zeta. repeat split; vm_compute; reflexivity.
Qed.

(** ** List headers after the markup boundary *)

(** A line that the second loop of the batch analyzer reports: not blank,
    not starting with [<!--] once trimmed, and of a list-header shape. *)
Definition strayHeader (line : str) : Prop :=
  trim line <> [] /\ startsWith (trim line) (js "<!--") = false
  /\ isListHeaderLine (trim line) = true.

Lemma isListHeaderLine_shapes t :
  isListHeaderLine t = true <->
  t <> [] /\ (is_Some (LIST_BLOCK_HEADER_REGEX t) \/ is_Some (LIST_SHORTHAND_REGEX t)
              \/ is_Some (DOLLAR_SHORTHAND_REGEX t) \/ FUNCTION_HEADER_REGEX t = true).
Proof.
  unfold isListHeaderLine. destruct (eqs t []) eqn:Et.
  - apply eqs_true in Et. split; [done|]. by intros [? _].
  - apply eqs_false in Et.
    destruct (bool_decide (is_Some (LIST_BLOCK_HEADER_REGEX t))) eqn:E1.
    { apply bool_decide_eq_true in E1. tauto. }
    apply bool_decide_eq_false in E1.
    destruct (bool_decide (is_Some (LIST_SHORTHAND_REGEX t))) eqn:E2.
    { apply bool_decide_eq_true in E2. tauto. }
    apply bool_decide_eq_false in E2.
    destruct (bool_decide (is_Some (DOLLAR_SHORTHAND_REGEX t))) eqn:E3.
    { apply bool_decide_eq_true in E3. tauto. }
    apply bool_decide_eq_false in E3. tauto.
Qed.

Lemma filter_none {A} (P : A -> Prop) `{!forall x, Decision (P x)} l :
  Forall (fun x => ~ P x) l -> filter P l = [].
Proof. induction 1; [done|]. by rewrite filter_cons_False. Qed.

Lemma filter_all {A} (P : A -> Prop) `{!forall x, Decision (P x)} l :
  Forall P l -> filter P l = l.
Proof. induction 1; [done|]. rewrite filter_cons_True by done. by f_equal. Qed.

Lemma batch_emit_codes i line st :
  Forall (fun w => w_code w <> "list-after-html"%string) (batch_emit i line st).
Proof.
  unfold batch_emit. rewrite !Forall_app. repeat split.
  - eapply Forall_code_other; [|apply batchDuplicate_codes]. done.
  - destruct (decide (mixedIndent line)); repeat constructor. done.
  - destruct (decide (oddIndent line)); repeat constructor. done.
  - eapply Forall_code_other; [|apply batchSingleEquals_codes]. done.
Qed.

Lemma perLine_nothing {B} pre rest :
  perLine (B := B) (fun _ _ _ => []) pre rest = [].
Proof. revert pre. induction rest as [|l rest IH]; intros pre; simpl; [done|apply IH]. Qed.

Lemma first_loop_no_list_after_html (lines : list str) :
  filter (fun w => w_code w = "list-after-html"%string)
         (b_warnings (analyzePerchance_scan lines)) = [].
Proof.
  destruct (analyzePerchance_scan_perLine lines
              (filter (fun w => w_code w = "list-after-html"%string))
              (fun _ _ _ => []) (fun _ _ => True)) as [H _];
    [apply filter_app|done| |done|].
  - intros pre line st _. split; [|done]. apply filter_none, batch_emit_codes.
  - by rewrite H, perLine_nothing.
Qed.

Lemma listAfterHtml_loop_spec rest k :
  (exists j line, rest !! j = Some line /\ strayHeader line
      /\ (forall j' l, j' < j -> rest !! j' = Some l -> ~ strayHeader l)
      /\ listAfterHtml_loop rest k
         = [batchWarning (k + j) "list-after-html" (js "List header appears after HTML start")])
  \/ ((forall j l, rest !! j = Some l -> ~ strayHeader l) /\ listAfterHtml_loop rest k = []).
Proof.
  revert k. induction rest as [|line rest IH]; intros k; cbn [listAfterHtml_loop].
  - right. split; [|done]. intros j l H. by rewrite lookup_nil in H.
  - assert (~ strayHeader line ->
            (exists j line0, (line :: rest) !! j = Some line0 /\ strayHeader line0
               /\ (forall j' l, j' < j -> (line :: rest) !! j' = Some l -> ~ strayHeader l)
               /\ listAfterHtml_loop rest (S k)
                  = [batchWarning (k + j) "list-after-html"
                       (js "List header appears after HTML start")])
            \/ ((forall j l, (line :: rest) !! j = Some l -> ~ strayHeader l)
                /\ listAfterHtml_loop rest (S k) = [])) as Hskip.
    { intros Hn. destruct (IH (S k)) as [(j & l & Hj & Hs & Hfirst & Heq)|[Hnone Heq]].
      - left. exists (S j), l. split; [done|]. split; [done|]. split.
        + intros [|j'] l' Hlt Hl'; simpl in Hl'; [by injection Hl' as <-|].
          apply (Hfirst j'); [lia|done].
        + rewrite Heq. do 2 f_equal. lia.
      - right. split; [|done]. intros [|j] l Hl; simpl in Hl; [by injection Hl as <-|].
        by apply (Hnone j). }
    destruct (eqs (trim line) [] || startsWith (trim line) (js "<!--")) eqn:Eskip.
    + apply Hskip. intros (Hne & Hc & _). apply orb_true_iff in Eskip as [E|E].
      * by apply eqs_true in E.
      * congruence.
    + apply orb_false_iff in Eskip as [E1 E2]. apply eqs_false in E1.
      destruct (isListHeaderLine (trim line)) eqn:Eh.
      * left. exists 0, line. rewrite Nat.add_0_r.
        split; [done|]. split; [done|]. split; [|done].
        intros j' l Hlt. lia.
      * apply Hskip. intros (_ & _ & Hh). congruence.
Qed.

(** C10.  The batch analyzer emits at most one [list-after-html] finding:
    at the first line at or after the markup boundary that is not blank,
    does not start with [<!--] once trimmed, and has the shape of a block
    header, a shorthand, a dollar shorthand or a function header; lines
    after that one add nothing; without such a line there is no such
    finding. *)
Theorem list_after_html_first_header_only :
  (forall t, isListHeaderLine t = true <->
     t <> [] /\ (is_Some (LIST_BLOCK_HEADER_REGEX t) \/ is_Some (LIST_SHORTHAND_REGEX t)
                 \/ is_Some (DOLLAR_SHORTHAND_REGEX t) \/ FUNCTION_HEADER_REGEX t = true))
  /\ forall lines : list str,
       let htmlStart := findHtmlStart lines in
       let found := filter (fun w => w_code w = "list-after-html"%string)
                           (analyzePerchance_lines lines) in
       (exists i line, htmlStart <= i /\ lines !! i = Some line /\ strayHeader line
          /\ (forall j l, htmlStart <= j < i -> lines !! j = Some l -> ~ strayHeader l)
          /\ found = [{| w_line := i + 1; w_code := "list-after-html";
                         w_message := js "List header appears after HTML start" |}])
       \/ ((forall j l, htmlStart <= j -> lines !! j = Some l -> ~ strayHeader l)
           /\ found = []).
Proof.
  split; [apply isListHeaderLine_shapes|]. intros lines. cbv zeta.
  unfold analyzePerchance_lines.
  rewrite filter_app, first_loop_no_list_after_html, app_nil_l.
  rewrite filter_all by apply listAfterHtml_loop_codes.
  destruct (listAfterHtml_loop_spec (drop (findHtmlStart lines) lines) (findHtmlStart lines))
    as [(j & line & Hj & Hs & Hfirst & Heq)|[Hnone Heq]].
  - left. exists (findHtmlStart lines + j), line. rewrite lookup_drop in Hj.
    split; [lia|]. split; [done|]. split; [done|]. split; [|done].
    intros j' l Hrange Hl. apply (Hfirst (j' - findHtmlStart lines)); [lia|].
    rewrite lookup_drop. by replace (findHtmlStart lines + (j' - findHtmlStart lines)) with j' by lia.
  - right. split; [|done]. intros j l Hge Hl.
    apply (Hnone (j - findHtmlStart lines)). rewrite lookup_drop.
    by replace (findHtmlStart lines + (j - findHtmlStart lines)) with j by lia.
Qed.

(** ** The duplicate rule *)

Section NameIndex.

(** The name that a line declares at the top level, if any. *)
Variable nameOf : str -> option str.

(** Line [i] is the first of [lines] to declare [name]. *)
Definition firstDeclared (lines : list str) (name : str) (i : nat) : Prop :=
  (exists line, lines !! i = Some line /\ nameOf line = Some name)
  /\ forall j line, j < i -> lines !! j = Some line -> nameOf line <> Some name.

(** Some line of [lines] declares [name]. *)
Definition declaredIn (lines : list str) (name : str) : Prop :=
  Exists (fun line => nameOf line = Some name) lines.

(** The duplicate declarations of [lines], in order: the lines that
    declare a name which an earlier line declares, with that name. *)
Definition duplicateDeclarations (lines : list str) : list (nat * str) :=
  perLine (fun pre i line =>
             match nameOf line with
             | Some name => if decide (declaredIn pre name) then [(i, name)] else []
             | None => []
             end) [] lines.

(** What the name index holds once the lines [pre] are processed. *)
Definition indexOfFirsts (pre : list str) (index : gmap (list N) nat) : Prop :=
  forall name i, index !! name = Some i <-> firstDeclared pre name i.

Lemma indexOfFirsts_declared pre index name :
  indexOfFirsts pre index -> is_Some (index !! name) <-> declaredIn pre name.
Proof.
  intros Hinv. unfold declaredIn. rewrite Exists_exists. split.
  - intros [i Hi]. apply Hinv in Hi as [(line & Hl & Hn) _].
    exists line. split; [by eapply list_elem_of_lookup_2|done].
  - intros (line & Hin & Hn). apply list_elem_of_lookup in Hin as [k Hk].
    (* the least index that declares the name *)
    assert (exists i, firstDeclared pre name i) as [i Hi]; [|exists i; by apply Hinv].
    clear Hinv. revert line Hk Hn. induction k as [k IH] using lt_wf_ind. intros line Hk Hn.
    destruct (decide (Exists (fun j => from_option nameOf None (pre !! j) = Some name)
                             (seq 0 k))) as [He|He].
    + apply Exists_exists in He as (j & Hj & Hnl).
      apply elem_of_seq in Hj. destruct (pre !! j) as [l|] eqn:Hl; [|done].
      apply (IH j ltac:(lia) l Hl Hnl).
    + exists k. split; [by exists line|]. intros j l Hj Hl Hnl. apply He.
      apply Exists_exists. exists j. split; [apply elem_of_seq; lia|]. by rewrite Hl.
Qed.

Lemma indexOfFirsts_empty : indexOfFirsts [] ∅.
Proof.
  intros name i. rewrite lookup_empty. split; [done|].
  intros [(line & Hl & _) _]. by rewrite lookup_nil in Hl.
Qed.

Lemma firstDeclared_snoc pre line name i :
  firstDeclared (pre ++ [line]) name i <->
  firstDeclared pre name i
  \/ (i = length pre /\ nameOf line = Some name /\ ~ declaredIn pre name).
Proof.
  unfold firstDeclared, declaredIn. rewrite Exists_exists. split.
  - intros [(l & Hl & Hn) Hfirst]. apply lookup_snoc_Some in Hl as [[Hlt Hl]|[-> ->]].
    + left. split; [by exists l|]. intros j l' Hj Hl'. apply (Hfirst j); [done|].
      by apply lookup_app_l_Some.
    + right. split; [done|]. split; [done|]. intros (l' & Hin & Hn').
      apply list_elem_of_lookup in Hin as [j Hj].
      apply (Hfirst j l'); [by eapply lookup_lt_Some|by apply lookup_app_l_Some|done].
  - intros [[(l & Hl & Hn) Hfirst]|(-> & Hn & Hnot)].
    + split; [exists l; split; [by apply lookup_app_l_Some|done]|].
      intros j l' Hj Hl'. apply lookup_snoc_Some in Hl' as [[_ Hl']|[-> _]].
      * by apply (Hfirst j).
      * apply lookup_lt_Some in Hl. lia.
    + split.
      * exists line. split; [|done]. apply lookup_snoc_Some. by right.
      * intros j l' Hj Hl' Hn'. apply lookup_snoc_Some in Hl' as [[_ Hl']|[-> _]]; [|lia].
        apply Hnot. exists l'. split; [by eapply list_elem_of_lookup_2|done].
Qed.

Lemma firstDeclared_declared pre name i : firstDeclared pre name i -> declaredIn pre name.
Proof.
  intros [(l & Hl & Hn) _]. apply Exists_exists. exists l.
  split; [by eapply list_elem_of_lookup_2|done].
Qed.

Lemma indexOfFirsts_step pre line index :
  indexOfFirsts pre index ->
  indexOfFirsts (pre ++ [line]) (recordName (nameOf line) (length pre) index).
Proof.
  intros Hinv name i. rewrite firstDeclared_snoc. unfold recordName.
  pose proof (Hinv name i) as Hni.
  destruct (nameOf line) as [n|] eqn:En.
  - destruct (bool_decide (is_Some (index !! n))) eqn:Ehas.
    + apply bool_decide_eq_true in Ehas. apply (indexOfFirsts_declared pre) in Ehas; [|done].
      rewrite Hni. split; [by left|]. intros [H|(_ & [= ->] & Hnot)]; done.
    + apply bool_decide_eq_false in Ehas.
      rewrite (indexOfFirsts_declared pre) in Ehas by done.
      destruct (decide (n = name)) as [->|Hne].
      * rewrite lookup_insert_eq. split.
        -- intros [= <-]. by right.
        -- intros [H|(-> & _)]; [|done]. by apply firstDeclared_declared in H.
      * rewrite lookup_insert_ne by done. rewrite Hni. split; [by left|].
        intros [H|(_ & [= ->] & _)]; done.
  - rewrite Hni. split; [by left|]. intros [H|(_ & ? & _)]; done.
Qed.

Lemma duplicateDeclarations_elem (lines : list str) i name :
  (i, name) ∈ duplicateDeclarations lines <->
  (exists line, lines !! i = Some line /\ nameOf line = Some name)
  /\ exists j earlier, j < i /\ lines !! j = Some earlier /\ nameOf earlier = Some name.
Proof.
  unfold duplicateDeclarations. rewrite perLine_elem. simpl. split.
  - intros (j & line & Hj & Hin). destruct (nameOf line) as [n|] eqn:En;
      [|by apply elem_of_nil in Hin].
    destruct (decide (declaredIn (take j lines) n)) as [Hd|Hd]; [|by apply elem_of_nil in Hin].
    apply list_elem_of_singleton in Hin as [= -> ->].
    split; [by exists line|]. apply Exists_exists in Hd as (l & Hl & Hn).
    apply list_elem_of_lookup in Hl as [k Hk]. apply lookup_take_Some in Hk as [Hk Hlt].
    by exists k, l.
  - intros [(line & Hl & Hn) (j & earlier & Hj & He & Hne)].
    exists i, line. split; [done|]. rewrite Hn.
    rewrite decide_True; [by apply list_elem_of_singleton|].
    apply Exists_exists. exists earlier. split; [|done].
    apply list_elem_of_lookup. exists j. by apply lookup_take_Some.
Qed.

End NameIndex.

Lemma perLine_fmap {B C} (f : B -> C) (g : list str -> nat -> str -> list B) pre rest :
  perLine (fun pre i line => f <$> g pre i line) pre rest = f <$> perLine g pre rest.
Proof.
  revert pre. induction rest as [|l rest IH]; intros pre; simpl; [done|].
  by rewrite fmap_app, IH.
Qed.

(** The batch finding and the diagnostic for a duplicate declaration of
    [m.2] at line [m.1]. *)
Definition duplicateWarning (m : nat * str) : Warning :=
  {| w_line := m.1 + 1; w_code := "duplicate-list";
     w_message := js "Duplicate top-level list name: " ++ m.2 |}.

Definition duplicateDiagnostic (m : nat * str) : Diagnostic :=
  createDiagnostic m.1 0 (length m.2) (js "Duplicate top-level list name.")
    "perchance.duplicateListName" None.

Lemma batch_duplicates (lines : list str) :
  filter (fun w => w_code w = "duplicate-list"%string) (analyzePerchance_lines lines)
  = duplicateWarning <$> duplicateDeclarations batchName (take (findHtmlStart lines) lines)
  /\ indexOfFirsts batchName (take (findHtmlStart lines) lines)
       (b_listNameIndex (analyzePerchance_scan lines)).
Proof.
  unfold analyzePerchance_lines. rewrite filter_app.
  rewrite (filter_none _ (listAfterHtml_loop _ _))
    by (eapply Forall_code_other; [|apply listAfterHtml_loop_codes]; done).
  rewrite app_nil_r. unfold duplicateDeclarations. rewrite <- perLine_fmap.
  apply (analyzePerchance_scan_perLine lines
           (filter (fun w => w_code w = "duplicate-list"%string)) _
           (fun pre st => indexOfFirsts batchName pre (b_listNameIndex st)));
    [apply filter_app|done| |apply indexOfFirsts_empty].
  intros pre line st Hinv. split.
  - unfold batch_emit. rewrite !filter_app.
    rewrite (filter_all _ (batchDuplicate _ _ _)) by apply batchDuplicate_codes.
    rewrite (filter_none _ (batchSingleEquals _ _))
      by (eapply Forall_code_other; [|apply batchSingleEquals_codes]; done).
    rewrite (filter_none _ (if decide (mixedIndent line) then _ else _))
      by (destruct (decide (mixedIndent line)); repeat constructor; done).
    rewrite (filter_none _ (if decide (oddIndent line) then _ else _))
      by (destruct (decide (oddIndent line)); repeat constructor; done).
    rewrite !app_nil_r. unfold batchDuplicate.
    destruct (batchName line) as [n|]; [|done].
    pose proof (indexOfFirsts_declared batchName pre _ n Hinv) as Hd.
    destruct (bool_decide (is_Some (b_listNameIndex st !! n))) eqn:Ehas.
    + apply bool_decide_eq_true in Ehas. rewrite decide_True by (by apply Hd). done.
    + apply bool_decide_eq_false in Ehas. rewrite decide_False by (by rewrite <- Hd). done.
  - rewrite analyzePerchance_body_eq. cbn [b_listNameIndex]. by apply indexOfFirsts_step.
Qed.

Lemma editor_duplicates (lines : list str) ind eq :
  let config := {| checkDuplicates := true; checkIndentation := ind;
                   checkIfElseEquals := eq |} in
  filter (fun d => d_code d = Some "perchance.duplicateListName"%string)
         (analyzeDocument lines config)
  = duplicateDiagnostic <$> duplicateDeclarations editorName (take (findHtmlStart lines) lines)
  /\ indexOfFirsts editorName (take (findHtmlStart lines) lines)
       (e_listNameIndex (analyzeDocument_scan lines config)).
Proof.
  intros config. unfold duplicateDeclarations. rewrite <- perLine_fmap.
  destruct (analyzeDocument_scan_perLine lines config
              (filter (fun d => d_code d = Some "perchance.duplicateListName"%string))
              (fun pre i line =>
                 duplicateDiagnostic <$>
                 match editorName line with
                 | Some name => if decide (declaredIn editorName pre name)
                                then [(i, name)] else []
                 | None => []
                 end)
              (fun pre st => indexOfFirsts editorName pre (e_listNameIndex st)))
    as [H1 H2]; [done|apply filter_app| |apply indexOfFirsts_empty|].
  - intros pre line st Hinv. split.
    + unfold editor_emit, config. cbn [checkDuplicates checkIndentation checkIfElseEquals].
      rewrite !filter_app.
      rewrite (filter_all _ (editorDuplicate _ _ _)) by apply editorDuplicate_codes.
      rewrite (filter_none _ (if decide (eq = true /\ _) then _ else _)).
      2:{ destruct (decide (eq = true /\ _)); [|constructor].
          eapply Forall_ocode_other; [|apply editorSingleEquals_codes]. done. }
      rewrite (filter_none _ (if decide (_ /\ mixedIndent line) then _ else _))
        by (destruct (decide (_ /\ mixedIndent line)); repeat constructor; done).
      rewrite (filter_none _ (if decide (_ /\ oddIndent line) then _ else _))
        by (destruct (decide (_ /\ oddIndent line)); repeat constructor; done).
      rewrite !app_nil_r. unfold editorDuplicate.
      destruct (editorName line) as [n|]; [|done].
      pose proof (indexOfFirsts_declared editorName pre _ n Hinv) as Hd.
      destruct (bool_decide (is_Some (e_listNameIndex st !! n))) eqn:Ehas.
      * apply bool_decide_eq_true in Ehas. rewrite decide_True by (by apply Hd). done.
      * apply bool_decide_eq_false in Ehas. rewrite decide_False by (by rewrite <- Hd). done.
    + rewrite analyzeDocument_body_eq. cbn [e_listNameIndex checkDuplicates config].
      by apply indexOfFirsts_step.
  - split; [|done]. rewrite H1. rewrite filter_none; [done|].
    eapply Forall_ocode_other; [|apply unknownReference_codes]. done.
Qed.

Lemma parseListName_nonempty t name : parseListName t = Some name -> 0 < length name.
Proof.
  unfold parseListName.
  destruct (if startsWith t (js "async ") then _ else _) as [|c r]; [done|].
  destruct (isWordChar c || (c =? ch "$")%N); [|done]. intros [= <-]. simpl. lia.
Qed.

(** The sample document of the duplicate rule: [foo] at lines 0 and 5 and
    no other top-level line. *)
Definition twiceFoo : list str :=
  [js "foo"; js "  a"; js "  b"; js ""; js "  c"; js "foo"].

(** C6, as stated, fails in its last clause: on the sample document the
    definitions map of [collectListDefinitions] holds line 5 for [foo],
    not line 0. *)
Lemma twiceFoo_definitions_hold_last_line :
  collectListDefinitions twiceFoo !! js "foo" = Some {| pos_line := 5; pos_character := 0 |}
  /\ collectListDefinitions twiceFoo !! js "foo"
     <> Some {| pos_line := 0; pos_character := 0 |}.
Proof. split; [vm_compute; reflexivity|vm_compute; discriminate]. Qed.

(** C6, amended.  Before the markup boundary, the duplicate rule flags
    exactly the looked-at, unindented lines whose name an earlier such line
    declared, one finding for each, and records every name at its first
    line, which it never flags.  The diagnostic of the engine spans the
    name from column 0; the finding of the batch script carries the name in
    its message and the line number counted from 1.  On a document whose
    top-level lines are [foo] at line 0 and [foo] at line 5, each analyzer
    gives one finding, at line 5, and the name index of the rule maps [foo]
    to line 0, while the map of [collectListDefinitions] holds line 5. *)
Theorem duplicate_rule_flags_later_declarations :
  (forall (lines : list str) (ind eq : bool),
     let config := {| checkDuplicates := true; checkIndentation := ind;
                      checkIfElseEquals := eq |} in
     let region := take (findHtmlStart lines) lines in
     filter (fun w => w_code w = "duplicate-list"%string) (analyzePerchance_lines lines)
       = duplicateWarning <$> duplicateDeclarations batchName region
     /\ (forall name i, b_listNameIndex (analyzePerchance_scan lines) !! name = Some i
                        <-> firstDeclared batchName region name i)
     /\ filter (fun d => d_code d = Some "perchance.duplicateListName"%string)
               (analyzeDocument lines config)
       = duplicateDiagnostic <$> duplicateDeclarations editorName region
     /\ (forall name i, e_listNameIndex (analyzeDocument_scan lines config) !! name = Some i
                        <-> firstDeclared editorName region name i))
  /\ (forall nameOf (lines : list str) i name,
        (i, name) ∈ duplicateDeclarations nameOf lines <->
        (exists line, lines !! i = Some line /\ nameOf line = Some name)
        /\ exists j earlier, j < i /\ lines !! j = Some earlier
                             /\ nameOf earlier = Some name)
  /\ (forall (lines : list str) i name,
        (i, name) ∈ duplicateDeclarations editorName lines ->
        d_range (duplicateDiagnostic (i, name))
        = {| range_start := {| pos_line := i; pos_character := 0 |};
             range_end := {| pos_line := i; pos_character := length name |} |})
  /\ (analyzePerchance_lines twiceFoo
        = [{| w_line := 6; w_code := "duplicate-list";
              w_message := js "Duplicate top-level list name: foo" |}]
      /\ b_listNameIndex (analyzePerchance_scan twiceFoo) = {[ js "foo" := 0 ]}
      /\ analyzeDocument twiceFoo defaultConfig
        = [createDiagnostic 5 0 3 (js "Duplicate top-level list name.")
             "perchance.duplicateListName" None]
      /\ e_listNameIndex (analyzeDocument_scan twiceFoo defaultConfig) = {[ js "foo" := 0 ]}
      /\ collectListDefinitions twiceFoo !! js "foo"
         = Some {| pos_line := 5; pos_character := 0 |}).
Proof.
  split; [|split; [|split]].
  - intros lines ind eq. cbv zeta.
    destruct (batch_duplicates lines) as [Hb1 Hb2].
    destruct (editor_duplicates lines ind eq) as [He1 He2].
    split; [done|]. split; [apply Hb2|]. split; [done|apply He2].
  - apply duplicateDeclarations_elem.
  - intros lines i name Hin. apply duplicateDeclarations_elem in Hin as [(line & _ & Hn) _].
    unfold editorName in Hn. destruct (decide _); [|done].
    apply parseListName_nonempty in Hn.
    unfold duplicateDiagnostic, createDiagnostic. cbn [d_range fst snd]. do 3 f_equal. lia.
  - repeat split; vm_compute; reflexivity.
Qed.

(** ** The definitions map *)

Lemma forLines_invariant {St} (body : nat -> str -> St -> St)
    (Inv : list str -> St -> Prop) :
  (forall pre line st, Inv pre st -> Inv (pre ++ [line]) (body (length pre) line st)) ->
  forall rest pre st, Inv pre st -> Inv (pre ++ rest) (forLines body rest (length pre) st).
Proof.
  intros Hstep. induction rest as [|line rest IH]; intros pre st HI; simpl.
  - by rewrite app_nil_r.
  - specialize (IH (pre ++ [line]) _ (Hstep pre line st HI)).
    rewrite length_app, <- app_assoc in IH. simpl in IH.
    by replace (length pre + 1) with (S (length pre)) in IH by lia.
Qed.

Section LastDeclaration.

(** The name that a line adds to the definitions, if any. *)
Variable nameOf : str -> option str.

(** Line [i] is the last of [lines] to declare [name]. *)
Definition lastDeclared (lines : list str) (name : str) (i : nat) : Prop :=
  (exists line, lines !! i = Some line /\ nameOf line = Some name)
  /\ forall j line, i < j -> lines !! j = Some line -> nameOf line <> Some name.

(** [definitions.set(name, line.range.start)] for the name of the line. *)
Definition setDefinition (lineIndex : nat) (line : str)
    (definitions : gmap (list N) Position) : gmap (list N) Position :=
  match nameOf line with
  | Some name => <[name := {| pos_line := lineIndex; pos_character := 0 |}]> definitions
  | None => definitions
  end.

Definition mapOfLasts (pre : list str) (definitions : gmap (list N) Position) : Prop :=
  forall name pos, definitions !! name = Some pos <->
    pos_character pos = 0 /\ lastDeclared pre name (pos_line pos).

Lemma lastDeclared_snoc pre line name i :
  lastDeclared (pre ++ [line]) name i <->
  (i = length pre /\ nameOf line = Some name)
  \/ (lastDeclared pre name i /\ nameOf line <> Some name).
Proof.
  unfold lastDeclared. split.
  - intros [(l & Hl & Hn) Hlast]. apply lookup_snoc_Some in Hl as [[Hlt Hl]|[-> ->]].
    + right. split.
      * split; [by exists l|]. intros j l' Hj Hl'. apply (Hlast j); [done|].
        by apply lookup_app_l_Some.
      * apply (Hlast (length pre)); [done|]. apply lookup_snoc_Some. by right.
    + by left.
  - intros [[-> Hn]|[[(l & Hl & Hn) Hlast] Hne]].
    + split.
      * exists line. split; [|done]. apply lookup_snoc_Some. by right.
      * intros j l Hj Hl. apply lookup_lt_Some in Hl. rewrite length_app in Hl.
        simpl in Hl. lia.
    + split; [exists l; split; [by apply lookup_app_l_Some|done]|].
      intros j l' Hj Hl'. apply lookup_snoc_Some in Hl' as [[_ Hl']|[_ <-]]; [|done].
      by apply (Hlast j).
Qed.

Lemma mapOfLasts_step pre line definitions :
  mapOfLasts pre definitions ->
  mapOfLasts (pre ++ [line]) (setDefinition (length pre) line definitions).
Proof.
  intros Hinv name pos. rewrite lastDeclared_snoc. unfold setDefinition.
  pose proof (Hinv name pos) as Hnp.
  destruct (nameOf line) as [n|] eqn:En.
  - destruct (decide (n = name)) as [->|Hne].
    + rewrite lookup_insert_eq. split.
      * intros [= <-]. simpl. split; [done|]. by left.
      * intros [Hc [[Hl _]|[_ Hn]]]; [|done]. destruct pos; simpl in *. congruence.
    + rewrite lookup_insert_ne by done. rewrite Hnp. split.
      * intros [Hc Hl]. split; [done|]. right. split; [done|]. congruence.
      * intros [Hc [[_ [= ->]]|[Hl _]]]; done.
  - rewrite Hnp. split.
    + intros [Hc Hl]. split; [done|]. by right.
    + intros [Hc [[_ ?]|[Hl _]]]; done.
Qed.

Lemma mapOfLasts_empty : mapOfLasts [] ∅.
Proof.
  intros name pos. rewrite lookup_empty. split; [done|].
  intros [_ [(line & Hl & _) _]]. by rewrite lookup_nil in Hl.
Qed.

Lemma forLines_setDefinition (lines : list str) :
  mapOfLasts lines (forLines setDefinition lines 0 ∅).
Proof.
  apply (forLines_invariant setDefinition mapOfLasts mapOfLasts_step lines [] ∅).
  apply mapOfLasts_empty.
Qed.

End LastDeclaration.

(** A line without leading white space. *)
Definition unindented (line : str) : Prop :=
  match line with
  | c :: _ => isWhiteSpace c = false
  | [] => True
  end.

#[local] Instance unindented_dec line : Decision (unindented line).
Proof. unfold unindented. destruct line; apply _. Defined.

(** The name that a line adds to the definitions in the current
    [extension.js]: the line is neither blank, nor a [//] comment, nor
    starting with [<]; unindented, it gives the name that [parseListName]
    finds; indented, the name of a block header or of a shorthand; a name
    starting with [$] is left out. *)
Definition definedName (line : str) : option str :=
  let t := trim line in
  if decide (t = [] \/ startsWith t (js "//") = true \/ startsWith t (js "<") = true)
  then None
  else if decide (unindented line) then
    match parseListName t with
    | Some name => if startsWith name (js "$") then None else Some name
    | None => None
    end
  else
    match LIST_BLOCK_HEADER_REGEX t with
    | Some name => if startsWith name (js "$") then None else Some name
    | None => LIST_SHORTHAND_REGEX t
    end.

Lemma collectListDefinitions_body_eq i line definitions :
  collectListDefinitions_body i line definitions = setDefinition definedName i line definitions.
Proof.
  unfold collectListDefinitions_body, setDefinition, definedName. cbv zeta.
  destruct (eqs (trim line) [] || startsWith (trim line) (js "//")
            || startsWith (trim line) (js "<")) eqn:Eskip.
  - rewrite decide_True; [done|].
    rewrite !orb_true_iff, eqs_true in Eskip. tauto.
  - rewrite decide_False.
    2:{ rewrite !orb_false_iff, eqs_false in Eskip. intros [?|[?|?]]; intuition congruence. }
    destruct line as [|c line'] eqn:El.
    + rewrite decide_True by done. cbn [negb].
      destruct (parseListName (trim [])) as [n|]; [|done]. by destruct (startsWith n (js "$")).
    + destruct (isWhiteSpace c) eqn:Ec; cbn [negb].
      * rewrite decide_False by (unfold unindented; congruence).
        destruct (LIST_BLOCK_HEADER_REGEX (trim (c :: line'))) as [n|].
        -- by destruct (startsWith n (js "$")).
        -- by destruct (LIST_SHORTHAND_REGEX (trim (c :: line'))).
      * rewrite decide_True by done.
        destruct (parseListName (trim (c :: line'))) as [n|]; [|done].
        by destruct (startsWith n (js "$")).
Qed.

Lemma forLines_ext {St} (b1 b2 : nat -> str -> St -> St) :
  (forall i line st, b1 i line st = b2 i line st) ->
  forall lines k st, forLines b1 lines k st = forLines b2 lines k st.
Proof.
  intros Hext. induction lines as [|line lines IH]; intros k st; simpl; [done|].
  by rewrite Hext, IH.
Qed.

Lemma identStart_not_dollar c : identStart c = true -> (c =? ch "$")%N = false.
Proof.
  intros H. destruct (N.eqb_spec c (ch "$")) as [->|]; [|done].
  vm_compute in H. done.
Qed.

Lemma matchIdent_not_dollar tail s name rest :
  matchIdent tail s = Some (name, rest) -> startsWith name (js "$") = false.
Proof.
  unfold matchIdent. destruct s as [|c r]; [done|].
  destruct (identStart c) eqn:Ec; [|done]. intros [= <- _].
  unjs. cbn [startsWith]. rewrite N.eqb_sym. by rewrite (identStart_not_dollar c Ec).
Qed.

Lemma shorthand_not_dollar tail t name :
  shorthandWith tail t = Some name -> startsWith name (js "$") = false.
Proof.
  unfold shorthandWith. destruct (matchIdent tail t) as [[n rest]|] eqn:Em; [|done].
  destruct (startsWith _ _); [|done]. intros [= <-]. by eapply matchIdent_not_dollar.
Qed.

Lemma definedName_facts line name :
  definedName line = Some name ->
  startsWith name (js "$") = false
  /\ codeLine line /\ startsWith (trim line) (js "<") = false
  /\ (unindented line -> parseListName (trim line) = Some name)
  /\ (~ unindented line ->
        LIST_BLOCK_HEADER_REGEX (trim line) = Some name
        \/ LIST_SHORTHAND_REGEX (trim line) = Some name).
Proof.
  unfold definedName, codeLine. cbv zeta.
  destruct (decide (_ \/ _ \/ _)) as [|Hskip]; [done|].
  assert (trim line <> [] /\ startsWith (trim line) (js "//") = false
          /\ startsWith (trim line) (js "<") = false) as (H1 & H2 & H3).
  { destruct (startsWith (trim line) (js "//")), (startsWith (trim line) (js "<"));
      repeat split; try done; try (exfalso; apply Hskip; tauto).
    all: intros He; apply Hskip; tauto. }
  destruct (decide (unindented line)) as [Hu|Hu].
  - destruct (parseListName (trim line)) as [n|]; [|done].
    destruct (startsWith n (js "$")) eqn:Ed; [done|]. intros [= <-]. tauto.
  - destruct (LIST_BLOCK_HEADER_REGEX (trim line)) as [n|] eqn:Eb.
    + destruct (startsWith n (js "$")) eqn:Ed; [done|]. intros [= <-]. tauto.
    + intros Hs. pose proof (shorthand_not_dollar _ _ _ Hs). tauto.
Qed.

Lemma collectListDefinitions_spec (document : list str) name pos :
  collectListDefinitions document !! name = Some pos <->
  pos_character pos = 0
  /\ lastDeclared definedName (take (findHtmlStart document) document) name (pos_line pos).
Proof.
  unfold collectListDefinitions. cbv zeta.
  rewrite (forLines_ext _ _ collectListDefinitions_body_eq).
  assert (take (length document `min` findHtmlStart document) document
          = take (findHtmlStart document) document) as ->.
  { destruct (decide (findHtmlStart document <= length document)).
    - f_equal. lia.
    - rewrite !take_ge by lia. done. }
  apply forLines_setDefinition.
Qed.

(** The claim as the specification states it: every name of the map is
    free of [$] and stands for the first unindented line, before the markup
    boundary, that declares it. *)
Definition topLevelName (line : str) : option str :=
  if decide (unindented line) then definedName line else None.

Definition definitionsAsSpecified (document : list str) : Prop :=
  forall name pos, collectListDefinitions document !! name = Some pos ->
    startsWith name (js "$") = false
    /\ pos_line pos < findHtmlStart document
    /\ firstDeclared topLevelName document name (pos_line pos).

(** C2, as stated, fails: a second declaration overwrites the first, and
    an indented header enters the map. *)
Lemma collectListDefinitions_not_first_top_level :
  ~ definitionsAsSpecified [js "foo"; js "foo"]
  /\ ~ definitionsAsSpecified [js "foo"; js "  bar"].
Proof.
  split; intros H.
  - destruct (H (js "foo") {| pos_line := 1; pos_character := 0 |}) as (_ & _ & [_ Hfirst]).
    { vm_compute. reflexivity. }
    apply (Hfirst 0 (js "foo")); [simpl; lia|reflexivity|vm_compute; reflexivity].
  - destruct (H (js "bar") {| pos_line := 1; pos_character := 0 |})
      as (_ & _ & [(line & Hl & Hn) _]).
    { vm_compute. reflexivity. }
    simpl in Hl. injection Hl as <-. vm_compute in Hn. discriminate.
Qed.

(** C2, amended.  A name is in the map of [collectListDefinitions] exactly
    when some line before the markup boundary declares it, and the map
    holds the start of the last such line.  The declaring line is neither
    blank, nor a comment, nor starting with [<]; the name does not start
    with [$]; an unindented line declares the name that [parseListName]
    finds in it, an indented line the name of a block header or of a
    shorthand. *)
Theorem collectListDefinitions_last_declaration :
  (forall (document : list str) name pos,
     collectListDefinitions document !! name = Some pos <->
     pos_character pos = 0
     /\ lastDeclared definedName (take (findHtmlStart document) document) name (pos_line pos))
  /\ (forall (document : list str) name pos,
        collectListDefinitions document !! name = Some pos ->
        pos_line pos < findHtmlStart document
        /\ exists line, document !! pos_line pos = Some line /\ definedName line = Some name)
  /\ (forall line name,
        definedName line = Some name ->
        startsWith name (js "$") = false
        /\ codeLine line /\ startsWith (trim line) (js "<") = false
        /\ (unindented line -> parseListName (trim line) = Some name)
        /\ (~ unindented line ->
              LIST_BLOCK_HEADER_REGEX (trim line) = Some name
              \/ LIST_SHORTHAND_REGEX (trim line) = Some name)).
Proof.
  split; [apply collectListDefinitions_spec|]. split; [|apply definedName_facts].
  intros document name pos H. apply collectListDefinitions_spec in H as [_ [(line & Hl & Hn) _]].
  apply lookup_take_Some in Hl as [Hl Hlt]. split; [done|]. by exists line.
Qed.

(** The earlier [src/extension.js] collects over the whole document,
    whatever the indentation, and also keeps the last declaration. *)
Definition legacyDefinedName (line : str) : option str :=
  let t := trim line in
  if decide (t = [] \/ startsWith t (js "//") = true \/ startsWith t (js "<") = true)
  then None
  else
    match Legacy.LIST_BLOCK_HEADER_REGEX t with
    | Some name => if startsWith name (js "$") then None else Some name
    | None => Legacy.LIST_SHORTHAND_REGEX t
    end.

Lemma legacy_collectListDefinitions_last_declaration (document : list str) name pos :
  Legacy.collectListDefinitions document !! name = Some pos <->
  pos_character pos = 0 /\ lastDeclared legacyDefinedName document name (pos_line pos).
Proof.
  unfold Legacy.collectListDefinitions.
  rewrite (forLines_ext _ (setDefinition legacyDefinedName)); [apply forLines_setDefinition|].
  intros i line definitions.
  unfold Legacy.collectListDefinitions_body, setDefinition, legacyDefinedName. cbv zeta.
  destruct (eqs (trim line) [] || startsWith (trim line) (js "//")
            || startsWith (trim line) (js "<")) eqn:Eskip.
  - rewrite decide_True; [done|].
    rewrite !orb_true_iff, eqs_true in Eskip. tauto.
  - rewrite decide_False.
    2:{ rewrite !orb_false_iff, eqs_false in Eskip. intros [?|[?|?]]; intuition congruence. }
    destruct (Legacy.LIST_BLOCK_HEADER_REGEX (trim line)) as [n|].
    + by destruct (startsWith n (js "$")).
    + by destruct (Legacy.LIST_SHORTHAND_REGEX (trim line)).
Qed.

(** ** Function headers and the suppression of the single-equals rule *)

(** [s] ends in [=>] and white space, and [c] is the character just
    before that [=>]. *)
Definition endsInArrowAfter (c : N) (s : str) : Prop :=
  exists pre post, s = pre ++ c :: ch "=" :: ch ">" :: post
                   /\ Forall (fun x => isWhiteSpace x = true) post.

Lemma whiteSpace_not_word c : isWhiteSpace c = true -> isWordChar c = false.
Proof.
  unfold isWhiteSpace, isWordChar, isLetter, isDigit, inRange, ch. intros H.
  repeat (apply orb_true_iff in H as [H|H]);
    repeat match goal with
           | H : (_ && _) = true |- _ => apply andb_true_iff in H as [? ?]
           | H : (_ <=? _)%N = true |- _ => apply N.leb_le in H
           | H : (_ =? _)%N = true |- _ => apply N.eqb_eq in H
           end;
    simpl in *;
    repeat (apply orb_false_iff; split);
    try (apply andb_false_iff; rewrite !N.leb_gt; lia);
    apply N.eqb_neq; lia.
Qed.

Lemma dropWhile_ws_nil s :
  eqs (dropWhile isWhiteSpace s) [] = true -> Forall (fun x => isWhiteSpace x = true) s.
Proof. intros H. apply eqs_true in H. by apply dropWhile_nil_all. Qed.

(** The two ways a text can end in an arrow agree on where the arrow is. *)
Lemma arrow_position_unique pre1 c1 post1 pre2 c2 post2 :
  pre1 ++ c1 :: ch "=" :: ch ">" :: post1 = pre2 ++ c2 :: ch "=" :: ch ">" :: post2 ->
  Forall (fun x => isWhiteSpace x = true) post1 ->
  Forall (fun x => isWhiteSpace x = true) post2 ->
  c1 = c2.
Proof.
  intros Heq H1 H2.
  assert (forall (a b : str) x y p q,
            a ++ x :: ch "=" :: ch ">" :: p = b ++ y :: ch "=" :: ch ">" :: q ->
            Forall (fun z => isWhiteSpace z = true) p ->
            length a < length b -> False) as Hlt.
  { intros a b x y p q E Hp Hab.
    assert ((a ++ x :: ch "=" :: ch ">" :: p) !! (length b + 1) = Some (ch "=")) as Hb.
    { rewrite E, lookup_app_r by lia. by replace (length b + 1 - length b) with 1 by lia. }
    rewrite lookup_app_r in Hb by lia.
    destruct (length b + 1 - length a) as [|[|[|k]]] eqn:Ek; [lia|lia|done|].
    simpl in Hb. apply list_elem_of_lookup_2 in Hb.
    rewrite Forall_forall in Hp. apply Hp in Hb. done. }
  destruct (Nat.lt_trichotomy (length pre1) (length pre2)) as [Hl|[Hl|Hl]].
  - exfalso. eapply Hlt; [exact Heq|done|done].
  - apply app_inj_1 in Heq as [_ Heq]; [|done]. by injection Heq.
  - exfalso. eapply Hlt; [symmetry; exact Heq|done|done].
Qed.

Lemma arrowAtEnd_shape prev s :
  arrowAtEnd prev s = true ->
  (exists c, endsInArrowAfter c s /\ isWordChar c = true)
  \/ (exists p post, prev = Some p /\ isWordChar p = true
                     /\ s = ch "=" :: ch ">" :: post
                     /\ Forall (fun x => isWhiteSpace x = true) post).
Proof.
  revert prev. induction s as [|c r IH]; intros prev; cbn [arrowAtEnd]; [done|].
  intros H. apply orb_true_iff in H as [H|H].
  - right. apply andb_true_iff in H as [H Hr]. apply andb_true_iff in H as [Hp Hc].
    apply N.eqb_eq in Hc as ->. destruct prev as [p|]; [|done].
    destruct r as [|g fin]; [done|]. apply andb_true_iff in Hr as [Hg Hfin].
    apply N.eqb_eq in Hg as ->. exists p, fin. repeat split; [done|].
    by apply dropWhile_ws_nil.
  - left. apply IH in H as [(d & (pre & post & -> & Hpost) & Hd)
                            |(p & post & [= <-] & Hp & -> & Hpost)].
    + exists d. split; [|done]. exists (c :: pre), post. done.
    + exists c. split; [|done]. exists [], post. done.
Qed.

Lemma functionHeaderBody_shape s :
  functionHeaderBody s = true ->
  exists c, endsInArrowAfter c s /\ (c = ch ")" \/ isWhiteSpace c = true).
Proof.
  unfold functionHeaderBody. destruct s as [|c0 r]; [done|].
  intros H. apply andb_true_iff in H as [_ H].
  pose proof (takeWhile_dropWhile nameChar r) as S1.
  remember (takeWhile nameChar r) as t1 eqn:T1.
  remember (dropWhile nameChar r) as d1 eqn:D1. clear T1 D1.
  pose proof (takeWhile_dropWhile isWhiteSpace d1) as S2.
  remember (takeWhile isWhiteSpace d1) as t2 eqn:T2. clear T2.
  destruct (dropWhile isWhiteSpace d1) as [|p args]; [done|].
  apply andb_true_iff in H as [Hp H]. apply N.eqb_eq in Hp as ->.
  pose proof (takeWhile_dropWhile (fun x => negb (x =? ch ")")%N) args) as S3.
  remember (takeWhile (fun x => negb (x =? ch ")")%N) args) as t3 eqn:T3. clear T3.
  destruct (dropWhile (fun x => negb (x =? ch ")")%N) args) as [|q after] eqn:E3; [done|].
  apply dropWhile_head in E3. apply negb_false_iff, N.eqb_eq in E3 as ->.
  pose proof (takeWhile_dropWhile isWhiteSpace after) as S4.
  pose proof (takeWhile_all isWhiteSpace after) as W4.
  remember (takeWhile isWhiteSpace after) as t4 eqn:T4. clear T4.
  destruct (dropWhile isWhiteSpace after) as [|e [|g fin]]; [done..|].
  apply andb_true_iff in H as [H Hfin]. apply andb_true_iff in H as [He Hg].
  apply N.eqb_eq in He as ->. apply N.eqb_eq in Hg as ->.
  apply dropWhile_ws_nil in Hfin.
  subst after args d1 r.
  destruct t4 as [|w ws _] using rev_ind.
  - exists (ch ")"). split; [|by left].
    exists (c0 :: t1 ++ t2 ++ ch "(" :: t3), fin. split; [|done].
    by norm_app.
  - exists w. split.
    + exists (c0 :: t1 ++ t2 ++ ch "(" :: t3 ++ ch ")" :: ws), fin. split; [|done].
      by norm_app.
    + right. apply Forall_app in W4 as [_ W4]. by apply Forall_inv in W4.
Qed.

Lemma FUNCTION_HEADER_REGEX_shape t :
  FUNCTION_HEADER_REGEX t = true ->
  exists c, endsInArrowAfter c t /\ (c = ch ")" \/ isWhiteSpace c = true).
Proof.
  unfold FUNCTION_HEADER_REGEX. intros H. apply orb_true_iff in H as [H|H].
  - apply andb_true_iff in H as [_ H].
    pose proof (take_drop 5 t) as S1.
    destruct (drop 5 t) as [|w r] eqn:E; [done|]. apply andb_true_iff in H as [_ H].
    pose proof (takeWhile_dropWhile isWhiteSpace r) as S2.
    apply functionHeaderBody_shape in H as (c & (pre & post & Hpre & Hpost) & Hc).
    exists c. split; [|done].
    exists (take 5 t ++ w :: takeWhile isWhiteSpace r ++ pre), post. split; [|done].
    rewrite <- S1 at 1. rewrite <- S2 at 1. rewrite Hpre.
    rewrite <- !app_assoc. simpl. by rewrite <- !app_assoc.
  - by apply functionHeaderBody_shape.
Qed.

(** No line that [FUNCTION_HEADER_REGEX] accepts is a function start for
    [isFunctionListStart]: its [=>] follows a [)] or white space, where the
    word boundary of [/\b=>\s*$/] asks for a word character. *)
Lemma function_header_not_function_start t :
  FUNCTION_HEADER_REGEX t = true -> isFunctionListStart t = false.
Proof.
  intros H. apply FUNCTION_HEADER_REGEX_shape in H as (c & (pre & post & Ht & Hpost) & Hc).
  unfold isFunctionListStart. destruct (eqs t []); [done|].
  destruct (arrowAtEnd None t) eqn:Ea; [|done]. exfalso.
  apply arrowAtEnd_shape in Ea as [(d & (pre' & post' & Ht' & Hpost') & Hd)|(p & ? & ? & _)];
    [|done].
  assert (d = c) as ->.
  { eapply arrow_position_unique; [|exact Hpost'|exact Hpost]. by rewrite <- Ht', <- Ht. }
  destruct Hc as [->|Hc]; [done|].
  apply whiteSpace_not_word in Hc. congruence.
Qed.

(** C7.  The engine does track a function-header level and suppresses the
    single-equals rule on deeper lines, but [isFunctionListStart] never
    recognises a line of the shape [name(...) =>]: under such a header a
    deeper line is still flagged, by the engine and by the batch script
    alike (the batch script has no exclusion at all).  The suppression is
    seen at work under a header that [isFunctionListStart] does recognise,
    such as [fn = x=>]. *)
Theorem function_header_lines_not_suppressed :
  (forall t, FUNCTION_HEADER_REGEX t = true -> isFunctionListStart t = false)
  /\ (let document := [js "f(x) =>"; ch "009" :: js "[a = 1 ? 2 : 3]"] in
      FUNCTION_HEADER_REGEX (js "f(x) =>") = true
      /\ countIndentLevel (leadingIndent (js "f(x) =>")) = 0
      /\ countIndentLevel (leadingIndent (ch "009" :: js "[a = 1 ? 2 : 3]")) = 1
      /\ findHtmlStart document = 2
      /\ analyzeDocument document defaultConfig
         = [createDiagnostic 1 1 16 (js "If/else conditions should use == instead of =.")
              "perchance.ifElseSingleEquals" (Some 1)]
      /\ analyzePerchance_lines document
         = [{| w_line := 2; w_code := "single-equals";
               w_message := js "If/else conditions should use == instead of =" |}])
  /\ (let document := [js "async f(x) =>"; js "  [a = 1 ? 2 : 3]"] in
      FUNCTION_HEADER_REGEX (js "async f(x) =>") = true
      /\ analyzeDocument document defaultConfig
         = [createDiagnostic 1 2 17 (js "If/else conditions should use == instead of =.")
              "perchance.ifElseSingleEquals" (Some 1)])
  /\ (let document := [js "fn = x=>"; ch "009" :: js "[a = 1 ? 2 : 3]";
                       js "list"; js "[b = 1 ? 2 : 3]"] in
      isFunctionListStart (js "fn = x=>") = true
      /\ analyzeDocument document defaultConfig
         = [createDiagnostic 3 0 15 (js "If/else conditions should use == instead of =.")
              "perchance.ifElseSingleEquals" (Some 3)]).
Proof.
  split; [apply function_header_not_function_start|].
  cbv zeta. repeat split; vm_compute; reflexivity.
Qed.

(** ** The quick fix *)

Lemma replaceFirstSingleEquals_loop_some text replacement i n r :
  replaceFirstSingleEquals_loop text replacement i n = Some r <->
  exists k, i <= k < i + n /\ singleEqualsAt text k = true
            /\ (forall j, i <= j < k -> singleEqualsAt text j = false)
            /\ r = take k text ++ replacement ++ drop (k + 1) text.
Proof.
  revert i. induction n as [|n IH]; intros i; simpl.
  - split; [done|]. intros (k & Hk & _). lia.
  - destruct (singleEqualsAt text i) eqn:E.
    + split.
      * intros [= <-]. exists i. split; [lia|]. split; [done|]. split; [|done].
        intros j Hj. lia.
      * intros (k & Hk & Hs & Hfirst & ->). destruct (decide (k = i)) as [->|Hne]; [done|].
        rewrite Hfirst in E by lia. done.
    + rewrite IH. split.
      * intros (k & Hk & Hs & Hfirst & ->). exists k.
        split; [lia|]. split; [done|]. split; [|done].
        intros j Hj. destruct (decide (j = i)) as [->|]; [done|]. apply Hfirst. lia.
      * intros (k & Hk & Hs & Hfirst & ->).
        assert (k <> i) by congruence.
        exists k. split; [lia|]. split; [done|]. split; [|done].
        intros j Hj. apply Hfirst. lia.
Qed.

Lemma replaceFirstSingleEquals_loop_none text replacement i n :
  replaceFirstSingleEquals_loop text replacement i n = None <->
  hasSingleEquals_loop text i n = false.
Proof.
  revert i. induction n as [|n IH]; intros i; simpl; [done|].
  destruct (singleEqualsAt text i); [done|apply IH].
Qed.

(** [replaceFirstSingleEquals] rewrites the first [=] that stands alone,
    and yields nothing when there is none. *)
Lemma replaceFirstSingleEquals_some text replacement r :
  replaceFirstSingleEquals text replacement = Some r <->
  exists i, lonelyEquals text i /\ (forall j, j < i -> ~ lonelyEquals text j)
            /\ r = take i text ++ replacement ++ drop (i + 1) text.
Proof.
  unfold replaceFirstSingleEquals. rewrite replaceFirstSingleEquals_loop_some. split.
  - intros (k & _ & Hs & Hfirst & ->). exists k. split; [by apply singleEqualsAt_spec|].
    split; [|done]. intros j Hj Hl. apply singleEqualsAt_spec in Hl.
    rewrite Hfirst in Hl by lia. done.
  - intros (i & Hl & Hfirst & ->). exists i.
    pose proof Hl as [Hi _]. apply lookup_lt_Some in Hi.
    split; [lia|]. split; [by apply singleEqualsAt_spec|]. split; [|done].
    intros j Hj. destruct (singleEqualsAt text j) eqn:E; [|done].
    apply singleEqualsAt_spec in E. apply Hfirst in E; [done|lia].
Qed.

Lemma replaceFirstSingleEquals_none text replacement :
  replaceFirstSingleEquals text replacement = None <-> ~ exists i, lonelyEquals text i.
Proof.
  unfold replaceFirstSingleEquals. rewrite replaceFirstSingleEquals_loop_none.
  fold (hasSingleEquals text). rewrite <- hasSingleEquals_spec.
  destruct (hasSingleEquals text); split; intros; done.
Qed.

Lemma getSubstitution_plain matched before after template :
  ch "$" ∉ template -> getSubstitution matched before after template = template.
Proof.
  induction template as [|c t IH]; intros Hnot; simpl; [done|].
  apply not_elem_of_cons in Hnot as [Hc Ht].
  destruct (N.eqb_spec c (ch "$")) as [->|_]; [done|]. by rewrite IH.
Qed.

Lemma matchTernaryHere_spec s block :
  matchTernaryHere s = Some block <-> bracketed s block /\ ternaryShaped block = true.
Proof.
  unfold matchTernaryHere. destruct (matchBracketHere s) as [content|] eqn:E.
  - apply matchBracketHere_spec in E. destruct (ternaryShaped content) eqn:Et.
    + split.
      * intros [= <-]. done.
      * intros [Hb _]. f_equal.
        destruct E as (_ & Hf1 & post1 & ->), Hb as (_ & Hf2 & post2 & [= Heq]).
        destruct (takeWhile_notClose_spec content post1 Hf1) as [<- _].
        destruct (takeWhile_notClose_spec block post2 Hf2) as [<- _]. by rewrite Heq.
    + split; [done|]. intros [Hb Hs].
      destruct E as (_ & Hf1 & post1 & ->), Hb as (_ & Hf2 & post2 & [= Heq]).
      assert (content = block) as ->; [|congruence].
      destruct (takeWhile_notClose_spec content post1 Hf1) as [<- _].
      destruct (takeWhile_notClose_spec block post2 Hf2) as [<- _]. by rewrite Heq.
  - split; [done|]. intros [Hb _]. apply matchBracketHere_spec in Hb. congruence.
Qed.

Lemma ternaryWidth_ok s v :
  matchTernaryHere s = Some v -> 0 < bracketWidth v /\ bracketWidth v <= length s.
Proof.
  intros H. apply matchTernaryHere_spec in H as [H _].
  apply matchBracketHere_spec in H. by apply bracketWidth_ok.
Qed.

(** The leftmost ternary-shaped span of a line. *)
Lemma matchTernary_spec line p block :
  matchTernary line = Some (p, block) <->
  (bracketed (drop p line) block /\ ternaryShaped block = true)
  /\ forall q, q < p -> forall b, ~ (bracketed (drop q line) b /\ ternaryShaped b = true).
Proof.
  unfold matchTernary. rewrite <- (drop_0 line) at 1.
  rewrite (exec_drop_some matchTernaryHere bracketWidth ternaryWidth_ok).
  rewrite matchTernaryHere_spec. split.
  - intros (_ & H & Hnone). split; [done|]. intros q Hq b Hb.
    apply matchTernaryHere_spec in Hb. rewrite Hnone in Hb by lia. done.
  - intros [H Hnone]. split; [lia|]. split; [done|]. intros q Hq.
    destruct (matchTernaryHere (drop q line)) as [b|] eqn:E; [|done].
    apply matchTernaryHere_spec in E. exfalso. apply (Hnone q ltac:(lia) b E).
Qed.

Lemma matchTernary_none line :
  matchTernary line = None <->
  forall q b, ~ (bracketed (drop q line) b /\ ternaryShaped b = true).
Proof.
  unfold matchTernary. rewrite <- (drop_0 line) at 1.
  rewrite (exec_drop_none matchTernaryHere bracketWidth ternaryWidth_ok). split.
  - intros H q b Hb. apply matchTernaryHere_spec in Hb. rewrite H in Hb by lia. done.
  - intros H q _. destruct (matchTernaryHere (drop q line)) as [b|] eqn:E; [|done].
    apply matchTernaryHere_spec in E. exfalso. apply (H q b E).
Qed.

(** The text of the matched span is first found, as a string, where the
    regular expression matched. *)
Lemma indexOf_matched_span line p block :
  matchTernary line = Some (p, block) ->
  indexOf line (js "[" ++ block ++ js "]") = Some p.
Proof.
  intros H. apply matchTernary_spec in H as [[Hb Hs] Hfirst].
  unfold indexOf. apply indexOfFrom_some. exists p. split; [done|].
  pose proof Hb as (Hne & Hfree & post & Hpost). split.
  - apply startsWith_spec. exists post. rewrite Hpost. unjs. by norm_app.
  - intros q Hq. destruct (startsWith (drop q line) _) eqn:E; [|done]. exfalso.
    apply startsWith_spec in E as [r Hr]. apply (Hfirst q Hq block). split; [|done].
    split; [done|]. split; [done|]. exists r. rewrite Hr. unjs. by norm_app.
Qed.

Lemma ternaryShaped_question block :
  ternaryShaped block = true -> ch "?" ∈ block.
Proof.
  unfold ternaryShaped. intros H.
  apply existsb_exists in H as (i & _ & H). apply existsb_exists in H as (j & _ & H).
  repeat (apply andb_true_iff in H as [H ?]).
  match goal with Hq : charIs (block !! i) _ = true |- _ =>
    apply charIs_true in Hq; by apply list_elem_of_lookup_2 in Hq end.
Qed.

Lemma fixed_condition_block block q i :
  q < length block -> i < q ->
  (take i (take q block) ++ js "==" ++ drop (i + 1) (take q block)) ++ drop q block
  = take i block ++ js "==" ++ drop (i + 1) block.
Proof.
  intros Hq Hi. rewrite take_take. replace (i `min` q) with i by lia.
  rewrite <- !app_assoc. do 2 f_equal.
  rewrite <- (take_drop q block) at 3.
  rewrite drop_app_le; [done|]. rewrite length_take. lia.
Qed.

Lemma replaceSingleEqualsInIfElse_plain line p block q i :
  matchTernary line = Some (p, block) ->
  firstIndexOf (ch "?") block q ->
  lonelyEquals (take q block) i ->
  (forall j, j < i -> ~ lonelyEquals (take q block) j) ->
  ch "$" ∉ block ->
  replaceSingleEqualsInIfElse line
  = Some (take p line ++ js "[" ++ (take i block ++ js "==" ++ drop (i + 1) block) ++ js "]"
          ++ drop (p + (length block + 2)) line).
Proof.
  intros Hm Hq Hl Hfirst Hdollar. unfold replaceSingleEqualsInIfElse. rewrite Hm.
  pose proof Hq as Hq'. apply indexOf_char_some in Hq'.
  change [ch "?"] with (js "?") in Hq'. rewrite Hq'.
  assert (replaceFirstSingleEquals (take q block) (js "==")
          = Some (take i (take q block) ++ js "==" ++ drop (i + 1) (take q block))) as ->.
  { apply replaceFirstSingleEquals_some. by exists i. }
  assert (q < length block) as Hqlt by (destruct Hq as [Hq _]; by apply lookup_lt_Some in Hq).
  assert (i < q) as Hiq.
  { destruct Hl as [Hl _]. apply lookup_lt_Some in Hl. rewrite length_take in Hl. lia. }
  rewrite fixed_condition_block by done.
  unfold replaceString. rewrite (indexOf_matched_span line p block Hm).
  rewrite getSubstitution_plain.
  - f_equal. rewrite <- !app_assoc. do 6 f_equal.
    rewrite !length_app. unjs. simpl. f_equal. lia.
  - unjs. rewrite !not_elem_of_app, !not_elem_of_cons.
    repeat split; try done; try apply not_elem_of_nil.
    + intros Hin. apply Hdollar. by apply (subseteq_take i block).
    + intros Hin. apply Hdollar. by apply (subseteq_drop (i + 1) block).
Qed.

Lemma replaceSingleEqualsInIfElse_none line :
  replaceSingleEqualsInIfElse line = None <->
  matchTernary line = None
  \/ exists p block q, matchTernary line = Some (p, block)
                       /\ firstIndexOf (ch "?") block q
                       /\ ~ exists i, lonelyEquals (take q block) i.
Proof.
  unfold replaceSingleEqualsInIfElse.
  destruct (matchTernary line) as [[p block]|] eqn:Hm; [|by split; [left|]].
  pose proof Hm as Hs. apply matchTernary_spec in Hs as [[_ Hs] _].
  apply ternaryShaped_question in Hs.
  destruct (indexOf block (js "?")) as [q|] eqn:Hq.
  2:{ change (js "?") with [ch "?"] in Hq. apply indexOf_char_none in Hq. done. }
  change (js "?") with [ch "?"] in Hq. apply indexOf_char_some in Hq.
  destruct (replaceFirstSingleEquals (take q block) (js "==")) as [fixed|] eqn:Hr.
  - split; [done|]. intros [?|(p' & block' & q' & [= <- <-] & Hq'' & Hnone)]; [done|].
    assert (q' = q) as ->.
    { destruct Hq as [E1 E2], Hq'' as [F1 F2].
      destruct (Nat.lt_trichotomy q' q) as [Hlt|[->|Hlt]]; [|done|].
      - by apply E2 in Hlt.
      - by apply F2 in Hlt. }
    apply (replaceFirstSingleEquals_none _ (js "==")) in Hnone. congruence.
  - split; [|done]. intros _. right. exists p, block, q. split; [done|]. split; [done|].
    by apply replaceFirstSingleEquals_none in Hr.
Qed.

(** C9.  [replaceSingleEqualsInIfElse] yields nothing when the line has no
    ternary-shaped bracketed span or when the condition of the first such
    span has no [=] standing alone.  Otherwise it rewrites the first lone
    [=] of that condition into [==] and leaves the rest of the line as it
    was -- provided the span holds no [$]: the span is put back with
    [String.prototype.replace], which expands [$'] and the like, so that on
    [[c = '$' ? 1 : 2] tail] the text after the span is copied into it. *)
Theorem replaceSingleEqualsInIfElse_expands_dollar_patterns :
  replaceSingleEqualsInIfElse (js "[c = '$' ? 1 : 2] tail")
    = Some (js "[c == ' tail ? 1 : 2] tail")
  /\ findIfElseSingleEquals (js "[c = '$' ? 1 : 2] tail")
     = [{| span_start := 0; span_end := 17 |}]
  /\ (forall line,
        replaceSingleEqualsInIfElse line = None <->
        matchTernary line = None
        \/ exists p block q, matchTernary line = Some (p, block)
                             /\ firstIndexOf (ch "?") block q
                             /\ ~ exists i, lonelyEquals (take q block) i)
  /\ (forall line p block q i,
        matchTernary line = Some (p, block) ->
        firstIndexOf (ch "?") block q ->
        lonelyEquals (take q block) i ->
        (forall j, j < i -> ~ lonelyEquals (take q block) j) ->
        ch "$" ∉ block ->
        replaceSingleEqualsInIfElse line
        = Some (take p line
                ++ js "[" ++ (take i block ++ js "==" ++ drop (i + 1) block) ++ js "]"
                ++ drop (p + (length block + 2)) line))
  /\ (forall line p block,
        matchTernary line = Some (p, block) <->
        (bracketed (drop p line) block /\ ternaryShaped block = true)
        /\ forall q, q < p ->
             forall b, ~ (bracketed (drop q line) b /\ ternaryShaped b = true)).
Proof.
  split; [vm_compute; reflexivity|]. split; [vm_compute; reflexivity|].
  split; [apply replaceSingleEqualsInIfElse_none|].
  split; [apply replaceSingleEqualsInIfElse_plain|apply matchTernary_spec].
Qed.

(** * The helpers around the rules

    The functions that the analyzers call, and what the two adapters do
    with the text they are given. *)

(** ** Line splitting *)

(** [lines.join("\n")] *)
Fixpoint joinLines (lines : list str) : str :=
  match lines with
  | [] => []
  | [line] => line
  | line :: rest => line ++ ch "010" :: joinLines rest
  end.

(** The text with every line feed turned into carriage return, line feed. *)
Fixpoint crlf (content : str) : str :=
  match content with
  | [] => []
  | c :: r => if (c =? ch "010")%N then ch "013" :: ch "010" :: crlf r else c :: crlf r
  end.

Lemma splitLines_loop_nonempty s current : splitLines_loop s current <> [].
Proof.
  revert current. induction s as [|c r IH]; intros current; cbn [splitLines_loop]; [done|].
  destruct (c =? ch "010")%N; [done|].
  destruct r as [|d r']; [apply IH|]. destruct (_ && _); [done|apply IH].
Qed.

Lemma joinLines_cons line rest :
  rest <> [] -> joinLines (line :: rest) = line ++ ch "010" :: joinLines rest.
Proof. destruct rest; [done|reflexivity]. Qed.

Lemma splitLines_loop_join s current :
  ch "013" ∉ s -> joinLines (splitLines_loop s current) = current ++ s.
Proof.
  revert current. induction s as [|c r IH]; intros current Hcr; cbn [splitLines_loop].
  - simpl. by rewrite app_nil_r.
  - apply not_elem_of_cons in Hcr as [Hc Hr].
    destruct (N.eqb_spec c (ch "010")) as [->|Hlf].
    + rewrite joinLines_cons by apply splitLines_loop_nonempty.
      rewrite IH by done. done.
    + assert (splitLines_loop r (current ++ [c]) =
              match r with
              | d :: r' =>
                  if (c =? ch "013")%N && (d =? ch "010")%N
                  then current :: splitLines_loop r' []
                  else splitLines_loop r (current ++ [c])
              | [] => splitLines_loop r (current ++ [c])
              end) as <-.
      { destruct r as [|d r']; [done|].
        destruct (N.eqb_spec c (ch "013")) as [->|_]; [done|]. done. }
      rewrite IH by done. by rewrite <- app_assoc.
Qed.

Lemma splitLines_loop_crlf s current :
  ch "013" ∉ s -> splitLines_loop (crlf s) current = splitLines_loop s current.
Proof.
  revert current. induction s as [|c r IH]; intros current Hcr; [done|].
  apply not_elem_of_cons in Hcr as [Hc Hr]. cbn [crlf].
  destruct (N.eqb_spec c (ch "010")) as [->|Hlf].
  - cbn [splitLines_loop]. change (ch "013" =? ch "010")%N with false.
    change (ch "010" =? ch "010")%N with true. cbv iota. cbn [andb].
    change (ch "013" =? ch "013")%N with true. cbv iota. by rewrite IH.
  - cbn [splitLines_loop]. destruct (N.eqb_spec c (ch "010")) as [|_]; [done|].
    destruct (N.eqb_spec c (ch "013")) as [|_]; [done|]. cbn [andb].
    rewrite <- (IH (current ++ [c])) by done.
    destruct (crlf r), r; done.
Qed.

Lemma splitLines_loop_lines s current :
  length (splitLines_loop s current) = S (countChar (ch "010") s)
  /\ (ch "010" ∉ current -> Forall (fun line => ch "010" ∉ line) (splitLines_loop s current)).
Proof.
  revert current. induction s as [|c r IH]; intros current; cbn [splitLines_loop].
  - split; [done|]. intros H. by constructor.
  - rewrite countChar_cons. destruct (N.eqb_spec c (ch "010")) as [->|Hlf].
    + destruct (IH []) as [Hl Hf]. split; [simpl; lia|].
      intros H. constructor; [done|]. apply Hf. apply not_elem_of_nil.
    + assert (ch "010" ∉ current -> ch "010" ∉ current ++ [c]) as Hsnoc.
      { intros H. rewrite elem_of_app, list_elem_of_singleton. intros [?|?]; [done|].
        by apply Hlf. }
      destruct r as [|d r'].
      * destruct (IH (current ++ [c])) as [Hl Hf]. split; [exact Hl|]. intros H. auto.
      * destruct (N.eqb_spec c (ch "013")) as [->|_]; cbn [andb].
        -- destruct (N.eqb_spec d (ch "010")) as [->|Hd].
           ++ destruct (IH (current ++ [ch "013"])) as [Hl _].
              cbn [splitLines_loop] in Hl.
              change (ch "010" =? ch "010")%N with true in Hl. cbv iota in Hl.
              rewrite countChar_cons in *. change (ch "010" =? ch "010")%N with true in *.
              cbv iota in *.
              assert (Forall (fun line => ch "010" ∉ line) (splitLines_loop r' [])) as Hf.
              { pose proof (IH []) as [_ Hf]. cbn [splitLines_loop] in Hf.
                change (ch "010" =? ch "010")%N with true in Hf. cbv iota in Hf.
                specialize (Hf ltac:(apply not_elem_of_nil)).
                by apply Forall_cons in Hf as [_ Hf]. }
              split; [simpl in *; lia|]. intros H. by constructor.
           ++ destruct (IH (current ++ [ch "013"])) as [Hl Hf]. split; [exact Hl|].
              intros H. auto.
        -- destruct (IH (current ++ [c])) as [Hl Hf]. split; [exact Hl|]. intros H. auto.
Qed.

(** X1.  [content.split(/\r?\n/)] always yields at least one line, one more
    than the text has line feeds, and no line holds a line feed.  On a text
    without carriage returns, joining the lines with line feeds gives the
    text back, and the same text with CRLF line ends splits into the same
    lines, so that [analyzePerchance] reports the same findings for it. *)
Theorem splitLines_line_ends :
  (forall content : str,
     length (splitLines content) = S (countChar (ch "010") content)
     /\ Forall (fun line => ch "010" ∉ line) (splitLines content))
  /\ (forall content : str,
        ch "013" ∉ content ->
        joinLines (splitLines content) = content
        /\ splitLines (crlf content) = splitLines content
        /\ analyzePerchance (crlf content) = analyzePerchance content)
  /\ splitLines [ch "a"; ch "013"; ch "010"; ch "b"; ch "010"] = [js "a"; js "b"; []]
  /\ splitLines [ch "a"; ch "013"; ch "013"; ch "010"; ch "b"] = [[ch "a"; ch "013"]; js "b"].
Proof.
  split; [|split; [|split; vm_compute; reflexivity]].
  - intros content. destruct (splitLines_loop_lines content []) as [Hl Hf].
    split; [exact Hl|]. apply Hf, not_elem_of_nil.
  - intros content Hcr. split; [by apply splitLines_loop_join|].
    assert (splitLines (crlf content) = splitLines content) as E
      by by apply splitLines_loop_crlf.
    split; [exact E|]. unfold analyzePerchance. by rewrite E.
Qed.

(** ** Comments and names *)

Lemma startsWith_take_false (s p : str) n j :
  startsWith (drop j (take n s)) p = true -> p <> [] ->
  j + length p <= n /\ startsWith (drop j s) p = true.
Proof.
  intros H Hp. apply startsWith_spec in H as [r Hr].
  assert (length (drop j (take n s)) = length (p ++ r)) as Hlen by by rewrite Hr.
  rewrite length_drop, length_take, length_app in Hlen.
  assert (0 < length p) by (destruct p; [done|simpl; lia]).
  split; [lia|]. apply startsWith_spec.
  exists (r ++ drop n s).
  rewrite app_assoc, <- Hr, <- drop_app_le by (rewrite length_take; lia).
  by rewrite take_drop.
Qed.


Lemma nameChar_identChar c : identChar c = true -> nameChar c = true.
Proof.
  unfold identChar, nameChar, isWordChar.
  destruct (isLetter c), (isDigit c), (c =? ch "_")%N, (c =? ch "$")%N, (c =? ch "-")%N; done.
Qed.

Lemma takeWhile_stop {A} (p q : A -> bool) (l : list A) :
  (forall x, p x = true -> q x = true) ->
  match dropWhile p l with x :: _ => q x = false | [] => True end ->
  takeWhile q l = takeWhile p l.
Proof.
  intros Hpq. induction l as [|y l IH]; simpl; [done|].
  destruct (p y) eqn:E.
  - rewrite (Hpq _ E). intros H. by rewrite IH.
  - intros ->. done.
Qed.

Lemma identStart_wordChar c : identStart c = true -> isWordChar c = true.
Proof.
  unfold identStart, isWordChar.
  destruct (isLetter c), (isDigit c), (c =? ch "_")%N; done.
Qed.

Lemma whiteSpace_not_nameChar c : isWhiteSpace c = true -> nameChar c = false.
Proof.
  intros H. unfold nameChar. rewrite (whiteSpace_not_word _ H).
  unfold isWhiteSpace, inRange in H.
  destruct (N.eqb_spec c (ch "$")) as [->|_]; [done|].
  destruct (N.eqb_spec c (ch "-")) as [->|_]; [done|]. done.
Qed.

Lemma startsWith_head (s : str) c :
  startsWith s [c] = true <-> exists r, s = c :: r.
Proof. rewrite startsWith_spec. done. Qed.

Lemma parseListName_plain (t : str) c r :
  t = c :: r -> startsWith t (js "async ") = false ->
  isWordChar c || (c =? ch "$")%N = true ->
  parseListName t = Some (c :: takeWhile nameChar r).
Proof.
  intros -> Ha Hc. unfold parseListName. rewrite Ha. by rewrite Hc.
Qed.

Lemma shorthand_name_run tail (t : str) name :
  (forall x, tail x = true -> nameChar x = true) ->
  shorthandWith tail t = Some name ->
  exists c r, t = c :: r /\ identStart c = true /\ name = c :: takeWhile nameChar r.
Proof.
  intros Htail. unfold shorthandWith, matchIdent. destruct t as [|c r]; [done|].
  destruct (identStart c) eqn:Ec; [|done].
  destruct (startsWith (dropWhile isWhiteSpace (dropWhile tail r)) (js "=")) eqn:Es; [|done].
  intros [= <-]. exists c, r. split; [done|]. split; [done|]. f_equal. symmetry.
  apply takeWhile_stop; [done|].
  destruct (dropWhile tail r) as [|x rest] eqn:Ed; [done|].
  destruct (isWhiteSpace x) eqn:Ew; [by apply whiteSpace_not_nameChar|].
  cbn [dropWhile] in Es. rewrite Ew in Es.
  change (js "=") with [ch "="] in Es. apply startsWith_head in Es as [r' [= -> _]]. done.
Qed.

Lemma blockHeader_name_run tail (t : str) name :
  (forall x, tail x = true -> nameChar x = true) ->
  blockHeaderWith tail t = Some name ->
  name = t /\ exists c r, t = c :: r /\ (isWordChar c || (c =? ch "$")%N = true)
                          /\ takeWhile nameChar r = r.
Proof.
  intros Htail. unfold blockHeaderWith, matchIdent. destruct t as [|c r]; [done|].
  assert (forall l : str, dropWhile tail l = [] -> takeWhile tail l = l
                          /\ takeWhile nameChar l = l) as Hall.
  { intros l Hd. pose proof (takeWhile_dropWhile tail l) as Hl. rewrite Hd, app_nil_r in Hl.
    split; [done|]. rewrite <- Hl at 2. apply takeWhile_stop; [done|]. by rewrite Hd. }
  destruct (identStart c) eqn:Ec.
  - destruct (dropWhile tail r) eqn:Ed; [|done]. intros [= <-].
    destruct (Hall r Ed) as [H1 H2]. rewrite H1. split; [done|].
    exists c, r. split; [done|]. split; [|done]. by rewrite (identStart_wordChar _ Ec).
  - destruct (N.eqb_spec c (ch "$")) as [->|_]; [|done].
    destruct r as [|d r']; [done|]. destruct (identStart d) eqn:Ed; [|done].
    destruct (dropWhile tail r') eqn:Edr; [|done]. intros [= <-].
    destruct (Hall r' Edr) as [H1 H2]. rewrite H1. split; [done|].
    exists (ch "$"), (d :: r'). split; [done|]. split; [by rewrite orb_true_r|].
    cbn [takeWhile]. unfold nameChar at 1. rewrite (identStart_wordChar _ Ed). cbn [orb].
    by rewrite H2.
Qed.

Lemma takeWhile_id_all {A} (p : A -> bool) (l : list A) :
  takeWhile p l = l -> Forall (fun x => p x = true) l.
Proof. intros H. rewrite <- H. apply takeWhile_all. Qed.

Lemma nameStart_nameChar c : isWordChar c || (c =? ch "$")%N = true -> nameChar c = true.
Proof. unfold nameChar. intros ->. done. Qed.

Lemma shorthand_after_async r0 :
  LIST_SHORTHAND_REGEX (js "async " ++ r0)
  = if startsWith (dropWhile isWhiteSpace r0) (js "=") then Some (js "async") else None.
Proof. reflexivity. Qed.

Lemma parseListName_after_async r0 :
  parseListName (js "async " ++ r0)
  = match dropWhile isWhiteSpace r0 with
    | c :: r =>
        if isWordChar c || (c =? ch "$")%N then Some (c :: takeWhile nameChar r) else None
    | [] => None
    end.
Proof. reflexivity. Qed.

(** X3.  The name that [parseListName] reads is a non-empty run of name
    characters, cut where the run ends, at the head of the line or after a
    leading [async ] and the blanks that follow it.  On a block header it is
    the header itself, on a shorthand assignment and on a function header
    the name in front; a list that is itself called [async] and is followed
    by a space gets no name. *)
Theorem parseListName_reads_header_names :
  (forall t name,
     parseListName t = Some name ->
     name <> [] /\ Forall (fun c => nameChar c = true) name
     /\ exists pre rest,
          t = pre ++ name ++ rest
          /\ match rest with x :: _ => nameChar x = false | [] => True end
          /\ (pre = [] \/ exists blanks, pre = js "async " ++ blanks
                           /\ Forall (fun c => isWhiteSpace c = true) blanks))
  /\ (forall t name, LIST_BLOCK_HEADER_REGEX t = Some name ->
        name = t /\ parseListName t = Some t)
  /\ (forall t name, LIST_SHORTHAND_REGEX t = Some name ->
        parseListName t = if startsWith t (js "async ") then None else Some name)
  /\ (forall t, FUNCTION_HEADER_REGEX t = true -> startsWith t (js "async ") = false ->
        exists c r, t = c :: r /\ parseListName t = Some (c :: takeWhile nameChar r))
  /\ parseListName (js "async f(x) =>") = Some (js "f")
  /\ (FUNCTION_HEADER_REGEX (js "async (x) =>") = true
      /\ parseListName (js "async (x) =>") = None)
  /\ (LIST_SHORTHAND_REGEX (js "async = {a|b}") = Some (js "async")
      /\ parseListName (js "async = {a|b}") = None)
  /\ (LIST_BLOCK_HEADER_REGEX (js "9lives") = None
      /\ parseListName (js "9lives") = Some (js "9lives")).
Proof.
  split; [|split; [|split; [|split; [|repeat split; vm_compute; reflexivity]]]].
  - intros t name H.
    assert (forall line : str,
              match line with
              | c :: r =>
                  if isWordChar c || (c =? ch "$")%N
                  then Some (c :: takeWhile nameChar r) else None
              | [] => None
              end = Some name ->
              name <> [] /\ Forall (fun c => nameChar c = true) name
              /\ exists rest, line = name ++ rest
                   /\ match rest with x :: _ => nameChar x = false | [] => True end) as Hline.
    { intros [|c r]; [done|]. destruct (isWordChar c || (c =? ch "$")%N) eqn:Ec; [|done].
      intros [= <-]. split; [done|]. split.
      - constructor; [by apply nameStart_nameChar|apply takeWhile_all].
      - exists (dropWhile nameChar r). split.
        + by rewrite <- app_comm_cons, takeWhile_dropWhile.
        + destruct (dropWhile nameChar r) as [|x rest] eqn:Ed; [done|].
          by apply dropWhile_head in Ed. }
    destruct (startsWith t (js "async ")) eqn:Ea.
    + apply startsWith_spec in Ea as [r0 ->]. rewrite parseListName_after_async in H.
      apply Hline in H as (Hne & Hall & rest & Hrest & Hstop).
      split; [done|]. split; [done|].
      exists (js "async " ++ takeWhile isWhiteSpace r0), rest. split.
      * rewrite <- app_assoc. f_equal. rewrite <- Hrest. by rewrite takeWhile_dropWhile.
      * split; [done|]. right. exists (takeWhile isWhiteSpace r0).
        split; [done|apply takeWhile_all].
    + unfold parseListName in H. rewrite Ea in H.
      apply Hline in H as (Hne & Hall & rest & Hrest & Hstop).
      split; [done|]. split; [done|]. exists [], rest. split; [done|]. split; [done|by left].
  - intros t name H. apply blockHeader_name_run in H as (-> & c & r & -> & Hc & Hr);
      [|apply nameChar_identChar].
    split; [done|]. rewrite <- Hr at 2. apply parseListName_plain; [done| |done].
    destruct (startsWith (c :: r) (js "async ")) eqn:Ea; [|done]. exfalso.
    apply startsWith_spec in Ea as [r0 Hr0]. unjs. injection Hr0 as _ ->.
    apply takeWhile_id_all in Hr.
    apply Forall_inv_tail, Forall_inv_tail, Forall_inv_tail, Forall_inv_tail, Forall_inv in Hr.
    done.
  - intros t name H. destruct (startsWith t (js "async ")) eqn:Ea.
    + apply startsWith_spec in Ea as [r0 ->].
      rewrite shorthand_after_async in H. rewrite parseListName_after_async.
      destruct (startsWith (dropWhile isWhiteSpace r0) (js "=")) eqn:Es; [|done].
      change (js "=") with [ch "="] in Es. apply startsWith_head in Es as [r' ->]. done.
    + apply shorthand_name_run in H as (c & r & -> & Hc & ->); [|apply nameChar_identChar].
      apply parseListName_plain; [done|done|]. by rewrite (identStart_wordChar _ Hc).
  - intros t H Ha.
    assert (exists c r, t = c :: r /\ identStart c = true) as (c & r & -> & Hc).
    { unfold FUNCTION_HEADER_REGEX in H. apply orb_true_iff in H as [H|H].
      - apply andb_true_iff in H as [H _]. apply startsWith_spec in H as [r0 ->].
        by exists (ch "a"), (js "sync" ++ r0).
      - destruct t as [|c r]; [done|]. cbn [functionHeaderBody] in H.
        apply andb_true_iff in H as [H _]. by exists c, r. }
    exists c, r. split; [done|]. apply parseListName_plain; [done|done|].
    by rewrite (identStart_wordChar _ Hc).
Qed.

(** ** The quick fix and the detection *)

Lemma singleEqualsAt_local (a b : str) j k :
  a !! j = b !! k -> charBefore a j = charBefore b k -> a !! S j = b !! S k ->
  singleEqualsAt a j = singleEqualsAt b k.
Proof.
  intros H1 H2 H3. unfold singleEqualsAt, charAfter.
  rewrite !Nat.add_1_r. by rewrite H1, H2, H3.
Qed.

(** The characters of a text whose [=] at [i] was doubled. *)
Lemma doubled_lookup (text : str) i x :
  text !! i = Some (ch "=") ->
  (take i text ++ js "==" ++ drop (i + 1) text) !! x
  = if decide (x <= i) then text !! x else text !! (x - 1).
Proof.
  intros Hi. pose proof (lookup_lt_Some _ _ _ Hi) as Hlt.
  destruct (decide (x < i)) as [Hx|Hx].
  - rewrite lookup_app_l by (rewrite length_take; lia).
    rewrite lookup_take_lt by lia. by rewrite decide_True by lia.
  - rewrite lookup_app_r by (rewrite length_take; lia).
    rewrite length_take, Nat.min_l by lia.
    destruct (decide (x = i)) as [->|Hne].
    + rewrite Nat.sub_diag, decide_True by lia. by rewrite Hi.
    + rewrite decide_False by lia.
      destruct (decide (x = i + 1)) as [->|Hne2].
      * replace (i + 1 - i) with 1 by lia. replace (i + 1 - 1) with i by lia.
        by rewrite Hi.
      * replace (x - i) with (S (S (x - i - 2))) by lia. unjs. cbn [app].
        rewrite !lookup_cons. rewrite lookup_drop. f_equal. lia.
Qed.

(** X4.  [replaceFirstSingleEquals] with [==] fails exactly on the texts in
    which [hasSingleEquals] finds nothing.  Otherwise it doubles the first
    [=] that stands alone: the text grows by one character, the doubled
    sign no longer stands alone, and the signs that stand alone in the
    result are those that stood alone after it in the text, one place
    further on.  So each application removes one finding and adds none. *)
Theorem replaceFirstSingleEquals_removes_one_finding :
  (forall text : str,
     replaceFirstSingleEquals text (js "==") = None <-> hasSingleEquals text = false)
  /\ (forall text fixed : str,
        replaceFirstSingleEquals text (js "==") = Some fixed ->
        exists i,
          lonelyEquals text i /\ (forall j, j < i -> ~ lonelyEquals text j)
          /\ fixed = take i text ++ js "==" ++ drop (i + 1) text
          /\ length fixed = S (length text)
          /\ (forall j, lonelyEquals fixed j <->
                exists k, i < k /\ j = S k /\ lonelyEquals text k))
  /\ replaceFirstSingleEquals (js "a = b = c") (js "==") = Some (js "a == b = c")
  /\ replaceFirstSingleEquals (js "a == b = c") (js "==") = Some (js "a == b == c")
  /\ replaceFirstSingleEquals (js "a == b == c") (js "==") = None.
Proof.
  split; [|split; [|repeat split; vm_compute; reflexivity]].
  - intros text. rewrite replaceFirstSingleEquals_none, <- hasSingleEquals_spec.
    destruct (hasSingleEquals text); split; intros; done.
  - intros text fixed H. apply replaceFirstSingleEquals_some in H as (i & Hl & Hfirst & ->).
    exists i. split; [done|]. split; [done|]. split; [done|].
    pose proof Hl as [Hi _]. pose proof (lookup_lt_Some _ _ _ Hi) as Hlt.
    split.
    { rewrite !length_app, length_take, length_drop. change (length (js "==")) with 2. lia. }
    intros j. rewrite <- singleEqualsAt_spec.
    set (fixed := take i text ++ js "==" ++ drop (i + 1) text).
    assert (forall x, fixed !! x = if decide (x <= i) then text !! x else text !! (x - 1))
      as Hfx by (intros x; by apply doubled_lookup).
    destruct (decide (j < i)) as [Hj|Hj].
    + assert (singleEqualsAt fixed j = singleEqualsAt text j) as ->.
      { apply singleEqualsAt_local.
        - rewrite Hfx. by rewrite decide_True by lia.
        - destruct j as [|j']; [done|]. cbn [charBefore]. rewrite Hfx.
          by rewrite decide_True by lia.
        - rewrite Hfx. by rewrite decide_True by lia. }
      split.
      * intros Hs. apply singleEqualsAt_spec in Hs. by apply Hfirst in Hs.
      * intros (k & ? & ? & _). lia.
    + destruct (decide (j = i)) as [->|Hne].
      { split; [|intros (k & ? & ? & _); lia]. intros Hs. exfalso.
        unfold singleEqualsAt in Hs. unfold charAfter in Hs.
        rewrite !Hfx in Hs. rewrite decide_True, decide_False in Hs by lia.
        replace (i + 1 - 1) with i in Hs by lia. rewrite Hi in Hs. cbn [charIs negb] in Hs.
        change (ch "=" =? ch "=")%N with true in Hs. cbn [negb orb] in Hs.
        by rewrite orb_true_r in Hs. }
      destruct (decide (j = S i)) as [->|Hne2].
      { split; [|intros (k & ? & ? & _); lia]. intros Hs. exfalso.
        unfold singleEqualsAt in Hs. cbn [charBefore] in Hs.
        rewrite !Hfx in Hs. rewrite decide_False, decide_True in Hs by lia.
        replace (S i - 1) with i in Hs by lia. rewrite Hi in Hs. cbn [charIs negb] in Hs.
        change (ch "=" =? ch "=")%N with true in Hs. cbn [negb orb] in Hs. done. }
      destruct j as [|k]; [lia|].
      assert (singleEqualsAt fixed (S k) = singleEqualsAt text k) as ->.
      { apply singleEqualsAt_local.
        - rewrite Hfx, decide_False by lia. f_equal; lia.
        - cbn [charBefore]. rewrite Hfx. destruct k as [|k']; [lia|]. cbn [charBefore].
          destruct (decide (S k' <= i)) as [Hle|Hgt].
          + assert (S k' = i) as <- by lia. done.
          + f_equal; lia.
        - rewrite Hfx, decide_False by lia. f_equal; lia. }
      rewrite singleEqualsAt_spec. split.
      * intros Hs. exists k. split; [lia|done].
      * intros (k' & ? & [= <-] & Hs). done.
Qed.

Lemma ternaryShaped_spec block :
  ternaryShaped block = true <->
  exists i j, 1 <= i /\ i + 2 <= j /\ j + 2 <= length block
              /\ block !! i = Some (ch "?") /\ block !! j = Some (ch ":").
Proof.
  unfold ternaryShaped. rewrite existsb_exists. split.
  - intros (i & _ & H). apply existsb_exists in H as (j & _ & H).
    repeat (apply andb_true_iff in H as [H ?]).
    exists i, j. rewrite !Nat.leb_le in *. rewrite !charIs_true in *. done.
  - intros (i & j & H1 & H2 & H3 & Hq & Hc). exists i. split; [apply in_seq; lia|].
    apply existsb_exists. exists j. split; [apply in_seq; lia|].
    repeat (apply andb_true_iff; split); rewrite ?Nat.leb_le, ?charIs_true; done.
Qed.

Lemma ternaryShaped_extend pre block :
  ternaryShaped block = true -> ternaryShaped (pre ++ block) = true.
Proof.
  rewrite !ternaryShaped_spec. intros (i & j & H1 & H2 & H3 & Hq & Hc).
  exists (length pre + i), (length pre + j). rewrite length_app.
  split; [lia|]. split; [lia|]. split; [lia|].
  rewrite !lookup_app_r by lia. replace (length pre + i - length pre) with i by lia.
  replace (length pre + j - length pre) with j by lia. done.
Qed.

Lemma bracketed_content_unique (a b posta postb : str) :
  ch "]" ∉ a -> ch "]" ∉ b -> a ++ ch "]" :: posta = b ++ ch "]" :: postb -> a = b.
Proof.
  intros Ha Hb Heq.
  destruct (takeWhile_notClose_spec a posta Ha) as [<- _].
  destruct (takeWhile_notClose_spec b postb Hb) as [<- _]. by rewrite Heq.
Qed.

(** A span of the detection that covers the start of a ternary-shaped span
    is ternary-shaped itself. *)
Lemma bracketed_covers_ternary (line : str) p' v p block :
  bracketed (drop p' line) v -> bracketed (drop p line) block ->
  ternaryShaped block = true -> p' < p < p' + bracketWidth v ->
  ternaryShaped v = true.
Proof.
  intros (Hv & Hfv & postv & Hpv) (Hb & Hfb & postb & Hpb) Ht [Hlo Hhi].
  unfold bracketWidth in Hhi.
  assert (drop p line = drop (p - p') (drop p' line)) as Hd
    by (rewrite drop_drop; f_equal; lia).
  rewrite Hpv in Hd.
  replace (p - p') with (S (p - p' - 1)) in Hd by lia. cbn [drop] in Hd.
  set (d := p - p' - 1) in *.
  destruct (decide (d < length v)) as [Hdv|Hdv].
  - rewrite drop_app_le in Hd by lia. rewrite Hpb in Hd.
    destruct (drop d v) as [|c rest] eqn:Edrop.
    { apply (f_equal length) in Edrop. rewrite length_drop in Edrop. simpl in Edrop. lia. }
    cbn [app] in Hd. injection Hd as <- Hrest.
    assert (block = rest) as ->.
    { eapply bracketed_content_unique; [done| |exact Hrest].
      intros Hin. apply Hfv. rewrite <- (take_drop d v), Edrop.
      apply elem_of_app. right. by right. }
    rewrite <- (take_drop d v), Edrop.
    change (ch "[" :: rest) with ([ch "["] ++ rest). rewrite app_assoc.
    by apply ternaryShaped_extend.
  - assert (d = length v) as Hdl by (subst d; lia).
    rewrite Hdl in Hd.
    rewrite drop_app_length in Hd. rewrite Hpb in Hd. discriminate.
Qed.

Lemma ternaryShaped_colon block : ternaryShaped block = true -> ch ":" ∈ block.
Proof.
  rewrite ternaryShaped_spec. intros (i & j & _ & _ & _ & _ & Hc).
  by apply list_elem_of_lookup_2 in Hc.
Qed.

(** The span that the quick fix rewrites is one that the detection flags. *)
Lemma replaceSingleEqualsInIfElse_flagged (line updated : str) :
  replaceSingleEqualsInIfElse line = Some updated ->
  exists p block,
    matchTernary line = Some (p, block)
    /\ {| span_start := p; span_end := p + (length block + 2) |}
       ∈ findIfElseSingleEquals line.
Proof.
  intros H. unfold replaceSingleEqualsInIfElse in H.
  destruct (matchTernary line) as [[p block]|] eqn:Em; [|done].
  destruct (indexOf block (js "?")) as [q|] eqn:Eq; [|done].
  destruct (replaceFirstSingleEquals (take q block) (js "==")) as [fixed|] eqn:Ef; [|done].
  exists p, block. split; [done|].
  assert (hasSingleEquals (take q block) = true) as Hs.
  { destruct (hasSingleEquals (take q block)) eqn:E; [done|].
    unfold hasSingleEquals in E.
    apply (replaceFirstSingleEquals_loop_none _ (js "==")) in E.
    unfold replaceFirstSingleEquals in Ef. rewrite E in Ef. done. }
  apply matchTernary_spec in Em as [[Hb Ht] Hfirst].
  assert (flagsContent block = true) as Hflag.
  { unfold flagsContent. rewrite Eq.
    destruct (indexOf block (js ":")) eqn:Ec; [done|].
    apply (indexOf_char_none block (ch ":")) in Ec. by apply ternaryShaped_colon in Ht. }
  unfold findIfElseSingleEquals. rewrite findIfElseSingleEquals_loop_scan.
  pose proof (scan_leftmost matchBracketHere bracketWidth bracketWidth_ok
                (S (length line)) line 0 ltac:(lia)) as Hl.
  change {| span_start := p; span_end := p + (length block + 2) |} with (spanOf (p, block)).
  apply list_elem_of_fmap_2. apply list_elem_of_filter. split; [done|].
  assert (matchBracketHere (drop p line) = Some block) as Hmb by by apply matchBracketHere_spec.
  destruct (leftmostMatches_cover matchBracketHere bracketWidth
              line 0 _ p block Hl ltac:(lia) Hmb) as (p' & v & Hin & Hcover).
  pose proof (leftmostMatches_elem matchBracketHere bracketWidth
                line 0 _ p' v Hl Hin) as [_ Hv].
  destruct (decide (p' = p)) as [->|Hne].
  - rewrite Hmb in Hv. by injection Hv as <-.
  - exfalso. apply matchBracketHere_spec in Hv.
    apply (Hfirst p' ltac:(lia) v). split; [done|].
    eapply bracketed_covers_ternary; [exact Hv|exact Hb|exact Ht|lia].
Qed.


(** X5.  The quick fix rewrites a span only when the detection flags it:
    when [replaceSingleEqualsInIfElse] returns a text, the span it worked
    on is among the findings of [findIfElseSingleEquals] on the same text.
    The converse fails: a flagged span whose [:] comes before its [?] has
    no fix, and the fix looks at the first ternary-shaped span only. *)
Theorem quick_fix_only_on_flagged_span :
  (forall line updated : str,
     replaceSingleEqualsInIfElse line = Some updated ->
     exists p block,
       matchTernary line = Some (p, block)
       /\ {| span_start := p; span_end := p + (length block + 2) |}
          ∈ findIfElseSingleEquals line)
  /\ (findIfElseSingleEquals (js "[a = b : c ? d]") = [{| span_start := 0; span_end := 15 |}]
      /\ replaceSingleEqualsInIfElse (js "[a = b : c ? d]") = None)
  /\ (findIfElseSingleEquals (js "[a == 1 ? x : y] [b = 2 ? x : y]")
        = [{| span_start := 17; span_end := 32 |}]
      /\ replaceSingleEqualsInIfElse (js "[a == 1 ? x : y] [b = 2 ? x : y]") = None)
  /\ replaceSingleEqualsInIfElse (js "  [b = 2 ? x : y] // c")
     = Some (js "  [b == 2 ? x : y] // c").
Proof.
  split; [|repeat split; vm_compute; reflexivity].
  intros line updated. apply replaceSingleEqualsInIfElse_flagged.
Qed.

(** ** The findings of the batch analyzer, line by line *)

Lemma findHtmlStart_loop_bounds lines index sawBlank :
  index <= findHtmlStart_loop lines index sawBlank <= index + length lines.
Proof.
  revert index sawBlank. induction lines as [|line rest IH]; intros index sawBlank;
    cbn [findHtmlStart_loop length]; [lia|].
  destruct (eqs (trim line) []).
  - specialize (IH (S index) true). lia.
  - destruct (sawBlank && looksLikeHtmlStart line); [lia|].
    specialize (IH (S index) false). lia.
Qed.

Lemma findHtmlStart_le (lines : list str) : findHtmlStart lines <= length lines.
Proof. unfold findHtmlStart. pose proof (findHtmlStart_loop_bounds lines 0 false). lia. Qed.

(** The line numbers of a list of findings never decrease. *)
Definition ascending (numbers : list nat) : Prop :=
  forall i j a b, i <= j -> numbers !! i = Some a -> numbers !! j = Some b -> a <= b.

Lemma ascending_app (xs ys : list nat) :
  ascending xs -> ascending ys ->
  (forall a b, a ∈ xs -> b ∈ ys -> a <= b) ->
  ascending (xs ++ ys).
Proof.
  intros Hx Hy Hxy i j a b Hij Hi Hj.
  apply lookup_app_Some in Hi as [Hi|[Hil Hi]], Hj as [Hj|[Hjl Hj]].
  - eauto.
  - eapply Hxy; eapply list_elem_of_lookup_2; eauto.
  - apply lookup_lt_Some in Hj. lia.
  - eapply (Hy (i - length xs) (j - length xs)); [lia|done|done].
Qed.

Lemma ascending_constant (xs : list nat) n : Forall (fun a => a = n) xs -> ascending xs.
Proof.
  intros H i j a b _ Hi Hj. rewrite Forall_forall in H.
  apply list_elem_of_lookup_2, H in Hi. apply list_elem_of_lookup_2, H in Hj. lia.
Qed.

(** The codes of the first loop of [analyzePerchance]. *)
Definition listCodes : list string :=
  ["duplicate-list"; "mixed-indent"; "odd-indent"; "single-equals"]%string.

Lemma batch_emit_at i line st :
  Forall (fun w => w_line w = i + 1 /\ w_code w ∈ listCodes) (batch_emit i line st).
Proof.
  unfold batch_emit, listCodes. repeat apply Forall_app_2.
  - unfold batchDuplicate. destruct (batchName line); [|done].
    destruct (bool_decide _); [|done]. repeat constructor.
  - destruct (decide _); [|done]. repeat constructor.
  - destruct (decide _); [|done]. repeat constructor.
  - unfold batchSingleEquals. destruct (decide _); [|done].
    apply Forall_forall. intros w Hw. apply list_elem_of_fmap in Hw as (s & -> & _).
    split; [done|]. repeat constructor.
Qed.

(** The layout of the findings of [analyzePerchance]: their line numbers,
    their order and their codes. *)
Lemma analyzePerchance_findings_layout (lines : list str) :
  let findings := analyzePerchance_lines lines in
  findHtmlStart lines <= length lines
  /\ Forall (fun w => 1 <= w_line w <= length lines) findings
  /\ ascending (w_line <$> findings)
  /\ Forall (fun w =>
               (w_line w <= findHtmlStart lines /\ w_code w ∈ listCodes)
               \/ (findHtmlStart lines < w_line w /\ w_code w = "list-after-html"%string))
            findings.
Proof.
  cbv zeta. pose proof (findHtmlStart_le lines) as Hle. split; [exact Hle|].
  set (region := take (findHtmlStart lines) lines).
  assert (length region = findHtmlStart lines) as Hregion
    by (unfold region; rewrite length_take; lia).
  assert (Forall (fun w => 1 <= w_line w <= length region /\ w_code w ∈ listCodes)
                 (b_warnings (analyzePerchance_scan lines))
          /\ ascending (w_line <$> b_warnings (analyzePerchance_scan lines))) as [Hscan Hasc].
  { unfold analyzePerchance_scan. fold region.
    apply (forLines_invariant analyzePerchance_body
             (fun pre st =>
                Forall (fun w => 1 <= w_line w <= length pre /\ w_code w ∈ listCodes)
                       (b_warnings st)
                /\ ascending (w_line <$> b_warnings st)) ) with (pre := []).
    - intros pre line st [Hall Ha]. rewrite analyzePerchance_body_eq. cbn [b_warnings].
      pose proof (batch_emit_at (length pre) line st) as Hemit.
      rewrite length_app. cbn [length]. split.
      + apply Forall_app_2.
        * eapply Forall_impl; [exact Hall|]. cbv beta. intros w [? ?]. split; [lia|done].
        * eapply Forall_impl; [exact Hemit|]. cbv beta. intros w [? ?]. split; [lia|done].
      + rewrite fmap_app. apply ascending_app; [done| |].
        * apply (ascending_constant _ (length pre + 1)).
          apply Forall_fmap. eapply Forall_impl; [exact Hemit|]. by intros w [? _].
        * intros a b Ha' Hb'. apply list_elem_of_fmap in Ha' as (w & -> & Hw).
          apply list_elem_of_fmap in Hb' as (w' & -> & Hw').
          rewrite Forall_forall in Hall, Hemit.
          destruct (Hall _ Hw) as [? _]. destruct (Hemit _ Hw') as [? _]. lia.
    - split; [constructor|]. intros i j a b _ Hi. done. }
  assert (Forall (fun w => findHtmlStart lines < w_line w <= length lines
                           /\ w_code w = "list-after-html"%string)
                 (listAfterHtml_loop (drop (findHtmlStart lines) lines) (findHtmlStart lines)))
    as Hafter.
  { destruct (listAfterHtml_loop_spec (drop (findHtmlStart lines) lines) (findHtmlStart lines))
      as [(j & line & Hj & _ & _ & ->)|[_ ->]]; [|constructor].
    apply lookup_lt_Some in Hj. rewrite length_drop in Hj.
    constructor; [|constructor]. unfold batchWarning. cbn [w_line w_code]. split; [lia|done]. }
  unfold analyzePerchance_lines. cbv zeta. rewrite Hregion in Hscan.
  split; [|split].
  - apply Forall_app_2.
    + eapply Forall_impl; [exact Hscan|]. cbv beta. intros w [? _]. lia.
    + eapply Forall_impl; [exact Hafter|]. cbv beta. intros w [? _]. lia.
  - rewrite fmap_app. apply ascending_app; [done| |].
    + destruct (listAfterHtml_loop _ _) as [|w [|w' rest]] eqn:E.
      * intros i j a b _ Hi. done.
      * apply (ascending_constant _ (w_line w)). by repeat constructor.
      * exfalso.
        destruct (listAfterHtml_loop_spec (drop (findHtmlStart lines) lines)
                    (findHtmlStart lines)) as [(j & line & _ & _ & _ & Heq)|[_ Heq]];
          rewrite E in Heq; discriminate.
    + intros a b Ha' Hb'. apply list_elem_of_fmap in Ha' as (w & -> & Hw).
      apply list_elem_of_fmap in Hb' as (w' & -> & Hw').
      rewrite Forall_forall in Hscan, Hafter.
      destruct (Hscan _ Hw) as [? _]. destruct (Hafter _ Hw') as [? _]. lia.
  - apply Forall_app_2.
    + eapply Forall_impl; [exact Hscan|]. cbv beta. intros w [? ?]. left. split; [lia|done].
    + eapply Forall_impl; [exact Hafter|]. cbv beta. intros w [? ?]. right. split; [lia|done].
Qed.

(** X6.  Every finding of [analyzePerchance] carries a line number between
    1 and the number of lines, never 0; the findings come in the order of
    their lines; a finding of the list region lies before the markup
    boundary and bears one of the four list codes, and a finding past the
    boundary is the [list-after-html] one. *)
Theorem analyzePerchance_findings_in_line_order (lines : list str) :
  let findings := analyzePerchance_lines lines in
  findHtmlStart lines <= length lines
  /\ Forall (fun w => 1 <= w_line w <= length lines) findings
  /\ ascending (w_line <$> findings)
  /\ Forall (fun w =>
               (w_line w <= findHtmlStart lines /\ w_code w ∈ listCodes)
               \/ (findHtmlStart lines < w_line w /\ w_code w = "list-after-html"%string))
            findings.
Proof. apply analyzePerchance_findings_layout. Qed.

(** ** The diagnostics of the engine: where they lie *)

(** The diagnostics of the [references.forEach] block. *)
Definition unknownReferences (document : list str) : list Diagnostic :=
  flat_map (unknownReference (collectListDefinitions document))
           (collectListReferences document).

(** The diagnostic lies on one line of [lines], is not empty and ends
    within the line. *)
Definition withinLine (lines : list str) (d : Diagnostic) : Prop :=
  pos_line (range_start (d_range d)) = pos_line (range_end (d_range d))
  /\ exists line, lines !! pos_line (range_start (d_range d)) = Some line
       /\ pos_character (range_start (d_range d)) < pos_character (range_end (d_range d))
          <= length line.

(** The codes of the loop of [analyzeDocument]. *)
Definition ruleCodes : list string :=
  ["perchance.duplicateListName"; "perchance.indentationMixed";
   "perchance.indentationSpacing"; "perchance.ifElseSingleEquals"]%string.

Lemma length_takeWhile_dropWhile {A} (p : A -> bool) (l : list A) :
  length (takeWhile p l) + length (dropWhile p l) = length l.
Proof. rewrite <- length_app. by rewrite takeWhile_dropWhile. Qed.

Lemma length_trimStart s : length (trimStart s) <= length s.
Proof. unfold trimStart. pose proof (length_takeWhile_dropWhile isWhiteSpace s). lia. Qed.

Lemma length_trim s : length (trim s) <= length s.
Proof.
  unfold trim, trimEnd. rewrite length_reverse.
  pose proof (length_takeWhile_dropWhile isWhiteSpace (reverse (trimStart s))) as H.
  rewrite length_reverse in H. pose proof (length_trimStart s). lia.
Qed.

Lemma length_stripComment s : length (stripComment s) <= length s.
Proof.
  unfold stripComment. destruct (indexOf s (js "//")); [|done]. rewrite length_take. lia.
Qed.

Lemma length_commentFreeOf line :
  length (leadingIndent line) + length (commentFreeOf line) <= length line.
Proof.
  unfold commentFreeOf.
  pose proof (length_stripComment (drop (length (leadingIndent line)) line)) as H.
  rewrite length_drop in H.
  pose proof (length_takeWhile_dropWhile isTabOrSpace line). unfold leadingIndent in *. lia.
Qed.

Lemma parseListName_length t name :
  parseListName t = Some name -> 0 < length name <= length t.
Proof.
  intros H. split; [by eapply parseListName_nonempty|].
  assert (forall line : str,
            match line with
            | c :: r =>
                if isWordChar c || (c =? ch "$")%N
                then Some (c :: takeWhile nameChar r) else None
            | [] => None
            end = Some name -> length name <= length line) as Hline.
  { intros [|c r]; [done|]. destruct (_ || _); [|done]. intros [= <-]. cbn [length].
    pose proof (length_takeWhile_dropWhile nameChar r). lia. }
  destruct (startsWith t (js "async ")) eqn:Ea.
  - apply startsWith_spec in Ea as [r0 ->]. rewrite parseListName_after_async in H.
    apply Hline in H. rewrite length_app.
    pose proof (length_takeWhile_dropWhile isWhiteSpace r0). lia.
  - unfold parseListName in H. rewrite Ea in H. by apply Hline.
Qed.

Lemma findIfElseSingleEquals_bounds text s :
  s ∈ findIfElseSingleEquals text -> span_start s < span_end s <= length text.
Proof.
  unfold findIfElseSingleEquals. rewrite findIfElseSingleEquals_loop_scan.
  intros H. apply list_elem_of_fmap in H as ([p v] & -> & H).
  apply list_elem_of_filter in H as [_ H].
  pose proof (scan_leftmost matchBracketHere bracketWidth bracketWidth_ok
                (S (length text)) text 0 ltac:(lia)) as Hl.
  apply (leftmostMatches_elem _ _ _ _ _ _ _ Hl) in H as [_ H].
  apply bracketWidth_ok in H. rewrite length_drop in H. unfold bracketWidth in H.
  unfold spanOf. cbn [span_start span_end fst snd]. lia.
Qed.

Lemma createDiagnostic_within (lines : list str) i line s e message code data :
  lines !! i = Some line -> s < length line -> e <= length line ->
  withinLine lines (createDiagnostic i s e message code data).
Proof.
  intros Hi Hs He. unfold withinLine, createDiagnostic. cbn.
  split; [done|]. exists line. split; [done|]. lia.
Qed.

Lemma indent_nonempty_lt line :
  leadingIndent line <> [] -> 0 < length (leadingIndent line) <= length line.
Proof.
  intros H. pose proof (length_takeWhile_dropWhile isTabOrSpace line).
  unfold leadingIndent in *. destruct (takeWhile isTabOrSpace line); [done|]. simpl in *. lia.
Qed.

Lemma codeLine_nonempty line : codeLine line -> 0 < length line.
Proof.
  intros [H _]. pose proof (length_trim line). destruct (trim line); [done|]. simpl in *. lia.
Qed.

Lemma editor_emit_at (lines : list str) config i line st :
  lines !! i = Some line ->
  Forall (fun d => (exists c, d_code d = Some c /\ c ∈ ruleCodes) /\ withinLine lines d)
         (editor_emit config i line st).
Proof.
  intros Hi. unfold editor_emit, ruleCodes. repeat apply Forall_app_2.
  - destruct (checkDuplicates config); [|done]. unfold editorDuplicate.
    destruct (editorName line) as [n|] eqn:En; [|done].
    destruct (bool_decide _); [|done]. constructor; [|done].
    split; [eexists; split; [reflexivity|repeat constructor]|].
    unfold editorName in En. destruct (decide _) as [[Hc _]|]; [|done].
    apply parseListName_length in En.
    pose proof (length_trim (commentFreeOf line)). pose proof (length_commentFreeOf line).
    apply (createDiagnostic_within lines i line); [done|lia|lia].
  - destruct (decide _) as [[_ Hm]|]; [|done]. constructor; [|done].
    split; [eexists; split; [reflexivity|repeat constructor]|].
    assert (leadingIndent line <> []) as Hne.
    { destruct Hm as (_ & Hin & _). intros E. rewrite E in Hin. by apply elem_of_nil in Hin. }
    apply indent_nonempty_lt in Hne.
    apply (createDiagnostic_within lines i line); [done|lia|lia].
  - destruct (decide _) as [[_ Ho]|]; [|done]. constructor; [|done].
    split; [eexists; split; [reflexivity|repeat constructor]|].
    assert (leadingIndent line <> []) as Hne.
    { destruct Ho as (_ & Hodd). intros E. rewrite E in Hodd. done. }
    apply indent_nonempty_lt in Hne.
    apply (createDiagnostic_within lines i line); [done|lia|lia].
  - destruct (decide _); [|done]. unfold editorSingleEquals.
    apply Forall_forall. intros d Hd. apply list_elem_of_fmap in Hd as (s & -> & Hs).
    split; [eexists; split; [reflexivity|repeat constructor]|].
    apply findIfElseSingleEquals_bounds in Hs. pose proof (length_commentFreeOf line).
    apply (createDiagnostic_within lines i line); [done|lia|lia].
Qed.

Lemma withinLine_more pre more d : withinLine pre d -> withinLine (pre ++ more) d.
Proof.
  intros [H1 (line & Hl & H2)]. split; [done|]. exists line. split; [|done].
  by apply lookup_app_l_Some.
Qed.

(** The diagnostics of [analyzeDocument]: those of the references first,
    then those of the rules, each on a line before the markup boundary. *)
Lemma analyzeDocument_layout (document : list str) config :
  exists rest,
    analyzeDocument document config = unknownReferences document ++ rest
    /\ Forall (fun d => (exists c, d_code d = Some c /\ c ∈ ruleCodes)
                        /\ withinLine (take (findHtmlStart document) document) d) rest.
Proof.
  unfold analyzeDocument, analyzeDocument_scan. cbv zeta. fold (unknownReferences document).
  destruct (_ && _).
  - exists []. cbn [e_diagnostics]. by rewrite app_nil_r.
  - apply (forLines_invariant (analyzeDocument_body config)
             (fun pre st =>
                exists rest,
                  e_diagnostics st = unknownReferences document ++ rest
                  /\ Forall (fun d => (exists c, d_code d = Some c /\ c ∈ ruleCodes)
                                      /\ withinLine pre d) rest)) with (pre := []).
    + intros pre line st (rest & Hd & Hall). rewrite analyzeDocument_body_eq.
      cbn [e_diagnostics]. exists (rest ++ editor_emit config (length pre) line st).
      split; [by rewrite Hd, app_assoc|]. apply Forall_app_2.
      * eapply Forall_impl; [exact Hall|]. cbv beta. intros d [? ?].
        split; [done|by apply withinLine_more].
      * apply editor_emit_at. by rewrite lookup_app_r, Nat.sub_diag by lia.
    + exists []. cbn [e_diagnostics]. by rewrite app_nil_r.
Qed.

Lemma unknownReferences_elem (document : list str) d :
  d ∈ unknownReferences document <->
  exists r, r ∈ collectListReferences document
            /\ collectListDefinitions document !! ref_name r = None
            /\ d = {| d_range :=
                        {| range_start := {| pos_line := ref_line r;
                                             pos_character := ref_start r |};
                           range_end := {| pos_line := ref_line r;
                                           pos_character := ref_end r |} |};
                      d_message := js "Unknown list reference: " ++ ref_name r;
                      d_severity := SeverityWarning;
                      d_code := None;
                      d_data := None |}.
Proof.
  unfold unknownReferences. rewrite list_elem_of_In, in_flat_map. split.
  - intros (r & Hr & Hd). exists r. rewrite <- list_elem_of_In in Hr. split; [done|].
    unfold unknownReference in Hd.
    destruct (collectListDefinitions document !! ref_name r) eqn:E.
    + rewrite bool_decide_eq_true_2 in Hd by by eexists. done.
    + rewrite bool_decide_eq_false_2 in Hd by (intros [? ?]; done).
      destruct Hd as [<-|[]]. done.
  - intros (r & Hr & Hn & ->). exists r. rewrite <- list_elem_of_In. split; [done|].
    unfold unknownReference. rewrite Hn.
    rewrite bool_decide_eq_false_2 by (intros [? ?]; done). by left.
Qed.

Lemma lastDeclared_exists nameOf (lines : list str) name :
  (exists i line, lines !! i = Some line /\ nameOf line = Some name) ->
  exists i, lastDeclared nameOf lines name i.
Proof.
  induction lines as [|l pre IH] using rev_ind; intros (i & line & Hi & Hn); [done|].
  destruct (decide (nameOf l = Some name)) as [Hl|Hl].
  - exists (length pre). apply lastDeclared_snoc. by left.
  - apply lookup_app_Some in Hi as [Hi|[_ Hi]].
    + destruct IH as [k Hk]; [by exists i, line|]. exists k. apply lastDeclared_snoc. by right.
    + apply list_lookup_singleton_Some in Hi as [_ <-]. done.
Qed.

Lemma collectListDefinitions_none (document : list str) name :
  collectListDefinitions document !! name = None <->
  forall i line, i < findHtmlStart document -> document !! i = Some line ->
                 definedName line <> Some name.
Proof.
  split.
  - intros Hnone i line Hi Hl Hn.
    destruct (lastDeclared_exists definedName (take (findHtmlStart document) document) name)
      as [k Hk].
    { exists i, line. split; [|done]. by rewrite lookup_take_lt. }
    assert (collectListDefinitions document !! name
            = Some {| pos_line := k; pos_character := 0 |}) as E
      by by apply collectListDefinitions_spec.
    rewrite Hnone in E. done.
  - intros Hno. destruct (collectListDefinitions document !! name) as [pos|] eqn:E; [|done].
    apply collectListDefinitions_spec in E as [_ [(line & Hl & Hn) _]].
    apply lookup_take_Some in Hl as [Hl Hlt]. exfalso. by apply (Hno _ _ Hlt Hl).
Qed.

Lemma filter_code_none_rest (rest : list Diagnostic) :
  Forall (fun d => exists c, d_code d = Some c /\ c ∈ ruleCodes) rest ->
  filter (fun d => d_code d = None) rest = [].
Proof.
  intros H. apply filter_none. eapply Forall_impl; [exact H|]. cbv beta.
  intros d (c & Hc & _). congruence.
Qed.


(** X8.  Every diagnostic of [analyzeDocument] lies on one line of the
    document, is at least one character wide and ends within that line; a
    diagnostic of the rules (one that carries a code) lies before the
    markup boundary and bears one of the four rule codes. *)
Theorem analyzeDocument_diagnostics_within_lines (document : list str) (config : Config) :
  Forall (fun d =>
            withinLine document d
            /\ (forall c, d_code d = Some c ->
                  c ∈ ruleCodes
                  /\ pos_line (range_start (d_range d)) < findHtmlStart document))
         (analyzeDocument document config).
Proof.
  destruct (analyzeDocument_layout document config) as (rest & -> & Hall).
  apply Forall_app_2.
  - apply Forall_forall. intros d Hd. apply unknownReferences_elem in Hd as (r & Hr & _ & ->).
    split; [|done].
    apply (collectListReferencesWith_elem identChar eq_refl eq_refl) in Hr
      as (text & Ht & [_ Ho] & He).
    split; [done|]. exists text. cbn. split; [done|].
    apply (f_equal length) in Ho. rewrite length_take, length_drop in Ho.
    unfold referenceText in Ho. rewrite !length_app in Ho.
    change (length (js "[[")) with 2 in Ho. change (length (js "]]")) with 2 in Ho. lia.
  - eapply Forall_impl; [exact Hall|]. cbv beta. intros d [(c & Hc & Hin) Hw]. split.
    + rewrite <- (take_drop (findHtmlStart document) document). by apply withinLine_more.
    + intros c' Hc'. rewrite Hc in Hc'. injection Hc' as <-. split; [done|].
      destruct Hw as [_ (line & Hl & _)]. apply lookup_take_Some in Hl as [_ Hl]. done.
Qed.

(** ** The three toggles *)

(** Whether the configuration lets a diagnostic through: those of the
    references always, those of a rule when its check is on. *)
Definition enabledBy (config : Config) (d : Diagnostic) : bool :=
  match d_code d with
  | None => true
  | Some c =>
      if String.eqb c "perchance.duplicateListName" then checkDuplicates config
      else if String.eqb c "perchance.indentationMixed"
              || String.eqb c "perchance.indentationSpacing" then checkIndentation config
      else if String.eqb c "perchance.ifElseSingleEquals" then checkIfElseEquals config
      else true
  end.

Lemma filter_enabled config (b : bool) (l : list Diagnostic) :
  Forall (fun d => enabledBy config d = b) l ->
  filter (fun d => enabledBy config d = true) l = if b then l else [].
Proof.
  intros H. destruct b.
  - by apply filter_all.
  - apply filter_none. eapply Forall_impl; [exact H|]. cbv beta. intros d ->. done.
Qed.

Lemma editor_emit_enabled config i line st st' :
  e_functionIndentLevel st = e_functionIndentLevel st' ->
  (checkDuplicates config = true -> e_listNameIndex st = e_listNameIndex st') ->
  filter (fun d => enabledBy config d = true) (editor_emit defaultConfig i line st')
  = editor_emit config i line st.
Proof.
  intros Hlevel Hindex. unfold editor_emit. rewrite !filter_app. cbn [defaultConfig
    checkDuplicates checkIndentation checkIfElseEquals]. rewrite Hlevel. f_equal; [|f_equal; [|f_equal]].
  - rewrite (filter_enabled config (checkDuplicates config)).
    + destruct (checkDuplicates config); [|done]. by rewrite Hindex.
    + eapply Forall_impl; [apply editorDuplicate_codes|]. cbv beta.
      intros d Hd. unfold enabledBy. by rewrite Hd.
  - destruct (decide (true = true /\ mixedIndent line)) as [[_ Hm]|Hm].
    + rewrite (filter_enabled config (checkIndentation config)) by by repeat constructor.
      destruct (checkIndentation config).
      * by rewrite decide_True.
      * by rewrite decide_False by (intros [? _]; done).
    + rewrite decide_False by (intros [_ ?]; apply Hm; done). done.
  - destruct (decide (true = true /\ oddIndent line)) as [[_ Hm]|Hm].
    + rewrite (filter_enabled config (checkIndentation config)) by by repeat constructor.
      destruct (checkIndentation config).
      * by rewrite decide_True.
      * by rewrite decide_False by (intros [? _]; done).
    + rewrite decide_False by (intros [_ ?]; apply Hm; done). done.
  - destruct (decide (true = true /\ codeLine line /\ _)) as [[_ Hm]|Hm].
    + rewrite (filter_enabled config (checkIfElseEquals config)).
      * destruct (checkIfElseEquals config).
        -- by rewrite decide_True.
        -- by rewrite decide_False by (intros [? _]; done).
      * eapply Forall_impl; [apply editorSingleEquals_codes|]. cbv beta.
        intros d Hd. unfold enabledBy. by rewrite Hd.
    + rewrite decide_False by (intros [_ ?]; apply Hm; done). done.
Qed.

Lemma forLines_enabled config rest k st st' :
  e_diagnostics st = filter (fun d => enabledBy config d = true) (e_diagnostics st') ->
  e_functionIndentLevel st = e_functionIndentLevel st' ->
  (checkDuplicates config = true -> e_listNameIndex st = e_listNameIndex st') ->
  e_diagnostics (forLines (analyzeDocument_body config) rest k st)
  = filter (fun d => enabledBy config d = true)
           (e_diagnostics (forLines (analyzeDocument_body defaultConfig) rest k st')).
Proof.
  revert k st st'. induction rest as [|line rest IH]; intros k st st' Hd Hl Hi; [done|].
  cbn [forLines]. apply IH; rewrite !analyzeDocument_body_eq;
    cbn [e_diagnostics e_functionIndentLevel e_listNameIndex defaultConfig checkDuplicates].
  - rewrite filter_app, <- Hd. f_equal. symmetry. by apply editor_emit_enabled.
  - by rewrite Hl.
  - intros Hc. rewrite Hc. by rewrite Hi.
Qed.

(** X9.  The three toggles only filter: under any configuration
    [analyzeDocument] reports the diagnostics that it reports with every
    check on, in the same order, less those of the rules that are off.
    Turning one check off changes no finding of another rule. *)
Theorem analyzeDocument_toggles_filter (document : list str) (config : Config) :
  analyzeDocument document config
  = filter (fun d => enabledBy config d = true) (analyzeDocument document defaultConfig).
Proof.
  destruct (negb (checkDuplicates config) && negb (checkIndentation config)
            && negb (checkIfElseEquals config)) eqn:Eoff.
  - destruct (analyzeDocument_layout document defaultConfig) as (rest & -> & Hall).
    unfold analyzeDocument at 1, analyzeDocument_scan. rewrite Eoff. cbn [e_diagnostics].
    fold (unknownReferences document). rewrite filter_app.
    rewrite (filter_enabled config true).
    + rewrite (filter_enabled config false); [by rewrite app_nil_r|].
      destruct config as [[] [] []]; try discriminate Eoff.
      eapply Forall_impl; [exact Hall|]. cbv beta. intros d [(c & Hc & Hin) _].
      unfold enabledBy. rewrite Hc. unfold ruleCodes in Hin.
      repeat (apply elem_of_cons in Hin as [->|Hin]; [reflexivity|]).
      by apply elem_of_nil in Hin.
    + eapply Forall_impl; [apply unknownReference_codes|]. cbv beta.
      intros d Hd. unfold enabledBy. by rewrite Hd.
  - unfold analyzeDocument, analyzeDocument_scan. rewrite Eoff. cbn [negb andb defaultConfig
      checkDuplicates checkIndentation checkIfElseEquals]. cbv zeta.
    apply forLines_enabled; cbn [e_diagnostics e_functionIndentLevel e_listNameIndex];
      [|done|done].
    symmetry. apply filter_all. eapply Forall_impl; [apply unknownReference_codes|].
    cbv beta. intros d Hd. unfold enabledBy. by rewrite Hd.
Qed.

(** ** The single-equals findings of the two analyzers *)

(** The function level after the lines of [pre], as the loop of
    [analyzeDocument] tracks it. *)
Definition levelAfter (pre : list str) : option nat :=
  foldl (fun level line => functionLevelStep line level) None pre.

(** The lines of the single-equals findings, one entry for each finding. *)
Definition singleEqualsOn (i : nat) (line : str) : list nat :=
  replicate (length (findIfElseSingleEquals (commentFreeOf line))) i.

Lemma batch_emit_singleEquals i line st :
  batchLinesWith "single-equals" (batch_emit i line st)
  = if decide (codeLine line) then singleEqualsOn i line else [].
Proof.
  unfold batch_emit. rewrite !batchLinesWith_app.
  rewrite (batchLinesWith_none _ (batchDuplicate _ _ _))
    by (eapply Forall_code_other; [|apply batchDuplicate_codes]; done).
  rewrite (batchLinesWith_none _ (if decide (mixedIndent line) then _ else _))
    by (destruct (decide (mixedIndent line)); repeat constructor; done).
  rewrite (batchLinesWith_none _ (if decide (oddIndent line) then _ else _))
    by (destruct (decide (oddIndent line)); repeat constructor; done).
  cbn [app]. unfold batchSingleEquals. destruct (decide (codeLine line)); [|done].
  unfold singleEqualsOn, commentFreeOf, batchLinesWith.
  induction (findIfElseSingleEquals _) as [|s l IH]; [done|].
  cbn [map length replicate]. rewrite filter_cons_True by done. cbn [fmap list_fmap].
  unfold batchWarning at 1. cbn [w_line]. f_equal; [lia|exact IH].
Qed.

Lemma editor_emit_singleEquals config i line st :
  editorLinesWith "perchance.ifElseSingleEquals" (editor_emit config i line st)
  = if decide (checkIfElseEquals config = true /\ codeLine line
               /\ suppressedUnder (functionLevelStep line (e_functionIndentLevel st)) line
                  = false)
    then singleEqualsOn i line else [].
Proof.
  unfold editor_emit. rewrite !editorLinesWith_app.
  rewrite (editorLinesWith_none _ (if checkDuplicates config then _ else _)).
  2:{ destruct (checkDuplicates config); [|constructor].
      eapply Forall_ocode_other; [|apply editorDuplicate_codes]. done. }
  rewrite (editorLinesWith_none _ (if decide (_ /\ mixedIndent line) then _ else _)).
  2:{ destruct (decide (_ /\ mixedIndent line)); repeat constructor. done. }
  rewrite (editorLinesWith_none _ (if decide (_ /\ oddIndent line) then _ else _)).
  2:{ destruct (decide (_ /\ oddIndent line)); repeat constructor. done. }
  cbn [app]. destruct (decide _); [|done].
  unfold editorSingleEquals, singleEqualsOn, editorLinesWith.
  induction (findIfElseSingleEquals _) as [|s l IH]; [done|].
  cbn [map length replicate]. rewrite filter_cons_True by done. cbn [fmap list_fmap].
  f_equal. exact IH.
Qed.

Lemma levelAfter_snoc pre line :
  levelAfter (pre ++ [line]) = functionLevelStep line (levelAfter pre).
Proof. unfold levelAfter. by rewrite foldl_app. Qed.

(** The single-equals findings of the batch script, line by line. *)
Lemma batch_singleEquals_lines (lines : list str) :
  batchLinesWith "single-equals" (analyzePerchance_lines lines)
  = perLine (fun _ i line => if decide (codeLine line) then singleEqualsOn i line else [])
            [] (take (findHtmlStart lines) lines).
Proof.
  unfold analyzePerchance_lines. rewrite batchLinesWith_app.
  rewrite (batchLinesWith_none _ (listAfterHtml_loop _ _))
    by (eapply Forall_code_other; [|apply listAfterHtml_loop_codes]; done).
  rewrite app_nil_r.
  apply (analyzePerchance_scan_perLine lines (batchLinesWith "single-equals")
           (fun _ i line => if decide (codeLine line) then singleEqualsOn i line else [])
           (fun _ _ => True)); [apply batchLinesWith_app|done| |done].
  intros pre line st _. split; [|done]. apply batch_emit_singleEquals.
Qed.

(** The single-equals findings of the engine, line by line. *)
Lemma editor_singleEquals_lines (lines : list str) config :
  editorLinesWith "perchance.ifElseSingleEquals" (analyzeDocument lines config)
  = perLine (fun pre i line =>
               if decide (checkIfElseEquals config = true /\ codeLine line
                          /\ suppressedUnder (functionLevelStep line (levelAfter pre)) line
                             = false)
               then singleEqualsOn i line else [])
            [] (take (findHtmlStart lines) lines).
Proof.
  destruct (negb (checkDuplicates config) && negb (checkIndentation config)
            && negb (checkIfElseEquals config)) eqn:Eoff.
  - unfold analyzeDocument, analyzeDocument_scan. rewrite Eoff. cbn [e_diagnostics].
    rewrite editorLinesWith_none
      by (eapply Forall_ocode_other; [|apply unknownReference_codes]; done).
    assert (checkIfElseEquals config = false) as Hoff
      by (destruct (checkIfElseEquals config); [by rewrite andb_false_r in Eoff|done]).
    symmetry. generalize (@nil str).
    induction (take (findHtmlStart lines) lines) as [|line rest IH]; intros pre; [done|].
    cbn [perLine]. rewrite IH. rewrite decide_False; [done|]. rewrite Hoff. by intros [? _].
  - destruct (analyzeDocument_scan_perLine lines config
                (editorLinesWith "perchance.ifElseSingleEquals")
                (fun pre i line =>
                   if decide (checkIfElseEquals config = true /\ codeLine line
                              /\ suppressedUnder (functionLevelStep line (levelAfter pre)) line
                                 = false)
                   then singleEqualsOn i line else [])
                (fun pre st => e_functionIndentLevel st = levelAfter pre))
      as [Heq _]; [done|apply editorLinesWith_app| |done|].
    + intros pre line st Hinv. split.
      * rewrite editor_emit_singleEquals. by rewrite Hinv.
      * rewrite analyzeDocument_body_eq. cbn [e_functionIndentLevel].
        rewrite levelAfter_snoc. by rewrite Hinv.
    + rewrite Heq. rewrite editorLinesWith_none
        by (eapply Forall_ocode_other; [|apply unknownReference_codes]; done).
      done.
Qed.

Lemma perLine_sublist {B} (g1 g2 : list str -> nat -> str -> list B) pre rest :
  (forall p i line, sublist (g1 p i line) (g2 p i line)) ->
  sublist (perLine g1 pre rest) (perLine g2 pre rest).
Proof.
  intros H. revert pre. induction rest as [|line rest IH]; intros pre; [done|].
  cbn [perLine]. by apply sublist_app.
Qed.

Lemma perLine_same {B} (g1 g2 : list str -> nat -> str -> list B) pre rest :
  (forall j line, rest !! j = Some line ->
     g1 (pre ++ take j rest) (length pre + j) line
     = g2 (pre ++ take j rest) (length pre + j) line) ->
  perLine g1 pre rest = perLine g2 pre rest.
Proof.
  revert pre. induction rest as [|line rest IH]; intros pre H; [done|].
  cbn [perLine]. f_equal.
  - specialize (H 0 line eq_refl). cbn [take] in H.
    by rewrite app_nil_r, Nat.add_0_r in H.
  - apply IH. intros j l Hj. specialize (H (S j) l Hj). cbn [take] in H.
    rewrite length_app. cbn [length]. rewrite <- app_assoc. cbn [app].
    by replace (length pre + 1 + j) with (length pre + S j) by lia.
Qed.

Lemma levelAfter_none (pre : list str) :
  Forall (fun line => codeLine line -> isFunctionListStart (trim (commentFreeOf line)) = false)
         pre ->
  levelAfter pre = None.
Proof.
  induction pre as [|line pre IH] using rev_ind; intros H; [done|].
  apply Forall_app in H as [Hpre Hline]. apply Forall_inv in Hline.
  rewrite levelAfter_snoc, (IH Hpre). unfold functionLevelStep.
  destruct (decide (codeLine line)) as [Hc|]; [|done]. by rewrite (Hline Hc).
Qed.

(** X10.  On every document the single-equals findings of the engine are
    among those of the batch script, line for line and in the same order:
    the engine leaves out the lines that it takes for the body of a
    function list, and nothing else.  When the check is on and no line of
    the list region opens a function list for [isFunctionListStart], the
    two report the same lines. *)
Theorem single_equals_engine_within_batch :
  (forall (lines : list str) (config : Config),
     sublist (editorLinesWith "perchance.ifElseSingleEquals" (analyzeDocument lines config))
             (batchLinesWith "single-equals" (analyzePerchance_lines lines)))
  /\ (forall (lines : list str) (config : Config),
        checkIfElseEquals config = true ->
        (forall i line, i < findHtmlStart lines -> lines !! i = Some line -> codeLine line ->
                        isFunctionListStart (trim (commentFreeOf line)) = false) ->
        editorLinesWith "perchance.ifElseSingleEquals" (analyzeDocument lines config)
        = batchLinesWith "single-equals" (analyzePerchance_lines lines))
  /\ (let lines := [js "fn = x=>"; ch "009" :: js "[a = 1 ? 2 : 3] [b = 1 ? 2 : 3]";
                    js "[c = 1 ? 2 : 3]"] in
      editorLinesWith "perchance.ifElseSingleEquals" (analyzeDocument lines defaultConfig) = [2]
      /\ batchLinesWith "single-equals" (analyzePerchance_lines lines) = [1; 1; 2]).
Proof.
  split; [|split; [|split; vm_compute; reflexivity]].
  - intros lines config. rewrite editor_singleEquals_lines, batch_singleEquals_lines.
    apply perLine_sublist. intros p i line.
    destruct (decide (_ /\ _ /\ _)) as [(_ & Hc & _)|_].
    + by rewrite decide_True.
    + apply sublist_nil_l.
  - intros lines config Hon Hplain.
    rewrite editor_singleEquals_lines, batch_singleEquals_lines.
    apply perLine_same. intros j line Hj. cbn [app length].
    assert (levelAfter (take j (take (findHtmlStart lines) lines)) = None) as Hnone.
    { apply levelAfter_none. apply Forall_forall. intros l Hl Hc.
      apply list_elem_of_lookup_1 in Hl as [k Hk].
      apply lookup_take_Some in Hk as [Hk _]. apply lookup_take_Some in Hk as [Hk Hlt].
      by apply (Hplain k l). }
    rewrite Hnone.
    assert (functionLevelStep line None = None) as ->.
    { unfold functionLevelStep. destruct (decide (codeLine line)) as [Hc|]; [|done].
      apply lookup_take_Some in Hj as [Hj Hlt]. by rewrite (Hplain j line). }
    cbn [suppressedUnder]. destruct (decide (codeLine line)) as [Hc|Hc].
    + by rewrite decide_True.
    + by rewrite decide_False by (intros (_ & ? & _); done).
Qed.

(** * The providers of the extension *)

(** ** Folding ([provideFoldingRanges] of [registerFoldingProvider]) *)

Definition LANGUAGE_ID : string := "perchance".

Record FoldingRange := { fold_start : nat; fold_end : nat }.

(** The body of the first loop: the lines that are neither blank nor a
    comment and do not start with white space ([!/^\s/.test(line)]). *)
Definition listStarts_body (index : nat) (line : str) (listStarts : list nat) : list nat :=
  let trimmed := trim line in
  if eqs trimmed [] || startsWith trimmed (js "//") then listStarts
  else if negb (match line with c :: _ => isWhiteSpace c | [] => false end)
       then listStarts ++ [index]
       else listStarts.

(** The second loop, at the index whose element is the head of
    [listStarts].  [nextStart - 1] is never negative where it matters: a
    start that is there makes [nextStart] positive. *)
Fixpoint foldingRanges_loop (listStarts : list nat) (htmlStart : nat) : list FoldingRange :=
  match listStarts with
  | [] => []
  | start :: rest =>
      let nextStart := match rest with next :: _ => next | [] => htmlStart end in
      let end_ := nextStart - 1 in
      (if start <? end_ then [{| fold_start := start; fold_end := end_ |}] else [])
      ++ foldingRanges_loop rest htmlStart
  end.

Definition provideFoldingRanges (languageId : string) (lines : list str) : list FoldingRange :=
  if negb (String.eqb languageId LANGUAGE_ID) then []
  else
    let htmlStart := findHtmlStart lines in
    let listStarts := forLines listStarts_body (take htmlStart lines) 0 [] in
    foldingRanges_loop listStarts htmlStart.

(** A line that opens a top-level list for the folding provider. *)
Definition topLevelLine (line : str) : Prop := codeLine line /\ unindented line.

Definition topLevelAt (lines : list str) (k : nat) : Prop :=
  k < findHtmlStart lines /\ exists line, lines !! k = Some line /\ topLevelLine line.

Definition increasing (numbers : list nat) : Prop :=
  forall i j a b, i < j -> numbers !! i = Some a -> numbers !! j = Some b -> a < b.

Lemma increasing_cons a l :
  increasing (a :: l) -> increasing l /\ forall b, b ∈ l -> a < b.
Proof.
  intros H. split.
  - intros i j x y Hij Hi Hj. apply (H (S i) (S j)); [lia|done|done].
  - intros b Hb. apply list_elem_of_lookup_1 in Hb as [j Hj].
    apply (H 0 (S j)); [lia|done|done].
Qed.

Lemma listStarts_body_eq index line listStarts :
  listStarts_body index line listStarts
  = listStarts ++ (if decide (topLevelLine line) then [index] else []).
Proof.
  unfold listStarts_body. cbv zeta.
  destruct (eqs (trim line) [] || startsWith (trim line) (js "//")) eqn:E.
  - apply skipped_not_codeLine in E. rewrite decide_False by (intros [? _]; done).
    by rewrite app_nil_r.
  - apply kept_codeLine in E.
    destruct (negb match line with c :: _ => isWhiteSpace c | [] => false end) eqn:Ew.
    + rewrite decide_True; [done|]. split; [done|]. unfold unindented.
      destruct line as [|c r]; [done|]. by destruct (isWhiteSpace c).
    + rewrite decide_False; [by rewrite app_nil_r|]. intros [_ Hu]. unfold unindented in Hu.
      destruct line as [|c r]; [done|]. by rewrite Hu in Ew.
Qed.

Lemma listStarts_spec (region : list str) :
  let listStarts := forLines listStarts_body region 0 [] in
  increasing listStarts
  /\ forall k, k ∈ listStarts <-> exists line, region !! k = Some line /\ topLevelLine line.
Proof.
  cbv zeta.
  apply (forLines_invariant listStarts_body
           (fun pre st =>
              increasing st
              /\ forall k, k ∈ st <-> exists line, pre !! k = Some line /\ topLevelLine line))
    with (pre := []).
  - intros pre line st [Hinc Hmem]. rewrite listStarts_body_eq. split.
    + intros i j a b Hij Hi Hj.
      apply lookup_app_Some in Hj as [Hj|[Hjl Hj]].
      * rewrite lookup_app_l in Hi by (apply lookup_lt_Some in Hj; lia). eauto.
      * destruct (decide (topLevelLine line)); [|done].
        apply list_lookup_singleton_Some in Hj as [Hj0 <-].
        rewrite lookup_app_l in Hi by lia.
        apply list_elem_of_lookup_2, Hmem in Hi as (l & Hl & _).
        by apply lookup_lt_Some in Hl.
    + intros k. rewrite elem_of_app, Hmem. split.
      * intros [(l & Hl & Ht)|Hk].
        -- exists l. split; [by apply lookup_app_l_Some|done].
        -- destruct (decide (topLevelLine line)) as [Ht|]; [|by apply elem_of_nil in Hk].
           apply list_elem_of_singleton in Hk as ->. exists line.
           split; [|done]. by rewrite lookup_app_r, Nat.sub_diag by lia.
      * intros (l & Hl & Ht). apply lookup_app_Some in Hl as [Hl|[Hkl Hl]].
        -- left. by exists l.
        -- right. apply list_lookup_singleton_Some in Hl as [Hk0 <-].
           rewrite decide_True by done. apply list_elem_of_singleton. lia.
  - split; [by intros i j a b _ Hi|]. intros k. split; [by intros ?%elem_of_nil|].
    by intros (l & Hl & _).
Qed.

Lemma foldingRanges_loop_spec (l : list nat) h r :
  increasing l -> Forall (fun s => s < h) l ->
  r ∈ foldingRanges_loop l h <->
  fold_start r ∈ l /\ fold_start r < fold_end r /\ fold_end r < h
  /\ (forall k, fold_start r < k <= fold_end r -> k ∉ l)
  /\ (S (fold_end r) = h \/ S (fold_end r) ∈ l).
Proof.
  induction l as [|start rest IH]; intros Hinc Hlt; cbn [foldingRanges_loop].
  - split; [by intros ?%elem_of_nil|]. by intros [?%elem_of_nil _].
  - apply increasing_cons in Hinc as [Hinc Hhead]. apply Forall_cons in Hlt as [Hs Hlt].
    specialize (IH Hinc Hlt). rewrite elem_of_app, IH. clear IH.
    set (nextStart := match rest with next :: _ => next | [] => h end).
    assert (start < nextStart <= h) as Hnext.
    { subst nextStart. destruct rest as [|n rest']; [lia|].
      apply Forall_inv in Hlt. specialize (Hhead n ltac:(by left)). lia. }
    assert (forall k, k ∈ rest -> nextStart <= k) as Hmin.
    { subst nextStart. intros k Hk. destruct rest as [|n rest']; [by apply elem_of_nil in Hk|].
      apply elem_of_cons in Hk as [->|Hk]; [lia|].
      apply increasing_cons in Hinc as [_ Hn]. specialize (Hn k Hk). lia. }
    assert (nextStart = h \/ nextStart ∈ rest) as Hcase.
    { subst nextStart. destruct rest; [by left|right; by left]. }
    split.
    + intros [Hhd|(Hin & Hse & Heh & Hgap & Hend)].
      * destruct (Nat.ltb_spec start (nextStart - 1)) as [Hlt'|]; [|by apply elem_of_nil in Hhd].
        apply list_elem_of_singleton in Hhd as ->. cbn [fold_start fold_end].
        split; [by left|]. split; [done|]. split; [lia|]. split.
        -- intros k Hk Hin. apply elem_of_cons in Hin as [->|Hin]; [lia|].
           apply Hmin in Hin. lia.
        -- replace (S (nextStart - 1)) with nextStart by lia.
           destruct Hcase as [?|?]; [by left|right; by right].
      * split; [by right|]. split; [done|]. split; [done|]. split.
        -- intros k Hk Hin'. apply elem_of_cons in Hin' as [->|Hin'].
           ++ specialize (Hhead _ Hin). lia.
           ++ by apply (Hgap k).
        -- destruct Hend as [?|?]; [by left|right; by right].
    + intros (Hin & Hse & Heh & Hgap & Hend).
      apply elem_of_cons in Hin as [Hst|Hin].
      * left. assert (S (fold_end r) = nextStart) as Hfe.
        { destruct Hcase as [Hh|Hr].
          - destruct Hend as [?|Hend]; [lia|].
            apply elem_of_cons in Hend as [?|Hend]; [lia|]. apply Hmin in Hend. lia.
          - destruct (decide (nextStart <= fold_end r)) as [Hle|Hgt].
            + exfalso. apply (Hgap nextStart); [lia|by right].
            + destruct Hend as [?|Hend]; [lia|].
              apply elem_of_cons in Hend as [?|Hend]; [lia|]. apply Hmin in Hend. lia. }
        rewrite <- Hfe. replace (S (fold_end r) - 1) with (fold_end r) by lia.
        rewrite <- Hst. destruct (Nat.ltb_spec (fold_start r) (fold_end r)); [|lia].
        apply list_elem_of_singleton. by destruct r.
      * right. split; [done|]. split; [done|]. split; [done|]. split.
        -- intros k Hk Hin'. apply (Hgap k Hk). by right.
        -- destruct Hend as [?|Hend]; [by left|].
           apply elem_of_cons in Hend as [Heq|Hend]; [|by right].
           specialize (Hhead _ Hin). lia.
Qed.

Lemma foldingRanges_loop_apart (l : list nat) h :
  increasing l -> Forall (fun s => s < h) l ->
  forall i j a b, i < j ->
    foldingRanges_loop l h !! i = Some a -> foldingRanges_loop l h !! j = Some b ->
    fold_end a < fold_start b.
Proof.
  induction l as [|start rest IH]; intros Hinc Hlt i j a b Hij Hi Hj;
    cbn [foldingRanges_loop] in *; [done|].
  pose proof Hinc as Hinc0.
  apply increasing_cons in Hinc as [Hinc Hhead]. apply Forall_cons in Hlt as [Hs Hlt].
  set (nextStart := match rest with next :: _ => next | [] => h end) in *.
  assert (forall k, k ∈ rest -> nextStart <= k) as Hmin.
  { subst nextStart. intros k Hk. destruct rest as [|n rest']; [by apply elem_of_nil in Hk|].
    apply elem_of_cons in Hk as [->|Hk]; [lia|].
    apply increasing_cons in Hinc as [_ Hn]. specialize (Hn k Hk). lia. }
  destruct (Nat.ltb_spec start (nextStart - 1)) as [Hlt'|].
  - cbn [app] in Hi, Hj. destruct j as [|j]; [lia|]. cbn in Hj.
    destruct i as [|i].
    + cbn in Hi. injection Hi as <-. cbn [fold_end].
      apply list_elem_of_lookup_2 in Hj.
      apply foldingRanges_loop_spec in Hj as [Hin _]; [|done|done]. apply Hmin in Hin. lia.
    + cbn in Hi. apply (IH Hinc Hlt i j); [lia|done|done].
  - cbn [app] in Hi, Hj. by apply (IH Hinc Hlt i j).
Qed.

(** X11.  The folding ranges of a Perchance document are exactly the
    stretches that start at a top-level line (not blank, not a comment,
    not starting with white space) before the markup boundary, hold no
    other top-level line, are at least two lines long and end on the line
    before the next top-level line, or before the boundary after the last
    one.  They come in the order of the document and never overlap; a
    document of another language gets none. *)
Theorem provideFoldingRanges_top_level_blocks :
  (forall (lines : list str) r,
     r ∈ provideFoldingRanges LANGUAGE_ID lines <->
     topLevelAt lines (fold_start r)
     /\ fold_start r < fold_end r /\ fold_end r < findHtmlStart lines
     /\ (forall k, fold_start r < k <= fold_end r -> ~ topLevelAt lines k)
     /\ (S (fold_end r) = findHtmlStart lines \/ topLevelAt lines (S (fold_end r))))
  /\ (forall (lines : list str) i j a b,
        i < j ->
        provideFoldingRanges LANGUAGE_ID lines !! i = Some a ->
        provideFoldingRanges LANGUAGE_ID lines !! j = Some b ->
        fold_end a < fold_start b)
  /\ (forall (languageId : string) (lines : list str),
        languageId <> LANGUAGE_ID -> provideFoldingRanges languageId lines = [])
  /\ provideFoldingRanges LANGUAGE_ID
       [js "a"; js "  x"; js ""; js "b"; js "c"; js "  y"; js "// note"; js "";
        js "<p>[[a]]</p>"; js "  z"]
     = [{| fold_start := 0; fold_end := 2 |}; {| fold_start := 4; fold_end := 7 |}].
Proof.
  assert (forall lines : list str,
            let listStarts := forLines listStarts_body (take (findHtmlStart lines) lines) 0 [] in
            increasing listStarts /\ Forall (fun s => s < findHtmlStart lines) listStarts
            /\ forall k, k ∈ listStarts <-> topLevelAt lines k) as Hstarts.
  { intros lines. cbv zeta.
    destruct (listStarts_spec (take (findHtmlStart lines) lines)) as [Hinc Hmem].
    assert (forall k, k ∈ forLines listStarts_body (take (findHtmlStart lines) lines) 0 []
                      <-> topLevelAt lines k) as Hmem'.
    { intros k. rewrite Hmem. unfold topLevelAt. split.
      - intros (l & Hl & Ht). apply lookup_take_Some in Hl as [Hl Hlt]. split; [done|].
        by exists l.
      - intros (Hlt & l & Hl & Ht). exists l. split; [|done]. by rewrite lookup_take_lt. }
    split; [done|]. split; [|done].
    apply Forall_forall. intros k Hk. apply Hmem' in Hk as [Hk _]. done. }
  split; [|split; [|split; [|vm_compute; reflexivity]]].
  - intros lines r. destruct (Hstarts lines) as (Hinc & Hlt & Hmem).
    unfold provideFoldingRanges. rewrite String.eqb_refl. cbn [negb]. cbv zeta.
    rewrite (foldingRanges_loop_spec _ _ r Hinc Hlt). rewrite !Hmem.
    split; intros (H1 & H2 & H3 & H4 & H5); (split; [done|]); (split; [done|]);
      (split; [done|]); (split; [|done]); intros k Hk; specialize (H4 k Hk);
      by rewrite ?Hmem in *.
  - intros lines i j a b Hij. destruct (Hstarts lines) as (Hinc & Hlt & _).
    unfold provideFoldingRanges. rewrite String.eqb_refl. cbn [negb]. cbv zeta.
    by apply foldingRanges_loop_apart.
  - intros languageId lines Hne. unfold provideFoldingRanges.
    apply String.eqb_neq in Hne. by rewrite Hne.
Qed.

(** ** Formatting ([provideDocumentFormattingEdits]) *)

(** The three settings under [format.], each with its default applied; the
    indent size is a whole number. *)
Record FormatConfig := {
  indentSize : nat;
  trimTrailingWhitespace : bool;
  normalizeListIndent : bool
}.

(** [vscode.TextEdit.replace(line.range, newText)]: the whole of one line
    is replaced. *)
Record TextEdit := { edit_line : nat; edit_newText : str }.

(** [text.replace(/[\t ]+$/, "")]: the run of tabs and spaces that ends the
    text is removed. *)
Definition stripTrailingBlanks (text : str) : str :=
  reverse (dropWhile isTabOrSpace (reverse text)).

Record FormatState := { f_edits : list TextEdit; f_inListBlock : bool }.

Section Formatting.

(** [LIST_BLOCK_HEADER_REGEX.test], of the version at hand. *)
Variable isBlockHeader : str -> bool.

(** The body of the loop over the lines of the document. *)
Definition formatting_body (config : FormatConfig) (lineIndex : nat) (lineText : str)
    (st : FormatState) : FormatState :=
  let size := Nat.max 1 (indentSize config) in
  let text := if trimTrailingWhitespace config then stripTrailingBlanks lineText else lineText in
  let trimmed := trim text in
  if eqs trimmed [] then {| f_edits := f_edits st; f_inListBlock := false |}
  else if startsWith trimmed (js "//") || startsWith trimmed (js "<")
  then {| f_edits := f_edits st; f_inListBlock := false |}
  else if isBlockHeader trimmed then {| f_edits := f_edits st; f_inListBlock := true |}
  else if f_inListBlock st && match text with c :: _ => isWhiteSpace c | [] => false end then
    if normalizeListIndent config then
      let normalized := replicate size (ch " ") ++ trimmed in
      if negb (eqs text normalized)
      then {| f_edits := f_edits st ++ [{| edit_line := lineIndex; edit_newText := normalized |}];
              f_inListBlock := f_inListBlock st |}
      else st
    else st
  else {| f_edits := f_edits st; f_inListBlock := false |}.

Definition formattingEditsWith (config : FormatConfig) (document : list str) : list TextEdit :=
  f_edits (forLines (formatting_body config) document 0
                    {| f_edits := []; f_inListBlock := false |}).

End Formatting.

(** The formatting provider of the current [extension.js]. *)
Definition provideDocumentFormattingEdits : FormatConfig -> list str -> list TextEdit :=
  formattingEditsWith (fun trimmed => bool_decide (is_Some (LIST_BLOCK_HEADER_REGEX trimmed))).

(** That of the earlier [src/extension.js]: no setting is read, the lines
    are taken as they are and the indent is two spaces. *)
Definition legacy_provideDocumentFormattingEdits : list str -> list TextEdit :=
  formattingEditsWith
    (fun trimmed => bool_decide (is_Some (Legacy.LIST_BLOCK_HEADER_REGEX trimmed)))
    {| indentSize := 2; trimTrailingWhitespace := false; normalizeListIndent := true |}.

(** The document after the editor has applied the edits. *)
Definition applyEdits (edits : list TextEdit) (document : list str) : list str :=
  foldl (fun lines e => <[edit_line e := edit_newText e]> lines) document edits.

(** *** Trimming *)

(** A text that neither starts nor ends with white space, and is not
    empty: what [trim] leaves of a line that is not blank. *)
Definition trimmedText (c : str) : Prop :=
  (exists x m, c = x :: m /\ isWhiteSpace x = false)
  /\ (exists m y, c = m ++ [y] /\ isWhiteSpace y = false).

Lemma dropWhile_app_all {A} (p : A -> bool) (w z : list A) :
  Forall (fun x => p x = true) w -> dropWhile p (w ++ z) = dropWhile p z.
Proof. induction 1 as [|x w Hx _ IH]; [done|]. cbn [app dropWhile]. by rewrite Hx. Qed.

Lemma dropWhile_app_stop {A} (p : A -> bool) (s b : list A) :
  dropWhile p s <> [] -> dropWhile p (s ++ b) = dropWhile p s ++ b.
Proof.
  induction s as [|x s IH]; [done|]. cbn [app dropWhile]. destruct (p x); [exact IH|done].
Qed.

Lemma dropWhile_all_nil {A} (p : A -> bool) (s : list A) :
  Forall (fun x => p x = true) s -> dropWhile p s = [].
Proof. intros H. rewrite <- (app_nil_r s). by rewrite dropWhile_app_all. Qed.

Lemma dropWhile_stays {A} (p : A -> bool) x (s : list A) :
  p x = false -> dropWhile p (x :: s) = x :: s.
Proof. intros H. cbn [dropWhile]. by rewrite H. Qed.

Lemma trim_trimmedText t : trim t <> [] -> trimmedText (trim t).
Proof.
  unfold trim, trimEnd, trimStart.
  set (u := dropWhile isWhiteSpace t).
  pose proof (takeWhile_dropWhile isWhiteSpace (reverse u)) as Hsplit.
  destruct (dropWhile isWhiteSpace (reverse u)) as [|y v'] eqn:Ev; [done|]. intros _.
  pose proof (dropWhile_head _ _ _ _ Ev) as Hy.
  rewrite reverse_cons. split; [|by exists (reverse v'), y].
  apply (f_equal reverse) in Hsplit. rewrite reverse_involutive, reverse_app in Hsplit.
  rewrite reverse_cons in Hsplit.
  destruct u as [|x u'] eqn:Eu.
  { destruct (reverse v'); discriminate Hsplit. }
  pose proof (dropWhile_head _ _ _ _ Eu) as Hx.
  destruct (reverse v' ++ [y]) as [|x' m] eqn:Em.
  { destruct (reverse v'); discriminate Em. }
  cbn [app] in Hsplit. injection Hsplit as Hxx _. subst x'. by exists x, m.
Qed.

Lemma trim_around blanks c :
  Forall (fun x => isWhiteSpace x = true) blanks -> trimmedText c -> trim (blanks ++ c) = c.
Proof.
  intros Hb [(x & m & -> & Hx) (m' & y & Hc & Hy)]. unfold trim, trimStart, trimEnd.
  rewrite dropWhile_app_all by done. rewrite dropWhile_stays by done.
  rewrite Hc, reverse_app. cbn [reverse app]. rewrite reverse_singleton. cbn [app].
  rewrite dropWhile_stays by done. by rewrite reverse_cons, reverse_involutive.
Qed.

Lemma tabOrSpace_whiteSpace c : isTabOrSpace c = true -> isWhiteSpace c = true.
Proof.
  unfold isTabOrSpace. intros H. apply orb_true_iff in H as [H|H];
    apply N.eqb_eq in H as ->; reflexivity.
Qed.

Lemma stripTrailingBlanks_around blanks c :
  trimmedText c -> stripTrailingBlanks (blanks ++ c) = blanks ++ c.
Proof.
  intros [_ (m' & y & -> & Hy)]. unfold stripTrailingBlanks.
  rewrite app_assoc, reverse_app, reverse_singleton. cbn [app].
  rewrite dropWhile_stays.
  - by rewrite reverse_cons, reverse_involutive.
  - destruct (isTabOrSpace y) eqn:E; [|done]. apply tabOrSpace_whiteSpace in E. congruence.
Qed.

Lemma trim_app_blanks s b :
  Forall (fun x => isWhiteSpace x = true) b -> trim (s ++ b) = trim s.
Proof.
  intros Hb. unfold trim, trimStart.
  destruct (dropWhile isWhiteSpace s) as [|x u] eqn:Eu.
  - apply dropWhile_nil_all in Eu. rewrite dropWhile_all_nil; [done|].
    by apply Forall_app_2.
  - rewrite dropWhile_app_stop by by rewrite Eu. rewrite Eu. unfold trimEnd.
    rewrite reverse_app. rewrite dropWhile_app_all; [done|]. by apply Forall_reverse.
Qed.

Lemma trim_stripTrailingBlanks l : trim (stripTrailingBlanks l) = trim l.
Proof.
  pose proof (takeWhile_dropWhile isTabOrSpace (reverse l)) as Hsplit.
  apply (f_equal reverse) in Hsplit. rewrite reverse_involutive, reverse_app in Hsplit.
  fold (stripTrailingBlanks l) in Hsplit. rewrite <- Hsplit at 2.
  symmetry. apply trim_app_blanks. apply Forall_reverse.
  eapply Forall_impl; [apply takeWhile_all|]. apply tabOrSpace_whiteSpace.
Qed.

(** *** The edits, line by line *)

Section FormattingFacts.

Variable isBlockHeader : str -> bool.
Variable config : FormatConfig.

(** What the loop does with one line when it is reached with the flag
    [inBlock]: the text that replaces the line, if any, and the flag after
    the line. *)
Definition formatLine (inBlock : bool) (lineText : str) : option str * bool :=
  let text := if trimTrailingWhitespace config then stripTrailingBlanks lineText else lineText in
  let trimmed := trim text in
  if eqs trimmed [] then (None, false)
  else if startsWith trimmed (js "//") || startsWith trimmed (js "<") then (None, false)
  else if isBlockHeader trimmed then (None, true)
  else if inBlock && match text with c :: _ => isWhiteSpace c | [] => false end then
    if normalizeListIndent config then
      let normalized := replicate (Nat.max 1 (indentSize config)) (ch " ") ++ trimmed in
      if negb (eqs text normalized) then (Some normalized, inBlock) else (None, inBlock)
    else (None, inBlock)
  else (None, false).

Definition editOf (k : nat) (o : option str) : list TextEdit :=
  match o with
  | Some t => [{| edit_line := k; edit_newText := t |}]
  | None => []
  end.

Fixpoint editsFrom (k : nat) (inBlock : bool) (rest : list str) : list TextEdit :=
  match rest with
  | [] => []
  | line :: rest' =>
      editOf k (formatLine inBlock line).1
      ++ editsFrom (S k) (formatLine inBlock line).2 rest'
  end.

Fixpoint formatted (inBlock : bool) (rest : list str) : list str :=
  match rest with
  | [] => []
  | line :: rest' =>
      default line (formatLine inBlock line).1 :: formatted (formatLine inBlock line).2 rest'
  end.

Lemma formatting_body_eq k line st :
  formatting_body isBlockHeader config k line st
  = {| f_edits := f_edits st ++ editOf k (formatLine (f_inListBlock st) line).1;
       f_inListBlock := (formatLine (f_inListBlock st) line).2 |}.
Proof.
  unfold formatting_body, formatLine. cbv zeta.
  repeat match goal with
         | |- context [if ?b then _ else _] => destruct b
         end; cbn [fst snd editOf]; rewrite ?app_nil_r; try done; by destruct st.
Qed.

Lemma forLines_editsFrom rest k st :
  f_edits (forLines (formatting_body isBlockHeader config) rest k st)
  = f_edits st ++ editsFrom k (f_inListBlock st) rest.
Proof.
  revert k st. induction rest as [|line rest IH]; intros k st; cbn [forLines editsFrom].
  - by rewrite app_nil_r.
  - rewrite IH, formatting_body_eq. cbn [f_edits f_inListBlock]. by rewrite app_assoc.
Qed.

Lemma applyEdits_editsFrom rest pre inBlock :
  applyEdits (editsFrom (length pre) inBlock rest) (pre ++ rest)
  = pre ++ formatted inBlock rest.
Proof.
  revert pre inBlock. induction rest as [|line rest IH]; intros pre inBlock; [done|].
  cbn [editsFrom formatted]. unfold applyEdits. rewrite foldl_app.
  assert (foldl (fun lines e => <[edit_line e := edit_newText e]> lines) (pre ++ line :: rest)
                (editOf (length pre) (formatLine inBlock line).1)
          = (pre ++ [default line (formatLine inBlock line).1]) ++ rest) as ->.
  { destruct (formatLine inBlock line).1 as [t|]; cbn [editOf foldl default edit_line
      edit_newText].
    - rewrite insert_app_r_alt, Nat.sub_diag by lia. cbn. by rewrite <- app_assoc.
    - by rewrite <- app_assoc. }
  specialize (IH (pre ++ [default line (formatLine inBlock line).1]) (formatLine inBlock line).2).
  rewrite length_app in IH. cbn [length] in IH. rewrite Nat.add_1_r in IH.
  unfold applyEdits in IH. rewrite IH. by rewrite <- app_assoc.
Qed.

(** The line that the loop leaves is left alone when it is reached again:
    the flag after it is the same, and no edit is made. *)
Lemma formatLine_again inBlock line :
  formatLine inBlock (default line (formatLine inBlock line).1)
  = (None, (formatLine inBlock line).2).
Proof.
  destruct (formatLine inBlock line) as [[t|] b] eqn:E; cbn [fst snd default].
  2:{ rewrite E. unfold formatLine in E. cbv zeta in E.
      repeat match type of E with
             | context [if ?c then _ else _] => destruct c
             end; by injection E as <-. }
  unfold formatLine in E. cbv zeta in E.
  set (text := if trimTrailingWhitespace config then stripTrailingBlanks line else line) in E.
  destruct (eqs (trim text) []) eqn:Eblank; [done|].
  destruct (startsWith (trim text) (js "//") || startsWith (trim text) (js "<")) eqn:Ec;
    [done|].
  destruct (isBlockHeader (trim text)) eqn:Eh; [done|].
  destruct (inBlock && _) eqn:Ein; [|done].
  destruct (normalizeListIndent config) eqn:En; [|done].
  destruct (negb _); [|done]. injection E as <- <-.
  apply andb_true_iff in Ein as [-> _].
  apply eqs_false in Eblank. apply trim_trimmedText in Eblank.
  set (blanks := replicate (Nat.max 1 (indentSize config)) (ch " ")).
  assert (Forall (fun x => isWhiteSpace x = true) blanks) as Hblanks.
  { apply Forall_forall. intros x Hx. apply elem_of_replicate in Hx as [-> _]. reflexivity. }
  assert (exists r, blanks = ch " " :: r) as [r Hr].
  { subst blanks. destruct (Nat.max 1 (indentSize config)) eqn:Em; [lia|]. by eexists. }
  unfold id, formatLine. cbv zeta.
  assert ((if trimTrailingWhitespace config
           then stripTrailingBlanks (blanks ++ trim text) else blanks ++ trim text)
          = blanks ++ trim text) as ->.
  { destruct (trimTrailingWhitespace config); [|done].
    by apply stripTrailingBlanks_around. }
  rewrite trim_around by done.
  destruct Eblank as [(x & m & Hx & Hxw) _].
  assert (eqs (trim text) [] = false) as -> by (apply eqs_false; by rewrite Hx).
  rewrite Ec, Eh, En. rewrite Hr at 1. cbn [app andb].
  change (isWhiteSpace (ch " ")) with true. cbv iota.
  fold blanks. assert (eqs (blanks ++ trim text) (blanks ++ trim text) = true) as ->
    by by apply eqs_true.
  done.
Qed.

Lemma editsFrom_formatted k inBlock rest :
  editsFrom k inBlock (formatted inBlock rest) = [].
Proof.
  revert k inBlock. induction rest as [|line rest IH]; intros k inBlock; [done|].
  cbn [formatted editsFrom]. rewrite formatLine_again. cbn [fst snd editOf app]. apply IH.
Qed.

Lemma formattingEditsWith_idempotent (document : list str) :
  formattingEditsWith isBlockHeader config
    (applyEdits (formattingEditsWith isBlockHeader config document) document) = [].
Proof.
  unfold formattingEditsWith. rewrite !forLines_editsFrom. cbn [f_edits f_inListBlock app].
  pose proof (applyEdits_editsFrom document [] false) as Happly.
  cbn [app length] in Happly. rewrite Happly. apply editsFrom_formatted.
Qed.

(** An edit is made on an indented line of a list block, and puts the
    text of the line behind the indent of the settings. *)
Lemma editsFrom_elem k inBlock rest e :
  e ∈ editsFrom k inBlock rest ->
  exists j old b,
    edit_line e = k + j /\ rest !! j = Some old
    /\ formatLine b old = (Some (edit_newText e), true).
Proof.
  revert k inBlock. induction rest as [|line rest IH]; intros k inBlock; cbn [editsFrom].
  - by intros ?%elem_of_nil.
  - intros [Hin|Hin]%elem_of_app.
    + exists 0, line, inBlock. destruct (formatLine inBlock line) as [[t|] b] eqn:E;
        cbn [fst snd editOf] in Hin; [|by apply elem_of_nil in Hin].
      apply list_elem_of_singleton in Hin as ->. cbn [edit_line edit_newText].
      split; [lia|]. split; [done|].
      f_equal. unfold formatLine in E. cbv zeta in E.
      repeat match type of E with
             | context [if ?c then _ else _] => destruct c eqn:?
             end; try discriminate E; injection E as _ <-;
      match goal with H : _ && _ = true |- _ => by apply andb_true_iff in H as [-> _] end.
    + apply IH in Hin as (j & old & b & Hl & Hj & Hf).
      exists (S j), old, b. split; [lia|]. split; [done|]. done.
Qed.

Lemma increasing_cons_2 a (l : list nat) :
  (forall b, b ∈ l -> a < b) -> increasing l -> increasing (a :: l).
Proof.
  intros Ha Hl i j x y Hij Hi Hj. destruct j as [|j]; [lia|]. cbn in Hj.
  destruct i as [|i].
  - cbn in Hi. injection Hi as <-. apply Ha. by eapply list_elem_of_lookup_2.
  - cbn in Hi. apply (Hl i j); [lia|done|done].
Qed.

Lemma editsFrom_increasing k inBlock rest :
  increasing (edit_line <$> editsFrom k inBlock rest).
Proof.
  revert k inBlock. induction rest as [|line rest IH]; intros k inBlock; cbn [editsFrom].
  - by intros i j a b _ Hi.
  - destruct (formatLine inBlock line).1 as [t|]; cbn [editOf app]; [|apply IH].
    rewrite fmap_cons. cbn [edit_line]. apply increasing_cons_2; [|apply IH].
    intros b Hb. apply list_elem_of_fmap in Hb as (e & -> & He).
    apply editsFrom_elem in He as (j & _ & _ & -> & _). lia.
Qed.

Lemma formatLine_edit b old t :
  formatLine b old = (Some t, true) ->
  normalizeListIndent config = true
  /\ t = replicate (Nat.max 1 (indentSize config)) (ch " ") ++ trim old
  /\ trim t = trim old /\ t <> old
  /\ codeLine old /\ isBlockHeader (trim old) = false /\ ~ unindented old.
Proof.
  unfold formatLine. cbv zeta.
  set (text := if trimTrailingWhitespace config then stripTrailingBlanks old else old).
  assert (trim text = trim old) as Htrim.
  { subst text. destruct (trimTrailingWhitespace config); [|done].
    apply trim_stripTrailingBlanks. }
  rewrite Htrim.
  destruct (eqs (trim old) []) eqn:Eblank; [done|].
  destruct (startsWith (trim old) (js "//") || startsWith (trim old) (js "<")) eqn:Ec; [done|].
  destruct (isBlockHeader (trim old)) eqn:Eh; [done|].
  destruct (b && _) eqn:Ein; [|done].
  destruct (normalizeListIndent config) eqn:En; [|done].
  destruct (negb _) eqn:Ene; [|done]. intros [= <- _].
  apply eqs_false in Eblank. pose proof (trim_trimmedText _ Eblank) as Hcore.
  apply orb_false_iff in Ec as [Ec1 Ec2].
  split; [done|]. split; [done|]. split.
  { apply trim_around; [|done]. apply Forall_forall. intros x Hx.
    apply elem_of_replicate in Hx as [-> _]. reflexivity. }
  apply andb_true_iff in Ein as [_ Hws]. apply negb_true_iff, eqs_false in Ene.
  split; [|split; [done|split; [done|]]].
  - intros Heq. apply Ene. subst text. destruct (trimTrailingWhitespace config); [|done].
    rewrite <- Heq at 1. by apply stripTrailingBlanks_around.
  - intros Hu. subst text. destruct (trimTrailingWhitespace config).
    + destruct (stripTrailingBlanks old) as [|c r] eqn:Es; [done|].
      pose proof (takeWhile_dropWhile isTabOrSpace (reverse old)) as Hsplit.
      apply (f_equal reverse) in Hsplit. rewrite reverse_involutive, reverse_app in Hsplit.
      fold (stripTrailingBlanks old) in Hsplit. rewrite Es in Hsplit.
      rewrite <- Hsplit in Hu. cbn [app] in Hu. unfold unindented in Hu. congruence.
    + unfold unindented in Hu. destruct old as [|c r]; [done|]. congruence.
Qed.

End FormattingFacts.

Lemma formattingEditsWith_elem isBlockHeader config (document : list str) e :
  e ∈ formattingEditsWith isBlockHeader config document ->
  normalizeListIndent config = true
  /\ exists old,
       document !! edit_line e = Some old
       /\ edit_newText e = replicate (Nat.max 1 (indentSize config)) (ch " ") ++ trim old
       /\ trim (edit_newText e) = trim old /\ edit_newText e <> old
       /\ codeLine old /\ isBlockHeader (trim old) = false /\ ~ unindented old.
Proof.
  unfold formattingEditsWith. rewrite forLines_editsFrom. cbn [f_edits f_inListBlock app].
  intros He. apply editsFrom_elem in He as (j & old & b & Hl & Hj & Hf).
  apply formatLine_edit in Hf as (Hn & Ht & Htrim & Hne & Hc & Hh & Hu).
  split; [done|]. exists old. rewrite Hl. done.
Qed.


(** ** Go to definition ([provideDefinition]) *)

(** What a call yields: a value, or an exception ([document.lineAt] throws
    on a line that the document does not have). *)
Inductive Outcome (A : Type) : Type :=
| Returned (a : A)
| Thrown.
Arguments Returned {A} a.
Arguments Thrown {A}.

Section DefinitionProvider.

Variable exec : str -> nat -> option (nat * str).

(** The [while ((match = LIST_REF_REGEX.exec(lineText)))] loop of
    [createDefinitionProvider], which returns from within. *)
Fixpoint provideDefinition_loop (fuel : nat) (definitions : gmap (list N) Position)
    (lineText : str) (character lastIndex : nat) : option Position :=
  match fuel with
  | 0 => None
  | S fuel' =>
      match exec (drop lastIndex lineText) lastIndex with
      | None => None
      | Some (index, name) =>
          let start := index in
          let end_ := index + (length name + 4) in
          if (start <=? character) && (character <=? end_) then
            match definitions !! name with
            | Some target => Some target
            | None => provideDefinition_loop fuel' definitions lineText character end_
            end
          else provideDefinition_loop fuel' definitions lineText character end_
      end
  end.

Definition provideDefinitionWith (definitions : gmap (list N) Position)
    (document : list str) (position : Position) : Outcome (option Position) :=
  match document !! pos_line position with
  | None => Thrown
  | Some lineText =>
      Returned (provideDefinition_loop (S (length lineText)) definitions lineText
                  (pos_character position) 0)
  end.

End DefinitionProvider.

(** The provider that [activate] registers: the definitions are collected
    from the document at each request. *)
Definition provideDefinition (document : list str) (position : Position)
    : Outcome (option Position) :=
  provideDefinitionWith LIST_REF_REGEX_exec (collectListDefinitions document) document position.

(** That of the earlier [src/extension.js]. *)
Definition legacy_provideDefinition (document : list str) (position : Position)
    : Outcome (option Position) :=
  provideDefinitionWith Legacy.LIST_REF_REGEX_exec (Legacy.collectListDefinitions document)
                        document position.

(** The target that a reference offers for the character [c]. *)
Definition targetAt (definitions : gmap (list N) Position) (c : nat) (r : Reference)
    : option Position :=
  if (ref_start r <=? c) && (c <=? ref_end r) then definitions !! ref_name r else None.

Lemma provideDefinition_loop_head exec fuel definitions text c lineIndex lastIndex :
  provideDefinition_loop exec fuel definitions text c lastIndex
  = head (omap (targetAt definitions c)
               (lineReferences_loop exec fuel text lineIndex lastIndex)).
Proof.
  revert lastIndex. induction fuel as [|fuel IH]; intros lastIndex; [done|].
  cbn [provideDefinition_loop lineReferences_loop].
  destruct (exec (drop lastIndex text) lastIndex) as [[index name]|]; [|done].
  cbv zeta. cbn [omap list_omap]. unfold targetAt at 1. cbn [ref_start ref_end ref_name].
  destruct ((index <=? c) && (c <=? index + (length name + 4))).
  - destruct (definitions !! name); [done|apply IH].
  - apply IH.
Qed.

Lemma head_omap_only {A B} (f : A -> option B) (l : list A) x :
  NoDup l -> x ∈ l -> (forall y, y ∈ l -> y <> x -> f y = None) ->
  head (omap f l) = f x.
Proof.
  induction l as [|a l IH]; intros Hnd Hx Hother; [by apply elem_of_nil in Hx|].
  apply NoDup_cons in Hnd as [Ha Hnd]. cbn [omap list_omap].
  apply elem_of_cons in Hx as [->|Hx].
  - assert (omap f l = []) as Hrest.
    { clear IH. induction l as [|b l IHl]; [done|]. cbn [omap list_omap].
      apply not_elem_of_cons in Ha as [Hb Ha]. apply NoDup_cons in Hnd as [_ Hnd].
      rewrite (Hother b) by (by (right; left) || done).
      apply IHl; [done|done|]. intros y Hy. apply Hother.
      apply elem_of_cons in Hy as [->|Hy]; [by left|right; by right]. }
    rewrite Hrest. by destruct (f a).
  - assert (a <> x) as Hne by (intros ->; done).
    rewrite (Hother a) by (by left || done).
    apply IH; [done|done|]. intros y Hy. apply Hother. by right.
Qed.

Section DefinitionFacts.

Variable tail : N -> bool.
Hypothesis tail_not_open : tail (ch "[") = false.
Hypothesis tail_not_close : tail (ch "]") = false.

(** Two references of one line do not overlap. *)
Lemma lineReferences_apart lineIndex text r r' :
  r ∈ lineReferences (execRef tail) lineIndex text ->
  r' ∈ lineReferences (execRef tail) lineIndex text ->
  r <> r' -> ref_end r <= ref_start r' \/ ref_end r' <= ref_start r.
Proof.
  rewrite lineReferences_scan.
  pose proof (scan_leftmost (matchRefHere tail) refWidth (refWidth_ok tail tail_not_close)
                (S (length text)) text 0 ltac:(lia)) as Hl.
  intros Hr Hr' Hne.
  apply list_elem_of_fmap in Hr as ([p v] & -> & Hr).
  apply list_elem_of_fmap in Hr' as ([q w] & -> & Hr').
  apply list_elem_of_lookup_1 in Hr as [i Hi]. apply list_elem_of_lookup_1 in Hr' as [j Hj].
  unfold mkReference. cbn [ref_start ref_end fst snd].
  destruct (Nat.lt_trichotomy i j) as [Hij|[->|Hji]].
  - left. pose proof (leftmostMatches_apart _ _ _ _ _ _ _ _ _ _ _ Hl Hi Hj Hij) as H.
    unfold refWidth in H. lia.
  - rewrite Hi in Hj. injection Hj as <- <-. done.
  - right. pose proof (leftmostMatches_apart _ _ _ _ _ _ _ _ _ _ _ Hl Hj Hi Hji) as H.
    unfold refWidth in H. lia.
Qed.

Lemma provideDefinitionWith_inside definitions (document : list str) r c :
  r ∈ collectListReferencesWith (execRef tail) document ->
  ref_start r < c < ref_end r ->
  provideDefinitionWith (execRef tail) definitions document
    {| pos_line := ref_line r; pos_character := c |}
  = Returned (definitions !! ref_name r).
Proof.
  intros Hr Hc.
  apply (collectListReferencesWith_elem tail tail_not_open tail_not_close) in Hr
    as (text & Ht & Ho & He).
  unfold provideDefinitionWith. cbn [pos_line pos_character]. rewrite Ht. f_equal.
  rewrite (provideDefinition_loop_head _ _ _ _ _ (ref_line r)).
  fold (lineReferences (execRef tail) (ref_line r) text).
  assert (r ∈ lineReferences (execRef tail) (ref_line r) text) as Hin
    by by apply (lineReferences_elem tail tail_not_open tail_not_close).
  rewrite (head_omap_only _ _ r); [| by apply (lineReferences_NoDup tail tail_not_close) |done|].
  - unfold targetAt. destruct (Nat.leb_spec (ref_start r) c); [|lia].
    destruct (Nat.leb_spec c (ref_end r)); [done|lia].
  - intros r' Hr' Hne. unfold targetAt.
    destruct (lineReferences_apart _ _ _ _ Hin Hr' (not_eq_sym Hne)) as [H|H].
    + destruct (Nat.leb_spec (ref_start r') c); [lia|done].
    + destruct (Nat.leb_spec c (ref_end r')); [lia|]. by rewrite andb_false_r.
Qed.

Lemma provideDefinitionWith_some definitions (document : list str) position target :
  provideDefinitionWith (execRef tail) definitions document position
  = Returned (Some target) ->
  exists r, r ∈ collectListReferencesWith (execRef tail) document
            /\ ref_line r = pos_line position
            /\ ref_start r <= pos_character position <= ref_end r
            /\ definitions !! ref_name r = Some target.
Proof.
  unfold provideDefinitionWith. destruct (document !! pos_line position) as [text|] eqn:Et;
    [|done].
  intros H.
  apply (f_equal (fun o => match o with Returned a => a | Thrown => None end)) in H.
  cbv beta iota in H.
  rewrite (provideDefinition_loop_head _ _ _ _ _ (pos_line position)) in H.
  fold (lineReferences (execRef tail) (pos_line position) text) in H.
  apply head_Some_elem_of in H. apply list_elem_of_omap in H as (r & Hr & Hsel).
  exists r. pose proof Hr as Hr'.
  apply (lineReferences_elem tail tail_not_open tail_not_close) in Hr' as (Hl & Ho & He).
  split.
  - apply (collectListReferencesWith_elem tail tail_not_open tail_not_close).
    exists text. by rewrite Hl.
  - split; [done|]. unfold targetAt in Hsel.
    destruct (Nat.leb_spec (ref_start r) (pos_character position)); [|done].
    destruct (Nat.leb_spec (pos_character position) (ref_end r)); [|done]. done.
Qed.

Lemma provideDefinitionWith_none definitions (document : list str) position :
  (forall r, r ∈ collectListReferencesWith (execRef tail) document ->
             ref_line r = pos_line position ->
             ref_start r <= pos_character position <= ref_end r ->
             definitions !! ref_name r = None) ->
  pos_line position < length document ->
  provideDefinitionWith (execRef tail) definitions document position = Returned None.
Proof.
  intros Hno Hlt. destruct (provideDefinitionWith (execRef tail) definitions document position)
    as [[target|]|] eqn:E; [|done|].
  - apply provideDefinitionWith_some in E as (r & Hr & Hl & Hc & Hd).
    rewrite (Hno r Hr Hl Hc) in Hd. done.
  - unfold provideDefinitionWith in E. apply lookup_lt_is_Some in Hlt as [text Ht].
    by rewrite Ht in E.
Qed.

End DefinitionFacts.

(** X13.  Go to definition answers from the definitions map alone.  With
    the cursor inside a reference [[[name]]] the answer is what
    [collectListDefinitions] holds for the name: the start of the line that
    declares it last before the markup boundary, or nothing, which is the
    case of the references that [analyzeDocument] reports as unknown.  An
    answer always comes from a reference of the line whose span, ends
    included, holds the cursor; where two references touch, the first one
    that is defined answers.  A line that the document does not have makes
    [lineAt] throw.  The earlier extension answers in the same way from
    its own map. *)
Theorem provideDefinition_answers_from_definitions :
  (forall (document : list str) r c,
     r ∈ collectListReferences document -> ref_start r < c < ref_end r ->
     provideDefinition document {| pos_line := ref_line r; pos_character := c |}
     = Returned (collectListDefinitions document !! ref_name r))
  /\ (forall (document : list str) position target,
        provideDefinition document position = Returned (Some target) ->
        (exists r, r ∈ collectListReferences document
                   /\ ref_line r = pos_line position
                   /\ ref_start r <= pos_character position <= ref_end r
                   /\ collectListDefinitions document !! ref_name r = Some target)
        /\ pos_character target = 0 /\ pos_line target < findHtmlStart document)
  /\ (forall (document : list str) position,
        pos_line position < length document ->
        (forall r, r ∈ collectListReferences document ->
                   ref_line r = pos_line position ->
                   ref_start r <= pos_character position <= ref_end r ->
                   collectListDefinitions document !! ref_name r = None) ->
        provideDefinition document position = Returned None)
  /\ (forall (document : list str) position,
        length document <= pos_line position -> provideDefinition document position = Thrown)
  /\ (forall (document : list str) r c,
        r ∈ Legacy.collectListReferences document -> ref_start r < c < ref_end r ->
        legacy_provideDefinition document {| pos_line := ref_line r; pos_character := c |}
        = Returned (Legacy.collectListDefinitions document !! ref_name r))
  /\ (provideDefinition [js "a"; js "b"; js "  [[a]][[b]]"]
        {| pos_line := 2; pos_character := 7 |}
      = Returned (Some {| pos_line := 0; pos_character := 0 |})
      /\ provideDefinition [js "b"; js "  [[a]][[b]]"]
           {| pos_line := 1; pos_character := 7 |}
         = Returned (Some {| pos_line := 0; pos_character := 0 |})
      /\ provideDefinition [js "b"; js "  [[a]][[b]]"]
           {| pos_line := 1; pos_character := 6 |}
         = Returned None).
Proof.
  split; [|split; [|split; [|split; [|split; [|repeat split; vm_compute; reflexivity]]]]].
  - intros document r c Hr Hc.
    by apply (provideDefinitionWith_inside identChar eq_refl eq_refl).
  - intros document position target H.
    pose proof (provideDefinitionWith_some identChar eq_refl eq_refl _ _ _ _ H)
      as (r & Hr & Hl & Hc & Hd).
    split; [by exists r|].
    apply collectListDefinitions_spec in Hd as [H0 [(line & Hline & _) _]].
    split; [done|]. by apply lookup_take_Some in Hline as [_ ?].
  - intros document position Hlt Hno.
    by apply (provideDefinitionWith_none identChar eq_refl eq_refl).
  - intros document position Hge. unfold provideDefinition, provideDefinitionWith.
    by rewrite lookup_ge_None_2.
  - intros document r c Hr Hc.
    by apply (provideDefinitionWith_inside Legacy.identChar eq_refl eq_refl).
Qed.

(** ** The list context of a line ([getIndentInfo], [getListContext]) *)

Module Extension.

(** [isListHeaderLine] of the current [extension.js]: a block header, a
    function header or a line that ends in an arrow.  The batch script has
    a function of the same name that takes shorthand assignments as well. *)
Definition isListHeaderLine (trimmedLine : str) : bool :=
  if eqs trimmedLine [] then false
  else if bool_decide (is_Some (LIST_BLOCK_HEADER_REGEX trimmedLine)) then true
  else if FUNCTION_HEADER_REGEX trimmedLine then true
  else isFunctionListStart trimmedLine.

End Extension.

Record IndentInfo := { indent_text : str; indent_level : nat }.

(** [lineText.match(/^[\t ]*/)] always matches, if only the empty string. *)
Definition getIndentInfo (lineText : str) : IndentInfo :=
  let indent := leadingIndent lineText in
  {| indent_text := indent; indent_level := countIndentLevel indent |}.

Record ListContext := { currentListName : option str; parentListName : option str }.

Record ContextState := { c_listNames : list str; c_indentLimit : nat }.

(** The loop [for (let i = lineIndex; i >= 0; i -= 1)], entered with
    [i + 1 = n].  A line that the document does not have is [undefined],
    and [line.trim()] throws on it. *)
Fixpoint getListContext_loop (lines : list str) (n : nat) (st : ContextState)
    : Outcome ContextState :=
  match n with
  | 0 => Returned st
  | S i =>
      match lines !! i with
      | None => Thrown
      | Some line =>
          let trimmed := trim line in
          if eqs trimmed [] || startsWith trimmed (js "//")
          then getListContext_loop lines i st
          else
            let indent := indent_level (getIndentInfo line) in
            let st' :=
              if (indent <? c_indentLimit st) && Extension.isListHeaderLine trimmed then
                match parseListName trimmed with
                | Some name =>
                    {| c_listNames := c_listNames st ++ [name]; c_indentLimit := indent |}
                | None => st
                end
              else st in
            if 2 <=? length (c_listNames st') then Returned st'
            else getListContext_loop lines i st'
      end
  end.

Definition getListContext (lines : list str) (lineIndex : nat) : Outcome ListContext :=
  let lineText := default [] (lines !! lineIndex) in
  let currentIndent := indent_level (getIndentInfo lineText) in
  match getListContext_loop lines (S lineIndex)
          {| c_listNames := []; c_indentLimit := currentIndent + 1 |} with
  | Returned st =>
      Returned {| currentListName := c_listNames st !! 0;
                  parentListName := c_listNames st !! 1 |}
  | Thrown => Thrown
  end.

(** The indentation level of line [i]. *)
Definition levelOf (lines : list str) (i : nat) : nat :=
  countIndentLevel (leadingIndent (default [] (lines !! i))).

(** Line [i] is a named header below the level [limit]. *)
Definition opensList (lines : list str) (limit i : nat) (name : str) : Prop :=
  exists line, lines !! i = Some line /\ codeLine line
               /\ levelOf lines i < limit
               /\ Extension.isListHeaderLine (trim line) = true
               /\ parseListName (trim line) = Some name.

(** Line [i] is the last such header before line [from]. *)
Definition nearestList (lines : list str) (limit from i : nat) (name : str) : Prop :=
  i < from /\ opensList lines limit i name
  /\ forall j other, i < j < from -> ~ opensList lines limit j other.

Lemma nearestList_unique lines limit from i name i' name' :
  nearestList lines limit from i name -> nearestList lines limit from i' name' ->
  i = i' /\ name = name'.
Proof.
  intros (Hi & Ho & Hn) (Hi' & Ho' & Hn').
  assert (i = i') as <-.
  { destruct (Nat.lt_trichotomy i i') as [H|[H|H]]; [|done|].
    - exfalso. apply (Hn i' name'); [lia|done].
    - exfalso. apply (Hn' i name); [lia|done]. }
  split; [done|]. destruct Ho as (l & Hl & _ & _ & _ & Hp), Ho' as (l' & Hl' & _ & _ & _ & Hp').
  congruence.
Qed.

Lemma opensList_none_extend lines limit i :
  (forall j other, j < i -> ~ opensList lines limit j other) ->
  (forall other, ~ opensList lines limit i other) ->
  forall j other, j < S i -> ~ opensList lines limit j other.
Proof.
  intros Hbelow Hat j other Hj. destruct (decide (j = i)) as [->|]; [apply Hat|].
  apply Hbelow. lia.
Qed.

Lemma nearestList_extend lines limit i k name :
  nearestList lines limit i k name ->
  (forall other, ~ opensList lines limit i other) ->
  nearestList lines limit (S i) k name.
Proof.
  intros (Hk & Ho & Hn) Hat. split; [lia|]. split; [done|].
  intros j other Hj. destruct (decide (j = i)) as [->|]; [apply Hat|]. apply Hn. lia.
Qed.

Lemma levelOf_line lines i line :
  lines !! i = Some line -> indent_level (getIndentInfo line) = levelOf lines i.
Proof. intros H. unfold levelOf. by rewrite H. Qed.

(** The loop once the current list is found: it looks for the parent. *)
Lemma getListContext_loop_parent lines n name limit :
  n <= length lines ->
  exists st,
    getListContext_loop lines n {| c_listNames := [name]; c_indentLimit := limit |}
    = Returned st
    /\ ((c_listNames st = [name] /\ forall j other, j < n -> ~ opensList lines limit j other)
        \/ exists k pname, c_listNames st = [name; pname]
                           /\ nearestList lines limit n k pname).
Proof.
  induction n as [|i IH]; intros Hn.
  - eexists. split; [reflexivity|]. left. split; [done|]. intros j other Hj. lia.
  - destruct (lookup_lt_is_Some_2 lines i ltac:(lia)) as [line Hline].
    cbn [getListContext_loop]. rewrite Hline. cbv zeta.
    rewrite (levelOf_line _ _ _ Hline). cbn [c_indentLimit c_listNames].
    destruct (IH ltac:(lia)) as (st & Hst & Hres).
    assert ((forall other, ~ opensList lines limit i other) ->
            exists st0, getListContext_loop lines i
                          {| c_listNames := [name]; c_indentLimit := limit |} = Returned st0
              /\ ((c_listNames st0 = [name]
                   /\ forall j other, j < S i -> ~ opensList lines limit j other)
                  \/ exists k pname, c_listNames st0 = [name; pname]
                                     /\ nearestList lines limit (S i) k pname)) as Hgo.
    { intros Hat. exists st. split; [done|]. destruct Hres as [[Hl Hno]|(k & pname & Hl & Hnear)].
      - left. split; [done|]. by apply opensList_none_extend.
      - right. exists k, pname. split; [done|]. by apply nearestList_extend. }
    destruct (eqs (trim line) [] || startsWith (trim line) (js "//")) eqn:Eskip.
    { apply Hgo. intros other (l & Hl & Hc & _). rewrite Hline in Hl. injection Hl as <-.
      by apply skipped_not_codeLine in Eskip. }
    destruct ((levelOf lines i <? limit) && Extension.isListHeaderLine (trim line)) eqn:Econd.
    + destruct (parseListName (trim line)) as [pname|] eqn:Ep.
      * cbn [c_listNames app length Nat.leb]. eexists. split; [reflexivity|]. right.
        exists i, pname. cbn [c_listNames]. split; [done|].
        apply andb_true_iff in Econd as [Hlv Hh]. apply Nat.ltb_lt in Hlv.
        split; [lia|]. split.
        -- exists line. split; [done|]. split; [by apply kept_codeLine|]. done.
        -- intros j other Hj. lia.
      * cbn [c_listNames length Nat.leb]. apply Hgo.
        intros other (l & Hl & _ & _ & _ & Hp). rewrite Hline in Hl. injection Hl as <-.
        congruence.
    + cbn [c_listNames length Nat.leb]. apply Hgo.
      intros other (l & Hl & _ & Hlv & Hh & _). rewrite Hline in Hl. injection Hl as <-.
      apply Nat.ltb_lt in Hlv. by rewrite Hlv, Hh in Econd.
Qed.

(** The loop from its start: it looks for the current list, then for the
    parent. *)
Lemma getListContext_loop_current lines n limit :
  n <= length lines ->
  exists st,
    getListContext_loop lines n {| c_listNames := []; c_indentLimit := limit |} = Returned st
    /\ ((c_listNames st = [] /\ forall j other, j < n -> ~ opensList lines limit j other)
        \/ exists i name,
             nearestList lines limit n i name
             /\ ((c_listNames st = [name]
                  /\ forall j other, j < i -> ~ opensList lines (levelOf lines i) j other)
                 \/ exists k pname, c_listNames st = [name; pname]
                                    /\ nearestList lines (levelOf lines i) i k pname)).
Proof.
  induction n as [|i IH]; intros Hn.
  - eexists. split; [reflexivity|]. left. split; [done|]. intros j other Hj. lia.
  - destruct (lookup_lt_is_Some_2 lines i ltac:(lia)) as [line Hline].
    cbn [getListContext_loop]. rewrite Hline. cbv zeta.
    rewrite (levelOf_line _ _ _ Hline). cbn [c_indentLimit c_listNames].
    destruct (IH ltac:(lia)) as (st & Hst & Hres).
    assert ((forall other, ~ opensList lines limit i other) ->
            exists st0, getListContext_loop lines i
                          {| c_listNames := []; c_indentLimit := limit |} = Returned st0
              /\ ((c_listNames st0 = []
                   /\ forall j other, j < S i -> ~ opensList lines limit j other)
                  \/ exists i0 name,
                       nearestList lines limit (S i) i0 name
                       /\ ((c_listNames st0 = [name]
                            /\ forall j other, j < i0 ->
                                  ~ opensList lines (levelOf lines i0) j other)
                           \/ exists k pname,
                                c_listNames st0 = [name; pname]
                                /\ nearestList lines (levelOf lines i0) i0 k pname))) as Hgo.
    { intros Hat. exists st. split; [done|].
      destruct Hres as [[Hl Hno]|(i0 & name & Hnear & Hrest)].
      - left. split; [done|]. by apply opensList_none_extend.
      - right. exists i0, name. split; [by apply nearestList_extend|done]. }
    destruct (eqs (trim line) [] || startsWith (trim line) (js "//")) eqn:Eskip.
    { apply Hgo. intros other (l & Hl & Hc & _). rewrite Hline in Hl. injection Hl as <-.
      by apply skipped_not_codeLine in Eskip. }
    destruct ((levelOf lines i <? limit) && Extension.isListHeaderLine (trim line)) eqn:Econd.
    + destruct (parseListName (trim line)) as [name|] eqn:Ep.
      * cbn [c_listNames app length Nat.leb].
        destruct (getListContext_loop_parent lines i name (levelOf lines i) ltac:(lia))
          as (st1 & Hst1 & Hres1).
        exists st1. split; [done|]. right. exists i, name.
        apply andb_true_iff in Econd as [Hlv Hh]. apply Nat.ltb_lt in Hlv.
        split; [|done]. split; [lia|]. split.
        -- exists line. split; [done|]. split; [by apply kept_codeLine|]. done.
        -- intros j other Hj. lia.
      * cbn [c_listNames length Nat.leb]. apply Hgo.
        intros other (l & Hl & _ & _ & _ & Hp). rewrite Hline in Hl. injection Hl as <-.
        congruence.
    + cbn [c_listNames length Nat.leb]. apply Hgo.
      intros other (l & Hl & _ & Hlv & Hh & _). rewrite Hline in Hl. injection Hl as <-.
      apply Nat.ltb_lt in Hlv. by rewrite Hlv, Hh in Econd.
Qed.

(** X14.  The list context of a line of the document: the current list is
    named by the nearest line, at the line or above it, that is a header
    with a name and is not indented deeper than the line; the parent list
    by the nearest header above that one with a smaller indentation level;
    there is no parent without a current list.  Blank lines and comment
    lines are passed over.  A line index past the end makes the function
    throw. *)
Theorem getListContext_nearest_headers :
  (forall (lines : list str) lineIndex,
     lineIndex < length lines ->
     exists context,
       getListContext lines lineIndex = Returned context
       /\ (forall name,
             currentListName context = Some name <->
             exists i, nearestList lines (S (levelOf lines lineIndex)) (S lineIndex) i name)
       /\ (forall parent,
             parentListName context = Some parent <->
             exists i name k,
               nearestList lines (S (levelOf lines lineIndex)) (S lineIndex) i name
               /\ nearestList lines (levelOf lines i) i k parent)
       /\ (currentListName context = None -> parentListName context = None))
  /\ (forall (lines : list str) lineIndex,
        length lines <= lineIndex -> getListContext lines lineIndex = Thrown)
  /\ (let lines := [js "outer"; js "  inner"; js ""; js "    an item"; js "other"] in
      getListContext lines 3
      = Returned {| currentListName := Some (js "inner");
                    parentListName := Some (js "outer") |}
      /\ getListContext lines 1
         = Returned {| currentListName := Some (js "inner");
                       parentListName := Some (js "outer") |}
      /\ getListContext lines 4
         = Returned {| currentListName := Some (js "other"); parentListName := None |}
      /\ getListContext lines 5 = Thrown).
Proof.
  split; [|split; [|repeat split; vm_compute; reflexivity]].
  - intros lines lineIndex Hlt. unfold getListContext. cbv zeta.
    fold (levelOf lines lineIndex).
    change (indent_level (getIndentInfo (default [] (lines !! lineIndex))))
      with (levelOf lines lineIndex).
    rewrite Nat.add_1_r.
    destruct (getListContext_loop_current lines (S lineIndex) (S (levelOf lines lineIndex))
                ltac:(lia)) as (st & -> & Hres).
    eexists. split; [reflexivity|]. cbn [currentListName parentListName].
    destruct Hres as [[Hl Hno]|(i & name & Hnear & [[Hl Hno]|(k & pname & Hl & Hpar)])];
      rewrite Hl; cbn.
    + split; [|split; [|done]].
      * intros n. split; [done|]. intros (i & Hi & Ho & _). exfalso. by apply (Hno i n).
      * intros p. split; [done|]. intros (i & n & k & (Hi & Ho & _) & _). exfalso.
        by apply (Hno i n).
    + split; [|split; [|done]].
      * intros n. split.
        -- intros [= <-]. by exists i.
        -- intros (i' & Hnear'). destruct (nearestList_unique _ _ _ _ _ _ _ Hnear Hnear').
           congruence.
      * intros p. split; [done|]. intros (i' & n & k & Hnear' & (Hk & Ho & _)). exfalso.
        destruct (nearestList_unique _ _ _ _ _ _ _ Hnear Hnear') as [<- _].
        by apply (Hno k p).
    + split; [|split; [|done]].
      * intros n. split.
        -- intros [= <-]. by exists i.
        -- intros (i' & Hnear'). destruct (nearestList_unique _ _ _ _ _ _ _ Hnear Hnear').
           congruence.
      * intros p. split.
        -- intros [= <-]. by exists i, name, k.
        -- intros (i' & n & k' & Hnear' & Hpar').
           destruct (nearestList_unique _ _ _ _ _ _ _ Hnear Hnear') as [<- _].
           destruct (nearestList_unique _ _ _ _ _ _ _ Hpar Hpar'). congruence.
  - intros lines lineIndex Hge. unfold getListContext. cbv zeta.
    cbn [getListContext_loop]. by rewrite lookup_ge_None_2.
Qed.

(** ** The list region and the markup region *)

(** Once the boundary is found, the lines behind it play no part in
    finding it. *)
Lemma findHtmlStart_loop_found (pre more more' : list str) index sawBlank :
  findHtmlStart_loop (pre ++ more) index sawBlank < index + length pre ->
  findHtmlStart_loop (pre ++ more') index sawBlank
  = findHtmlStart_loop (pre ++ more) index sawBlank.
Proof.
  revert index sawBlank. induction pre as [|line rest IH]; intros index sawBlank.
  - cbn [app length]. pose proof (findHtmlStart_loop_bounds more index sawBlank). lia.
  - cbn [app findHtmlStart_loop length]. destruct (eqs (trim line) []).
    + intros H. apply IH. lia.
    + destruct (sawBlank && looksLikeHtmlStart line); [done|]. intros H. apply IH. lia.
Qed.

Lemma findHtmlStart_same_head (lines more' : list str) :
  findHtmlStart lines < length lines ->
  findHtmlStart (take (S (findHtmlStart lines)) lines ++ more') = findHtmlStart lines.
Proof.
  intros Hlt. unfold findHtmlStart at 1 3.
  rewrite <- (take_drop (S (findHtmlStart lines)) lines) at 3.
  apply findHtmlStart_loop_found. rewrite take_drop, length_take. fold (findHtmlStart lines).
  lia.
Qed.

(** The diagnostics of the rules on a list region, without those of the
    references. *)
Definition ruleDiagnostics (config : Config) (region : list str) : list Diagnostic :=
  e_diagnostics
    (forLines (analyzeDocument_body config) region 0
       {| e_diagnostics := []; e_listNameIndex := ∅; e_functionIndentLevel := None |}).

Lemma forLines_diagnostics_prefix config rest k st :
  let bare := {| e_diagnostics := []; e_listNameIndex := e_listNameIndex st;
                 e_functionIndentLevel := e_functionIndentLevel st |} in
  e_diagnostics (forLines (analyzeDocument_body config) rest k st)
  = e_diagnostics st ++ e_diagnostics (forLines (analyzeDocument_body config) rest k bare).
Proof.
  cbv zeta. revert k st. induction rest as [|line rest IH]; intros k st; cbn [forLines].
  - cbn [e_diagnostics]. by rewrite app_nil_r.
  - rewrite IH. rewrite (IH _ (analyzeDocument_body config k line {| e_diagnostics := [] |})).
    rewrite !analyzeDocument_body_eq.
    cbn [e_diagnostics e_listNameIndex e_functionIndentLevel app].
    rewrite <- app_assoc. f_equal.
Qed.

Lemma analyzeDocument_rules (document : list str) config :
  analyzeDocument document config
  = unknownReferences document
    ++ (if negb (checkDuplicates config) && negb (checkIndentation config)
           && negb (checkIfElseEquals config)
        then [] else ruleDiagnostics config (take (findHtmlStart document) document)).
Proof.
  unfold analyzeDocument, analyzeDocument_scan. cbv zeta. fold (unknownReferences document).
  destruct (_ && _).
  - cbn [e_diagnostics]. by rewrite app_nil_r.
  - rewrite forLines_diagnostics_prefix. reflexivity.
Qed.

Lemma ruleDiagnostics_codes config region :
  Forall (fun d => d_code d <> None) (ruleDiagnostics config region).
Proof.
  unfold ruleDiagnostics.
  apply (forLines_invariant (analyzeDocument_body config)
           (fun _ st => Forall (fun d => d_code d <> None) (e_diagnostics st))) with (pre := []).
  - intros pre line st H. rewrite analyzeDocument_body_eq. cbn [e_diagnostics].
    apply Forall_app_2; [done|].
    eapply Forall_impl; [apply (editor_emit_at (pre ++ [line]) config (length pre) line st)|].
    + by rewrite lookup_app_r, Nat.sub_diag by lia.
    + cbv beta. intros d [(c & Hc & _) _]. congruence.
  - constructor.
Qed.

(** X15.  The findings of the list region do not depend on what follows
    the boundary line: when the markup boundary lies within the document,
    replacing the lines behind the boundary line by any others leaves the
    boundary, the definitions map, the folding ranges, the findings of
    the first loop of the batch script and the coded diagnostics of the
    engine as they are.  (The references are looked for in the markup as
    well, so the diagnostics without code may change.) *)
Theorem list_region_findings_ignore_markup (lines other : list str) (config : Config) :
  findHtmlStart lines < length lines ->
  let edited := take (S (findHtmlStart lines)) lines ++ other in
  findHtmlStart edited = findHtmlStart lines
  /\ collectListDefinitions edited = collectListDefinitions lines
  /\ provideFoldingRanges LANGUAGE_ID edited = provideFoldingRanges LANGUAGE_ID lines
  /\ b_warnings (analyzePerchance_scan edited) = b_warnings (analyzePerchance_scan lines)
  /\ filter (fun d => d_code d <> None) (analyzeDocument edited config)
     = filter (fun d => d_code d <> None) (analyzeDocument lines config).
Proof.
  intros Hlt. cbv zeta.
  pose proof (findHtmlStart_same_head lines other Hlt) as Hb.
  set (edited := take (S (findHtmlStart lines)) lines ++ other) in *.
  assert (take (findHtmlStart lines) edited = take (findHtmlStart lines) lines) as Hregion.
  { subst edited. rewrite take_app_le by (rewrite length_take; lia).
    rewrite take_take. f_equal. lia. }
  assert (length edited `min` findHtmlStart lines = findHtmlStart lines) as Hmin1.
  { subst edited. rewrite length_app, length_take. lia. }
  split; [done|]. split; [|split; [|split]].
  - unfold collectListDefinitions. cbv zeta. rewrite Hb, Hmin1, Hregion.
    by replace (length lines `min` findHtmlStart lines) with (findHtmlStart lines) by lia.
  - unfold provideFoldingRanges. cbv zeta. by rewrite Hb, Hregion.
  - unfold analyzePerchance_scan. by rewrite Hb, Hregion.
  - rewrite !analyzeDocument_rules, !filter_app, Hb, Hregion.
    assert (forall document,
              filter (fun d => d_code d <> None) (unknownReferences document) = []) as Hu.
    { intros document. apply filter_none.
      eapply Forall_impl; [apply unknownReference_codes|]. cbv beta. intros d Hd. tauto. }
    by rewrite !Hu.
Qed.

Lemma list_region_findings_ignore_markup_example :
  let lines := [js "a"; js "  [x = 1 ? 2 : 3]"; js ""; js "<p>[[a]]</p>"; js "<b>old</b>"] in
  let edited := take (S (findHtmlStart lines)) lines ++ [js "a"; js "[[b]]"] in
  findHtmlStart edited = findHtmlStart lines
  /\ collectListDefinitions edited = collectListDefinitions lines
  /\ provideFoldingRanges LANGUAGE_ID edited = provideFoldingRanges LANGUAGE_ID lines
  /\ b_warnings (analyzePerchance_scan edited) = b_warnings (analyzePerchance_scan lines)
  /\ filter (fun d => d_code d <> None) (analyzeDocument edited defaultConfig)
     = filter (fun d => d_code d <> None) (analyzeDocument lines defaultConfig).
Proof.
  apply (list_region_findings_ignore_markup
           [js "a"; js "  [x = 1 ? 2 : 3]"; js ""; js "<p>[[a]]</p>"; js "<b>old</b>"]
           [js "a"; js "[[b]]"] defaultConfig).
  vm_compute. lia.
Defined.

(** ** The quick-fix action ([createIfElseEqualsFix], [provideCodeActions]) *)

(** [edit.replace(document.uri, new vscode.Range(line, 0, line, end), text)] *)
Record WorkspaceEdit := {
  we_line : nat;
  we_start : nat;
  we_end : nat;
  we_newText : str
}.

Record CodeAction := {
  ca_title : str;
  ca_edit : WorkspaceEdit;
  ca_diagnostics : list Diagnostic
}.

(** [diagnostic.data?.line ?? diagnostic.range.start.line] *)
Definition fixLine (diagnostic : Diagnostic) : nat :=
  match d_data diagnostic with
  | Some line => line
  | None => pos_line (range_start (d_range diagnostic))
  end.

Definition createIfElseEqualsFix (document : list str) (diagnostic : Diagnostic)
    : Outcome (option CodeAction) :=
  let line := fixLine diagnostic in
  match document !! line with
  | None => Thrown
  | Some lineText =>
      match replaceSingleEqualsInIfElse lineText with
      | None => Returned None
      | Some updated =>
          if eqs updated [] || eqs updated lineText then Returned None
          else
            Returned (Some
              {| ca_title := js "Replace = with == in if/else condition";
                 ca_edit := {| we_line := line; we_start := 0; we_end := length lineText;
                               we_newText := updated |};
                 ca_diagnostics := [diagnostic] |})
      end
  end.

(** The loop of [provideCodeActions] over the diagnostics of the request. *)
Fixpoint provideCodeActions_loop (document : list str) (diagnostics : list Diagnostic)
    (actions : list CodeAction) : Outcome (list CodeAction) :=
  match diagnostics with
  | [] => Returned actions
  | diagnostic :: rest =>
      if bool_decide (d_code diagnostic = Some "perchance.ifElseSingleEquals"%string) then
        match createIfElseEqualsFix document diagnostic with
        | Thrown => Thrown
        | Returned (Some action) => provideCodeActions_loop document rest (actions ++ [action])
        | Returned None => provideCodeActions_loop document rest actions
        end
      else provideCodeActions_loop document rest actions
  end.

Definition provideCodeActions (languageId : string) (document : list str)
    (diagnostics : list Diagnostic) : Outcome (list CodeAction) :=
  if negb (String.eqb languageId LANGUAGE_ID) then Returned []
  else provideCodeActions_loop document diagnostics [].

(** The action that a diagnostic gets on a line that is there. *)
Definition fixOf (document : list str) (d : Diagnostic) (a : CodeAction) : Prop :=
  d_code d = Some "perchance.ifElseSingleEquals"%string
  /\ exists lineText updated,
       document !! fixLine d = Some lineText
       /\ replaceSingleEqualsInIfElse lineText = Some updated
       /\ updated <> lineText
       /\ a = {| ca_title := js "Replace = with == in if/else condition";
                 ca_edit := {| we_line := fixLine d; we_start := 0;
                               we_end := length lineText; we_newText := updated |};
                 ca_diagnostics := [d] |}.

Lemma provideCodeActions_loop_spec (document : list str) diagnostics actions :
  (forall d, d ∈ diagnostics -> d_code d = Some "perchance.ifElseSingleEquals"%string ->
             fixLine d < length document) ->
  exists more,
    provideCodeActions_loop document diagnostics actions = Returned (actions ++ more)
    /\ length more <= length diagnostics
    /\ forall a, a ∈ more -> exists d, d ∈ diagnostics /\ fixOf document d a.
Proof.
  revert actions. induction diagnostics as [|d rest IH]; intros actions Hin.
  - exists []. rewrite app_nil_r. split; [done|]. split; [done|]. by intros a ?%elem_of_nil.
  - cbn [provideCodeActions_loop].
    assert (forall acc, exists more,
              provideCodeActions_loop document rest acc = Returned (acc ++ more)
              /\ length more <= length (d :: rest)
              /\ forall a, a ∈ more -> exists d0, d0 ∈ d :: rest /\ fixOf document d0 a) as Hskip.
    { intros acc. destruct (IH acc) as (more & Heq & Hlen & Hall).
      { intros d0 Hd0. apply Hin. by right. }
      exists more. split; [done|]. split; [cbn [length]; lia|].
      intros a Ha. destruct (Hall a Ha) as (d0 & Hd0 & Hf). exists d0. split; [by right|done]. }
    destruct (bool_decide_reflect (d_code d = Some "perchance.ifElseSingleEquals"%string))
      as [Hcode|Hcode]; [|apply Hskip].
    unfold createIfElseEqualsFix. cbv zeta.
    destruct (lookup_lt_is_Some_2 document (fixLine d)) as [lineText Hline].
    { apply Hin; [by left|done]. }
    rewrite Hline.
    destruct (replaceSingleEqualsInIfElse lineText) as [updated|] eqn:Er; [|apply Hskip].
    destruct (eqs updated [] || eqs updated lineText) eqn:Esame; [apply Hskip|].
    apply orb_false_iff in Esame as [_ Hne]. apply eqs_false in Hne.
    destruct (IH (actions ++
                  [{| ca_title := js "Replace = with == in if/else condition";
                      ca_edit := {| we_line := fixLine d; we_start := 0;
                                    we_end := length lineText; we_newText := updated |};
                      ca_diagnostics := [d] |}])) as (more & Heq & Hlen & Hall).
    { intros d0 Hd0. apply Hin. by right. }
    eexists (_ :: more). rewrite Heq, <- app_assoc. split; [reflexivity|].
    split; [cbn [length]; lia|].
    intros a [->|Ha]%elem_of_cons.
    + exists d. split; [by left|]. split; [done|]. by exists lineText, updated.
    + destruct (Hall a Ha) as (d0 & Hd0 & Hf). exists d0. split; [by right|done].
Qed.

Lemma replaceString_bracket_nonempty s pattern replacement :
  is_Some (indexOf s pattern) ->
  replaceString s pattern (ch "[" :: replacement) <> [].
Proof.
  intros [pos Hpos]. unfold replaceString. rewrite Hpos. cbv zeta.
  cbn [getSubstitution]. change (ch "[" =? ch "$")%N with false. cbv iota.
  intros H. apply app_eq_nil in H as [_ H]. discriminate H.
Qed.

Lemma replaceSingleEqualsInIfElse_nonempty line updated :
  replaceSingleEqualsInIfElse line = Some updated -> updated <> [].
Proof.
  unfold replaceSingleEqualsInIfElse.
  destruct (matchTernary line) as [[p block]|] eqn:Em; [|done].
  destruct (indexOf block (js "?")) as [q|]; [|done].
  destruct (replaceFirstSingleEquals _ _) as [fixed|]; [|done]. intros [= <-].
  unjs. cbn [app]. apply replaceString_bracket_nonempty.
  apply indexOf_matched_span in Em. unjs. cbn [app] in Em. by eexists.
Qed.

Lemma editor_emit_data config i line st :
  Forall (fun d => fixLine d = pos_line (range_start (d_range d)))
         (editor_emit config i line st).
Proof.
  unfold editor_emit. repeat apply Forall_app_2.
  - destruct (checkDuplicates config); [|done]. unfold editorDuplicate.
    destruct (editorName line); [|done]. destruct (bool_decide _); [|done]. by repeat constructor.
  - destruct (decide _); [|done]. by repeat constructor.
  - destruct (decide _); [|done]. by repeat constructor.
  - destruct (decide _); [|done]. unfold editorSingleEquals.
    apply Forall_forall. intros d Hd. apply list_elem_of_fmap in Hd as (s & -> & _). done.
Qed.

Lemma analyzeDocument_fixLine (document : list str) config d :
  d ∈ analyzeDocument document config -> fixLine d < length document.
Proof.
  intros Hd.
  assert (fixLine d = pos_line (range_start (d_range d))) as ->.
  { revert d Hd. apply Forall_forall. rewrite analyzeDocument_rules. apply Forall_app_2.
    - apply Forall_forall. intros d Hd. apply unknownReferences_elem in Hd as (r & _ & _ & ->).
      done.
    - destruct (_ && _); [done|]. unfold ruleDiagnostics.
      apply (forLines_invariant (analyzeDocument_body config)
               (fun _ st => Forall (fun d => fixLine d = pos_line (range_start (d_range d)))
                                   (e_diagnostics st))) with (pre := []).
      + intros pre line st H. rewrite analyzeDocument_body_eq. cbn [e_diagnostics].
        apply Forall_app_2; [done|apply editor_emit_data].
      + constructor. }
  destruct (analyzeDocument_layout document config) as (rest & Heq & Hall).
  rewrite Heq in Hd. apply elem_of_app in Hd as [Hd|Hd].
  - apply unknownReferences_elem in Hd as (r & Hr & _ & ->). cbn.
    apply (collectListReferencesWith_elem identChar eq_refl eq_refl) in Hr as (text & Ht & _).
    by apply lookup_lt_Some in Ht.
  - rewrite Forall_forall in Hall. destruct (Hall d Hd) as [_ [_ (line & Hl & _)]].
    apply lookup_take_Some in Hl as [Hl _]. by apply lookup_lt_Some in Hl.
Qed.

(** X16.  For the diagnostics that [analyzeDocument] gave for the
    document, [provideCodeActions] never throws.  It offers at most one
    action for each single-equals diagnostic and none for the others; an
    action replaces the whole line of its diagnostic by the text that
    [replaceSingleEqualsInIfElse] returns for it, which differs from the
    line, and it is offered only where [findIfElseSingleEquals] flags the
    line as it stands.  The fix reads the whole line, comment included,
    whereas the diagnostic was found on the text before the comment: the
    span that is rewritten may lie in the comment. *)
Theorem provideCodeActions_fixes_flagged_lines :
  (forall (document : list str) (config : Config) (diagnostics : list Diagnostic),
     diagnostics ⊆ analyzeDocument document config ->
     exists actions,
       provideCodeActions LANGUAGE_ID document diagnostics = Returned actions
       /\ length actions <= length diagnostics
       /\ forall a, a ∈ actions ->
            exists d lineText updated,
              d ∈ diagnostics
              /\ d_code d = Some "perchance.ifElseSingleEquals"%string
              /\ document !! fixLine d = Some lineText
              /\ replaceSingleEqualsInIfElse lineText = Some updated
              /\ updated <> lineText
              /\ findIfElseSingleEquals lineText <> []
              /\ a = {| ca_title := js "Replace = with == in if/else condition";
                        ca_edit := {| we_line := fixLine d; we_start := 0;
                                      we_end := length lineText; we_newText := updated |};
                        ca_diagnostics := [d] |})
  /\ (forall (document : list str) d,
        d_code d = Some "perchance.ifElseSingleEquals"%string ->
        length document <= fixLine d ->
        provideCodeActions LANGUAGE_ID document [d] = Thrown)
  /\ (forall line updated : str,
        replaceSingleEqualsInIfElse line = Some updated -> updated <> [])
  /\ (let document := [js "[a = 1 : b ? c] // [d = 2 ? e : f]"] in
      exists d,
        analyzeDocument document defaultConfig = [d]
        /\ provideCodeActions LANGUAGE_ID document [d]
           = Returned
               [{| ca_title := js "Replace = with == in if/else condition";
                   ca_edit := {| we_line := 0; we_start := 0; we_end := 34;
                                 we_newText := js "[a = 1 : b ? c] // [d == 2 ? e : f]" |};
                   ca_diagnostics := [d] |}]).
Proof.
  split; [|split; [|split]].
  - intros document config diagnostics Hsub. unfold provideCodeActions.
    rewrite String.eqb_refl. cbn [negb].
    destruct (provideCodeActions_loop_spec document diagnostics [])
      as (more & Heq & Hlen & Hall).
    { intros d Hd _. apply (analyzeDocument_fixLine document config). by apply Hsub. }
    exists more. split; [done|]. split; [done|].
    intros a Ha. destruct (Hall a Ha) as (d & Hd & Hcode & lineText & updated & Hl & Hr & Hne & ->).
    exists d, lineText, updated. repeat (split; [done|]). split; [|done].
    apply replaceSingleEqualsInIfElse_flagged in Hr as (p & block & _ & Hin).
    intros Hnil. rewrite Hnil in Hin. by apply elem_of_nil in Hin.
  - intros document d Hcode Hge. unfold provideCodeActions. rewrite String.eqb_refl.
    cbn [negb provideCodeActions_loop]. rewrite bool_decide_eq_true_2 by done.
    unfold createIfElseEqualsFix. cbv zeta. by rewrite lookup_ge_None_2.
  - apply replaceSingleEqualsInIfElse_nonempty.
  - cbv zeta. eexists. split; vm_compute; reflexivity.
Qed.

(** ** Publishing the diagnostics ([updateDiagnostics]) *)

Record TextDocument := {
  doc_uri : string;
  doc_languageId : string;
  doc_lines : list str
}.

(** The diagnostic collection: what is published for each document. *)
Abbreviation DiagnosticCollection := (gmap string (list Diagnostic)).

(** [updateDiagnostics] of the current [extension.js]; [enableDiagnostics]
    is the setting [lists.enableDiagnostics] and [config] holds the three
    checks of the same configuration object. *)
Definition updateDiagnostics (enableDiagnostics : bool) (config : Config)
    (document : TextDocument) (collection : DiagnosticCollection) : DiagnosticCollection :=
  if negb (String.eqb (doc_languageId document) LANGUAGE_ID) then collection
  else if negb enableDiagnostics then delete (doc_uri document) collection
  else <[doc_uri document := analyzeDocument (doc_lines document) config]> collection.

(** [updateDiagnostics] of the earlier [src/extension.js]. *)
Definition legacy_updateDiagnostics (document : TextDocument)
    (collection : DiagnosticCollection) : DiagnosticCollection :=
  if negb (String.eqb (doc_languageId document) LANGUAGE_ID) then collection
  else
    let definitions := Legacy.collectListDefinitions (doc_lines document) in
    let references := Legacy.collectListReferences (doc_lines document) in
    <[doc_uri document := flat_map (unknownReference definitions) references]> collection.

Lemma legacy_definitions_none (document : list str) name :
  Legacy.collectListDefinitions document !! name = None <->
  forall i line, document !! i = Some line -> legacyDefinedName line <> Some name.
Proof.
  split.
  - intros Hnone i line Hl Hn.
    destruct (lastDeclared_exists legacyDefinedName document name) as [k Hk];
      [by exists i, line|].
    assert (Legacy.collectListDefinitions document !! name
            = Some {| pos_line := k; pos_character := 0 |}) as E
      by by apply legacy_collectListDefinitions_last_declaration.
    rewrite Hnone in E. done.
  - intros Hno. destruct (Legacy.collectListDefinitions document !! name) as [pos|] eqn:E;
      [|done].
    apply legacy_collectListDefinitions_last_declaration in E as [_ [(line & Hl & Hn) _]].
    exfalso. by apply (Hno _ _ Hl).
Qed.


(** * The rest of the batch script *)

(** ** The markup check ([analyzeHtml]) *)

(** The decimal digits of a number, as a template literal prints it. *)
Fixpoint uintToString (d : Decimal.uint) : str :=
  match d with
  | Decimal.Nil => []
  | Decimal.D0 r => ch "0" :: uintToString r
  | Decimal.D1 r => ch "1" :: uintToString r
  | Decimal.D2 r => ch "2" :: uintToString r
  | Decimal.D3 r => ch "3" :: uintToString r
  | Decimal.D4 r => ch "4" :: uintToString r
  | Decimal.D5 r => ch "5" :: uintToString r
  | Decimal.D6 r => ch "6" :: uintToString r
  | Decimal.D7 r => ch "7" :: uintToString r
  | Decimal.D8 r => ch "8" :: uintToString r
  | Decimal.D9 r => ch "9" :: uintToString r
  end.

Definition numberToString (n : nat) : str := uintToString (Nat.to_uint n).

(** A letter of a pattern under the [i] flag (without the [u] flag) matches
    its two ASCII forms and nothing else. *)
Definition asciiLower (c : N) : N := if inRange 65 90 c then (c + 32)%N else c.

(** A literal at the head of [s], compared without regard to ASCII case:
    the text that matched. *)
Fixpoint matchLiteralCI (literal s : str) : option str :=
  match literal, s with
  | [], _ => Some []
  | p :: literal', c :: s' =>
      if (asciiLower c =? p)%N then
        match matchLiteralCI literal' s' with
        | Some m => Some (c :: m)
        | None => None
        end
      else None
  | _ :: _, [] => None
  end.

(** [/<NAME\b[^>]*>/i] at the head of [s], for a tag name in lower case. *)
Definition matchOpenTag (name : str) (s : str) : option str :=
  match matchLiteralCI (ch "<" :: name) s with
  | Some head =>
      let rest := drop (length head) s in
      let boundary := match rest with c :: _ => negb (isWordChar c) | [] => true end in
      if boundary then
        match dropWhile (fun c => negb (c =? ch ">")%N) rest with
        | _ :: _ => Some (head ++ takeWhile (fun c => negb (c =? ch ">")%N) rest ++ [ch ">"])
        | [] => None
        end
      else None
  | None => None
  end.

(** [/<\/NAME>/i] at the head of [s]. *)
Definition matchCloseTag (name : str) (s : str) : option str :=
  matchLiteralCI (js "</" ++ name ++ js ">") s.

(** A literal at the head of [s]. *)
Definition matchLiteral (literal s : str) : option str :=
  if startsWith s literal then Some literal else None.

(** [(content.match(regex) || []).length] for a regular expression with
    the [g] flag: the number of its successive matches. *)
Definition countMatches (matchHere : str -> option str) (content : str) : nat :=
  length (scan matchHere (@length N) (S (length content)) content 0).

Definition mismatch (code : string) (what : str) (open close : nat) : list Warning :=
  if negb (Nat.eqb open close) then
    [{| w_line := 0; w_code := code;
        w_message := what ++ js " count mismatch (open " ++ numberToString open
                          ++ js ", close " ++ numberToString close ++ js ")" |}]
  else [].

Definition analyzeHtml (content : str) : list Warning :=
  let openScript := countMatches (matchOpenTag (js "script")) content in
  let closeScript := countMatches (matchCloseTag (js "script")) content in
  let openStyle := countMatches (matchOpenTag (js "style")) content in
  let closeStyle := countMatches (matchCloseTag (js "style")) content in
  let openComments := countMatches (matchLiteral (js "<!--")) content in
  let closeComments := countMatches (matchLiteral (js "-->")) content in
  mismatch "script-tag" (js "Script tag") openScript closeScript
  ++ mismatch "style-tag" (js "Style tag") openStyle closeStyle
  ++ mismatch "html-comment" (js "HTML comment") openComments closeComments.

(** *** Letter case *)

Section CaseFolding.

(** A pattern whose matches have the same lengths on a text and on the
    text in lower case. *)
Variable matchHere : str -> option str.
Hypothesis matchHere_lower :
  forall s, length <$> matchHere (asciiLower <$> s) = length <$> matchHere s.

Definition placeOf (m : nat * str) : nat * nat := (m.1, length m.2).

Lemma execFrom_lower s i :
  placeOf <$> execFrom matchHere (asciiLower <$> s) i = placeOf <$> execFrom matchHere s i.
Proof.
  revert i. induction s as [|c s IH]; intros i; [done|].
  rewrite fmap_cons. cbn [execFrom]. rewrite <- fmap_cons.
  pose proof (matchHere_lower (c :: s)) as H.
  destruct (matchHere (asciiLower <$> c :: s)) as [v|], (matchHere (c :: s)) as [w|];
    try discriminate H.
  - injection H as H. cbn. unfold placeOf. cbn. by rewrite H.
  - apply IH.
Qed.

Lemma scan_lower fuel text i :
  placeOf <$> scan matchHere (@length N) fuel (asciiLower <$> text) i
  = placeOf <$> scan matchHere (@length N) fuel text i.
Proof.
  revert i. induction fuel as [|fuel IH]; intros i; [done|]. cbn [scan].
  rewrite <- fmap_drop. pose proof (execFrom_lower (drop i text) i) as H.
  destruct (execFrom matchHere (asciiLower <$> drop i text) i) as [[p v]|],
           (execFrom matchHere (drop i text) i) as [[q w]|]; try discriminate H; [|done].
  injection H as -> Hlen. rewrite !fmap_cons. unfold placeOf at 1 3. cbn [fst snd].
  rewrite Hlen. f_equal. apply IH.
Qed.

Lemma countMatches_lower content :
  countMatches matchHere (asciiLower <$> content) = countMatches matchHere content.
Proof.
  unfold countMatches. rewrite length_fmap.
  rewrite <- (length_fmap placeOf), scan_lower. by rewrite length_fmap.
Qed.

End CaseFolding.

Lemma asciiLower_idem c : asciiLower (asciiLower c) = asciiLower c.
Proof.
  unfold asciiLower. destruct (inRange 65 90 c) eqn:E; [|by rewrite E].
  assert (inRange 65 90 (c + 32) = false) as ->; [|done].
  unfold inRange in *. apply andb_true_iff in E as [H1 H2]. apply N.leb_le in H1, H2.
  apply andb_false_iff. right. apply N.leb_gt. lia.
Qed.

Lemma asciiLower_wordChar c : isWordChar (asciiLower c) = isWordChar c.
Proof.
  unfold asciiLower. destruct (inRange 65 90 c) eqn:E; [|done].
  unfold isWordChar, isLetter. rewrite E. cbn [orb].
  unfold inRange in *. apply andb_true_iff in E as [H1 H2].
  apply N.leb_le in H1, H2.
  assert ((97 <=? c + 32)%N = true) as -> by (apply N.leb_le; lia).
  assert ((c + 32 <=? 122)%N = true) as -> by (apply N.leb_le; lia).
  by rewrite orb_true_r.
Qed.

(** A character that is no letter is matched by itself alone. *)
Lemma asciiLower_eqb p c :
  isLetter p = false -> (asciiLower c =? p)%N = (c =? p)%N.
Proof.
  unfold asciiLower, isLetter, inRange. intros Hp.
  apply orb_false_iff in Hp as [Hu Hl].
  destruct ((65 <=? c)%N && (c <=? 90)%N) eqn:E; [|done].
  apply andb_true_iff in E as [H1 H2]. apply N.leb_le in H1, H2.
  destruct (N.eqb_spec (c + 32) p) as [Heq|_], (N.eqb_spec c p) as [Heq'|_]; try done;
    try lia.
  - apply andb_false_iff in Hl as [Hl|Hl]; apply N.leb_gt in Hl; lia.
  - apply andb_false_iff in Hu as [Hu|Hu]; apply N.leb_gt in Hu; lia.
Qed.

Lemma matchLiteralCI_length literal s m :
  matchLiteralCI literal s = Some m -> length m = length literal /\ m = take (length literal) s.
Proof.
  revert s m. induction literal as [|p literal IH]; intros s m; cbn [matchLiteralCI].
  - destruct s; intros [= <-]; done.
  - destruct s as [|c s]; [done|]. destruct (asciiLower c =? p)%N; [|done].
    destruct (matchLiteralCI literal s) as [m'|] eqn:E; [|done]. intros [= <-].
    destruct (IH _ _ E) as [Hl Ht]. cbn. by rewrite Hl, <- Ht.
Qed.

Lemma matchLiteralCI_lower literal s :
  length <$> matchLiteralCI literal (asciiLower <$> s) = length <$> matchLiteralCI literal s.
Proof.
  revert s. induction literal as [|p literal IH]; intros s; cbn [matchLiteralCI].
  - by destruct s.
  - destruct s as [|c s]; [done|]. rewrite fmap_cons. rewrite asciiLower_idem.
    destruct (asciiLower c =? p)%N; [|done]. specialize (IH s).
    destruct (matchLiteralCI literal (asciiLower <$> s)), (matchLiteralCI literal s);
      try discriminate IH; [|done].
    injection IH as IH. cbn. by rewrite IH.
Qed.

Lemma dropWhile_fmap {A} (p : A -> bool) (f : A -> A) (l : list A) :
  (forall x, p (f x) = p x) ->
  dropWhile p (f <$> l) = f <$> dropWhile p l
  /\ takeWhile p (f <$> l) = f <$> takeWhile p l.
Proof.
  intros H. induction l as [|x l [IHd IHt]]; [done|]. rewrite fmap_cons.
  cbn [dropWhile takeWhile]. rewrite H. destruct (p x); [|done].
  split; [done|]. by rewrite IHt.
Qed.

Lemma matchOpenTag_lower name s :
  length <$> matchOpenTag name (asciiLower <$> s) = length <$> matchOpenTag name s.
Proof.
  unfold matchOpenTag. pose proof (matchLiteralCI_lower (ch "<" :: name) s) as H.
  destruct (matchLiteralCI (ch "<" :: name) (asciiLower <$> s)) as [h1|] eqn:E1,
           (matchLiteralCI (ch "<" :: name) s) as [h2|] eqn:E2; try discriminate H; [|done].
  injection H as H. cbv zeta. rewrite H, <- fmap_drop.
  set (rest := drop (length h2) s).
  assert (forall x, negb (asciiLower x =? ch ">")%N = negb (x =? ch ">")%N) as Hgt
    by (intros x; by rewrite asciiLower_eqb).
  destruct (dropWhile_fmap (fun c => negb (c =? ch ">")%N) asciiLower rest Hgt) as [Hd Ht].
  assert (match asciiLower <$> rest with c :: _ => negb (isWordChar c) | [] => true end
          = match rest with c :: _ => negb (isWordChar c) | [] => true end) as ->.
  { destruct rest as [|c r]; [done|]. rewrite fmap_cons. by rewrite asciiLower_wordChar. }
  destruct (match rest with c :: _ => negb (isWordChar c) | [] => true end); [|done].
  rewrite Hd, Ht. destruct (dropWhile _ rest) as [|x r]; [done|]. rewrite fmap_cons. cbn.
  rewrite !length_app, length_fmap. by rewrite H.
Qed.

Lemma startsWith_lower (literal s : str) :
  Forall (fun p => isLetter p = false) literal ->
  startsWith (asciiLower <$> s) literal = startsWith s literal.
Proof.
  intros H. revert s. induction H as [|p literal Hp _ IH]; intros s; [done|].
  destruct s as [|c s]; [done|]. rewrite fmap_cons. cbn [startsWith].
  rewrite IH. f_equal. rewrite !(N.eqb_sym p). by apply asciiLower_eqb.
Qed.

Lemma matchLiteral_lower literal s :
  Forall (fun p => isLetter p = false) literal ->
  length <$> matchLiteral literal (asciiLower <$> s) = length <$> matchLiteral literal s.
Proof. intros H. unfold matchLiteral. by rewrite startsWith_lower. Qed.

Lemma mismatch_shape code what a b :
  Forall (fun w => w_line w = 0 /\ w_code w = code) (mismatch code what a b)
  /\ (mismatch code what a b = [] <-> a = b).
Proof.
  unfold mismatch. destruct (Nat.eqb_spec a b) as [->|Hne]; cbn [negb].
  - split; [constructor|done].
  - split; [by repeat constructor|]. split; [done|]. intros ->. done.
Qed.

(** X18.  [analyzeHtml] compares three pairs of counts and warns once for
    each pair that differs, in a fixed order and always with line 0; it is
    silent exactly when the three pairs agree.  Tags are counted whatever
    the case of their letters: a text and the same text in lower case get
    the same findings.  An opening tag needs its closing [>] and a word
    boundary after the name. *)
Theorem analyzeHtml_compares_tag_counts :
  (forall content : str,
     Forall (fun w => w_line w = 0) (analyzeHtml content)
     /\ sublist (w_code <$> analyzeHtml content)
                ["script-tag"; "style-tag"; "html-comment"]%string)
  /\ (forall content : str,
        analyzeHtml content = [] <->
        countMatches (matchOpenTag (js "script")) content
          = countMatches (matchCloseTag (js "script")) content
        /\ countMatches (matchOpenTag (js "style")) content
           = countMatches (matchCloseTag (js "style")) content
        /\ countMatches (matchLiteral (js "<!--")) content
           = countMatches (matchLiteral (js "-->")) content)
  /\ (forall content : str, analyzeHtml (asciiLower <$> content) = analyzeHtml content)
  /\ analyzeHtml [] = []
  /\ analyzeHtml (js "<SCRIPT src=x>let a = 1</script><Style>p{}</STYLE><!-- x -->") = []
  /\ analyzeHtml (js "<script <script> <scripts> <script")
     = [{| w_line := 0; w_code := "script-tag";
           w_message := js "Script tag count mismatch (open 1, close 0)" |}]
  /\ analyzeHtml (js "<!-- a --> b -->")
     = [{| w_line := 0; w_code := "html-comment";
           w_message := js "HTML comment count mismatch (open 1, close 2)" |}].
Proof.
  split; [|split; [|split; [|repeat split; vm_compute; reflexivity]]].
  - intros content. unfold analyzeHtml. cbv zeta.
    set (a := mismatch "script-tag" _ _ _). set (b := mismatch "style-tag" _ _ _).
    set (c := mismatch "html-comment" _ _ _).
    pose proof (mismatch_shape "script-tag" (js "Script tag")
                  (countMatches (matchOpenTag (js "script")) content)
                  (countMatches (matchCloseTag (js "script")) content)) as [Ha _].
    pose proof (mismatch_shape "style-tag" (js "Style tag")
                  (countMatches (matchOpenTag (js "style")) content)
                  (countMatches (matchCloseTag (js "style")) content)) as [Hb _].
    pose proof (mismatch_shape "html-comment" (js "HTML comment")
                  (countMatches (matchLiteral (js "<!--")) content)
                  (countMatches (matchLiteral (js "-->")) content)) as [Hc _].
    fold a in Ha. fold b in Hb. fold c in Hc. split.
    + repeat apply Forall_app_2; (eapply Forall_impl; [eassumption|]); by intros w [? _].
    + rewrite !fmap_app.
      assert (forall code (l : list Warning),
                Forall (fun w => w_line w = 0 /\ w_code w = code) l ->
                (exists w, l = [w]) \/ l = [] -> sublist (w_code <$> l) [code]) as Hone.
      { intros code l Hl [[w ->] | ->]; [|apply sublist_nil_l].
        apply Forall_inv in Hl as [_ Hl]. cbn. rewrite Hl. done. }
      assert (forall code what x y, (exists w, mismatch code what x y = [w])
                                    \/ mismatch code what x y = []) as Hshape.
      { intros code what x y. unfold mismatch. destruct (negb _); [left; by eexists|by right]. }
      change ["script-tag"; "style-tag"; "html-comment"]%string
        with (["script-tag"%string] ++ ["style-tag"%string] ++ ["html-comment"%string]).
      apply sublist_app; [apply (Hone _ _ Ha), Hshape|].
      apply sublist_app; [apply (Hone _ _ Hb), Hshape|apply (Hone _ _ Hc), Hshape].
  - intros content. unfold analyzeHtml. cbv zeta.
    rewrite <- (proj2 (mismatch_shape "script-tag" (js "Script tag") _ _)).
    rewrite <- (proj2 (mismatch_shape "style-tag" (js "Style tag") _ _)).
    rewrite <- (proj2 (mismatch_shape "html-comment" (js "HTML comment") _ _)).
    split.
    + intros H. apply app_eq_nil in H as [H1 H]. apply app_eq_nil in H as [H2 H3]. eauto.
    + intros (-> & -> & ->). done.
  - intros content. unfold analyzeHtml. cbv zeta.
    rewrite !(countMatches_lower _ (matchOpenTag_lower _)).
    rewrite !(countMatches_lower (matchCloseTag _)
                (fun s => matchLiteralCI_lower _ s)).
    assert (Forall (fun p => isLetter p = false) (js "<!--")) as Hopen
      by by repeat constructor.
    assert (Forall (fun p => isLetter p = false) (js "-->")) as Hclose
      by by repeat constructor.
    rewrite (countMatches_lower (matchLiteral (js "<!--"))
               (fun s => matchLiteral_lower _ s Hopen)).
    rewrite (countMatches_lower (matchLiteral (js "-->"))
               (fun s => matchLiteral_lower _ s Hclose)).
    done.
Qed.

(** ** The report ([formatSize], [buildReport]) *)

(** The decimal digits of a number. *)
Definition decimal (n : N) : str := uintToString (N.to_uint n).

(** [x.toFixed(1)] for a number [x] that is not negative and below 1e21:
    the integer [n] nearest to [10 x], the larger one of two, printed with
    its last digit behind the point.  [toFixed] rounds the exact value
    of the number, so a rational stands for it. *)
Definition toFixed1 (x : QArith_base.Q) : str :=
  let n := Z.to_N (Qround.Qfloor
                     (QArith_base.Qplus (QArith_base.Qmult x (QArith_base.inject_Z 10))
                                        (QArith_base.Qmake 1 2))) in
  decimal (n / 10) ++ js "." ++ decimal (n mod 10).

(** [formatSize]; a size is a whole number of bytes below 2^53, which a
    number holds exactly, and the divisions by 1024 are exact in binary
    floating point. *)
Definition formatSize (size : N) : str :=
  let kb := QArith_base.Qdiv (QArith_base.inject_Z (Z.of_N size))
                             (QArith_base.inject_Z 1024) in
  if negb (QArith_base.Qle_bool (QArith_base.inject_Z 1024) kb)
  then toFixed1 kb ++ js " KB"
  else
    let mb := QArith_base.Qdiv kb (QArith_base.inject_Z 1024) in
    toFixed1 mb ++ js " MB".

Record ReportEntry := {
  entry_file : str;
  entry_size : N;
  entry_warnings : list Warning
}.

Section Report.

(** [path.relative(ROOT, file).split(path.sep).join("/")] and
    [type.toUpperCase()], which the platform provides. *)
Variable relativePath : str -> str.
Variable toUpperCase : str -> str.

(** The line of one warning. *)
Definition reportWarning (warning : Warning) : str :=
  let location :=
    if negb (Nat.eqb (w_line warning) 0)
    then js "line " ++ numberToString (w_line warning)
    else js "file" in
  js "  " ++ location ++ js ": " ++ w_message warning
     ++ js " [" ++ js (w_code warning) ++ js "]".

(** The lines of one entry: the file, then [OK] or the warnings. *)
Definition reportEntry (entry : ReportEntry) : list str :=
  (js "- " ++ relativePath (entry_file entry)
      ++ js " (" ++ formatSize (entry_size entry) ++ js ")")
  :: (if Nat.eqb (length (entry_warnings entry)) 0 then [js "  OK"]
      else map reportWarning (entry_warnings entry)).

Definition buildReport (entries : list ReportEntry) (type : str) : list str :=
  [js "== " ++ toUpperCase type ++ js " =="] ++ flat_map reportEntry entries ++ [[]].

End Report.

Lemma half_up_tenths (a : N) (b : positive) :
  Z.to_N ((Z.of_N a * 10 * 2 + 1 * Z.pos b) / Z.pos (b * 2))
  = ((20 * a + N.pos b) / (2 * N.pos b))%N.
Proof.
  replace (Z.of_N a * 10 * 2 + 1 * Z.pos b)%Z with (Z.of_N (20 * a + N.pos b)) by lia.
  replace (Z.pos (b * 2)) with (Z.of_N (2 * N.pos b)) by lia.
  rewrite <- N2Z.inj_div. apply N2Z.id.
Qed.

Lemma toFixed1_kilobytes size :
  toFixed1 (QArith_base.Qdiv (QArith_base.inject_Z (Z.of_N size)) (QArith_base.inject_Z 1024))
  = let n := ((10 * size + 512) / 1024)%N in
    decimal (n / 10) ++ js "." ++ decimal (n mod 10).
Proof.
  unfold toFixed1, Qround.Qfloor, QArith_base.Qdiv, QArith_base.Qplus, QArith_base.Qmult,
    QArith_base.Qinv, QArith_base.inject_Z. cbn [QArith_base.Qnum QArith_base.Qden].
  rewrite Z.mul_1_r, half_up_tenths.
  match goal with |- context [N.pos ?p] => change (N.pos p) with 1024%N end.
  replace (20 * size + 1024)%N with (2 * (10 * size + 512))%N by lia.
  by rewrite N.Div0.div_mul_cancel_l by lia.
Qed.

Lemma toFixed1_megabytes size :
  toFixed1 (QArith_base.Qdiv
              (QArith_base.Qdiv (QArith_base.inject_Z (Z.of_N size)) (QArith_base.inject_Z 1024))
              (QArith_base.inject_Z 1024))
  = let n := ((10 * size + 524288) / 1048576)%N in
    decimal (n / 10) ++ js "." ++ decimal (n mod 10).
Proof.
  unfold toFixed1, Qround.Qfloor, QArith_base.Qdiv, QArith_base.Qplus, QArith_base.Qmult,
    QArith_base.Qinv, QArith_base.inject_Z. cbn [QArith_base.Qnum QArith_base.Qden].
  rewrite !Z.mul_1_r, half_up_tenths.
  match goal with |- context [N.pos ?p] => change (N.pos p) with 1048576%N end.
  replace (20 * size + 1048576)%N with (2 * (10 * size + 524288))%N by lia.
  by rewrite N.Div0.div_mul_cancel_l by lia.
Qed.

Lemma formatSize_unit size :
  QArith_base.Qle_bool (QArith_base.inject_Z 1024)
    (QArith_base.Qdiv (QArith_base.inject_Z (Z.of_N size)) (QArith_base.inject_Z 1024))
  = (1048576 <=? size)%N.
Proof.
  unfold QArith_base.Qle_bool, QArith_base.Qdiv, QArith_base.Qmult, QArith_base.Qinv,
    QArith_base.inject_Z. cbn [QArith_base.Qnum QArith_base.Qden].
  destruct (N.leb_spec 1048576 size); [apply Z.leb_le|apply Z.leb_gt]; lia.
Qed.

Lemma decimal_digit (n : N) : length (decimal (n mod 10)) = 1.
Proof.
  pose proof (N.mod_upper_bound n 10 ltac:(lia)) as H.
  remember (n mod 10)%N as m eqn:Em. clear Em.
  assert (m = 0 \/ m = 1 \/ m = 2 \/ m = 3 \/ m = 4
          \/ m = 5 \/ m = 6 \/ m = 7 \/ m = 8 \/ m = 9)%N as Hcases by lia.
  repeat (destruct Hcases as [->|Hcases]; [reflexivity|]). by rewrite Hcases.
Qed.

(** X19.  [formatSize] prints a size below 1048576 bytes in kilobytes and
    a larger one (below 2^53, the whole numbers that a number holds
    exactly) in megabytes, with one digit behind the point, rounding
    the tenths to the nearest and a half upwards.  The unit is chosen
    before the rounding, so the sizes from 1048525 to 1048575 bytes are
    printed as 1024.0 KB. *)
Theorem formatSize_rounds_to_tenths :
  (forall size : N,
     (size < 1048576)%N ->
     formatSize size
     = let n := ((10 * size + 512) / 1024)%N in
       decimal (n / 10) ++ js "." ++ decimal (n mod 10) ++ js " KB")
  /\ (forall size : N,
        (1048576 <= size < 9007199254740992)%N ->
        formatSize size
        = let n := ((10 * size + 524288) / 1048576)%N in
          decimal (n / 10) ++ js "." ++ decimal (n mod 10) ++ js " MB")
  /\ (forall n : N, length (decimal (n mod 10)) = 1)
  /\ (forall size : N, (1048525 <= size < 1048576)%N -> formatSize size = js "1024.0 KB")
  /\ formatSize 0 = js "0.0 KB"
  /\ formatSize 51 = js "0.0 KB"
  /\ formatSize 52 = js "0.1 KB"
  /\ formatSize 1280 = js "1.3 KB"
  /\ formatSize 1048576 = js "1.0 MB"
  /\ formatSize 1625292 = js "1.5 MB"
  /\ formatSize 1625293 = js "1.6 MB".
Proof.
  assert (forall size : N,
     (size < 1048576)%N ->
     formatSize size
     = let n := ((10 * size + 512) / 1024)%N in
       decimal (n / 10) ++ js "." ++ decimal (n mod 10) ++ js " KB") as Hkb.
  { intros size Hlt. unfold formatSize. cbv zeta. rewrite formatSize_unit.
    destruct (N.leb_spec 1048576 size); [lia|]. cbn [negb].
    rewrite toFixed1_kilobytes. cbv zeta. by rewrite <- !app_assoc. }
  split; [exact Hkb|]. split; [|split; [apply decimal_digit|split]].
  - intros size [Hge _]. unfold formatSize. cbv zeta. rewrite formatSize_unit.
    destruct (N.leb_spec 1048576 size); [|lia]. cbn [negb].
    rewrite toFixed1_megabytes. cbv zeta. by rewrite <- !app_assoc.
  - intros size [Hlo Hhi]. rewrite Hkb by done. cbv zeta.
    assert (((10 * size + 512) / 1024)%N = 10240%N) as ->; [|reflexivity].
    symmetry. apply (N.div_unique _ _ _ (10 * size + 512 - 10485760)); lia.
  - repeat split; vm_compute; reflexivity.
Qed.

Lemma reportWarning_place (w : Warning) :
  reportWarning w
  = if Nat.eqb (w_line w) 0
    then js "  file: " ++ w_message w ++ js " [" ++ js (w_code w) ++ js "]"
    else js "  line " ++ numberToString (w_line w) ++ js ": " ++ w_message w
            ++ js " [" ++ js (w_code w) ++ js "]".
Proof.
  unfold reportWarning. cbv zeta. destruct (Nat.eqb (w_line w) 0); cbn [negb].
  - reflexivity.
  - by rewrite <- !app_assoc.
Qed.

(** X20.  The report of [buildReport] is a title line, the lines of the
    entries and an empty line; an entry takes one line for the file and
    then either the line OK or one line for each finding.  Every finding
    of [analyzePerchance] is reported behind [line] and its number, which
    is never 0, and every finding of [analyzeHtml] behind [file]. *)
Theorem buildReport_locates_findings (relativePath toUpperCase : str -> str) :
  (forall (entries : list ReportEntry) (type : str),
     exists body,
       buildReport relativePath toUpperCase entries type
       = (js "== " ++ toUpperCase type ++ js " ==") :: body ++ [[]]
       /\ length body
          = sum_list ((fun e => 1 + Nat.max 1 (length (entry_warnings e))) <$> entries))
  /\ (forall entry : ReportEntry,
        entry_warnings entry = [] ->
        reportEntry relativePath entry
        = [js "- " ++ relativePath (entry_file entry)
              ++ js " (" ++ formatSize (entry_size entry) ++ js ")";
           js "  OK"])
  /\ (forall (file : str) (size : N) (content : str),
        Forall (fun line => line = js "  OK" \/ exists rest, line = js "  line " ++ rest)
               (tail (reportEntry relativePath
                        {| entry_file := file; entry_size := size;
                           entry_warnings := analyzePerchance content |})))
  /\ (forall (file : str) (size : N) (content : str),
        Forall (fun line => line = js "  OK" \/ exists rest, line = js "  file: " ++ rest)
               (tail (reportEntry relativePath
                        {| entry_file := file; entry_size := size;
                           entry_warnings := analyzeHtml content |})))
  /\ tail (reportEntry relativePath
             {| entry_file := js "g.perchance"; entry_size := 2048;
                entry_warnings := analyzePerchance (js "a" ++ [ch "010"] ++ js " b") |})
     = [js "  line 2: Indentation should use tabs or multiples of two spaces [odd-indent]"].
Proof.
  split; [|split; [|split; [|split; [|vm_compute; reflexivity]]]].
  - intros entries type. exists (flat_map (reportEntry relativePath) entries).
    split; [reflexivity|]. induction entries as [|e entries IH]; [done|].
    cbn [flat_map]. rewrite length_app, IH, fmap_cons. cbn [sum_list sum_list_with].
    f_equal. unfold reportEntry. cbn [length]. f_equal.
    destruct (entry_warnings e) as [|w ws]; [done|]. cbn [length Nat.eqb].
    rewrite length_map. cbn [length]. unfold id. lia.
  - intros entry Hnone. unfold reportEntry. by rewrite Hnone.
  - intros file size content. unfold reportEntry. cbn [tail entry_warnings].
    destruct (Nat.eqb _ 0); [by repeat constructor; left|].
    apply Forall_forall. intros line Hl. apply list_elem_of_fmap in Hl as (w & -> & Hw).
    right. rewrite reportWarning_place.
    destruct (analyzePerchance_findings_layout (splitLines content)) as (_ & Hpos & _).
    rewrite Forall_forall in Hpos. apply Hpos in Hw as [Hw _].
    destruct (Nat.eqb_spec (w_line w) 0); [lia|]. by eexists.
  - intros file size content. unfold reportEntry. cbn [tail entry_warnings].
    destruct (Nat.eqb _ 0); [by repeat constructor; left|].
    apply Forall_forall. intros line Hl. apply list_elem_of_fmap in Hl as (w & -> & Hw).
    right. rewrite reportWarning_place.
    assert (w_line w = 0) as ->; [|by eexists].
    revert w Hw. apply Forall_forall. unfold analyzeHtml. cbv zeta.
    repeat apply Forall_app_2;
      (eapply Forall_impl; [apply mismatch_shape|]); by intros w [? _].
Qed.

(** ** The largest files ([getLargestByExt]) *)

(** [s.endsWith(suffix)] *)
Definition endsWith (s suffix : str) : bool :=
  bool_decide (drop (length s - length suffix) s = suffix)
  && (length suffix <=? length s).

Record SizedFile := {
  sf_file : str;
  sf_size : N
}.

(** [Array.prototype.sort] is stable; with the comparator
    [(a, b) => b.size - a.size] it orders by decreasing size and leaves
    entries of equal size in the order they had.  The insertion below, from
    the right end of the array, computes that order. *)
Fixpoint insertBySize (x : SizedFile) (sorted : list SizedFile) : list SizedFile :=
  match sorted with
  | [] => [x]
  | y :: rest =>
      if (sf_size y <=? sf_size x)%N then x :: sorted
      else y :: insertBySize x rest
  end.

Definition sortBySizeDescending (entries : list SizedFile) : list SizedFile :=
  foldr insertBySize [] entries.

Section Largest.

(** The size of a file on disk and [String.prototype.toLowerCase] are left
    open. *)
Variable statSize : str -> N.
Variable toLowerCase : str -> str.

Definition candidates (files : list str) (ext : str) : list SizedFile :=
  map (fun file => {| sf_file := file; sf_size := statSize file |})
      (List.filter (fun file => endsWith (toLowerCase file) ext) files).

Definition getLargestByExt (files : list str) (ext : str) (topN : nat)
  : list SizedFile :=
  let filtered := sortBySizeDescending (candidates files ext) in
  take topN filtered.

End Largest.

Definition ofSize (k : N) (entry : SizedFile) : bool := (sf_size entry =? k)%N.

Lemma insertBySize_Permutation x l : Permutation (insertBySize x l) (x :: l).
Proof.
  induction l as [|y l IH]; [done|]. cbn [insertBySize].
  destruct (sf_size y <=? sf_size x)%N; [done|]. rewrite IH. apply perm_swap.
Qed.

Lemma sortBySizeDescending_Permutation l : Permutation (sortBySizeDescending l) l.
Proof.
  induction l as [|x l IH]; [done|]. cbn [sortBySizeDescending foldr].
  rewrite insertBySize_Permutation. by constructor.
Qed.

Lemma insertBySize_sorted x l :
  Sorted.StronglySorted (fun a b => (sf_size b <= sf_size a)%N) l ->
  Sorted.StronglySorted (fun a b => (sf_size b <= sf_size a)%N) (insertBySize x l).
Proof.
  induction 1 as [|y l Hl IH Hy]; [repeat constructor|]. cbn [insertBySize].
  destruct (N.leb_spec (sf_size y) (sf_size x)) as [Hle|Hlt].
  - constructor; [by constructor|]. constructor; [done|].
    eapply Forall_impl; [exact Hy|]. cbn. intros z Hz. lia.
  - constructor; [done|]. rewrite insertBySize_Permutation. constructor; [lia|done].
Qed.

Lemma sortBySizeDescending_sorted l :
  Sorted.StronglySorted (fun a b => (sf_size b <= sf_size a)%N) (sortBySizeDescending l).
Proof.
  induction l as [|x l IH]; [constructor|]. by apply insertBySize_sorted.
Qed.

Lemma insertBySize_ofSize k x l :
  Sorted.StronglySorted (fun a b => (sf_size b <= sf_size a)%N) l ->
  List.filter (ofSize k) (insertBySize x l) = List.filter (ofSize k) (x :: l).
Proof.
  induction 1 as [|y l Hl IH Hy]; [done|]. cbn [insertBySize].
  destruct (N.leb_spec (sf_size y) (sf_size x)) as [Hle|Hlt]; [done|].
  cbn [List.filter] in *. rewrite IH. unfold ofSize.
  destruct (N.eqb_spec (sf_size y) k), (N.eqb_spec (sf_size x) k); try done. lia.
Qed.

Lemma sortBySizeDescending_ofSize k l :
  List.filter (ofSize k) (sortBySizeDescending l) = List.filter (ofSize k) l.
Proof.
  induction l as [|x l IH]; [done|]. cbn [sortBySizeDescending foldr].
  rewrite insertBySize_ofSize by apply sortBySizeDescending_sorted.
  cbn [List.filter]. fold (sortBySizeDescending l). by rewrite IH.
Qed.

(** X21.  [getLargestByExt] keeps the [topN] largest of the files whose
    name in lower case ends with the extension, or all of them when there
    are fewer: the result is in decreasing order of size, no file left
    out is larger than a file kept, and files of the same size stay in
    the order of the input, so that the cut among them keeps the earlier
    ones. *)
Theorem getLargestByExt_keeps_the_largest
    (statSize : str -> N) (toLowerCase : str -> str) :
  (forall (files : list str) (ext : str) (topN : nat),
     let all := candidates statSize toLowerCase files ext in
     let result := getLargestByExt statSize toLowerCase files ext topN in
     length result = Nat.min topN (length all)
     /\ Sorted.StronglySorted (fun a b => (sf_size b <= sf_size a)%N) result
     /\ (exists rest,
           Permutation (result ++ rest) all
           /\ forall kept left,
                kept ∈ result -> left ∈ rest -> (sf_size left <= sf_size kept)%N)
     /\ (forall k : N,
           List.filter (ofSize k) result `prefix_of` List.filter (ofSize k) all))
  /\ (forall (files : list str) (ext : str) (entry : SizedFile),
        entry ∈ candidates statSize toLowerCase files ext <->
        (sf_file entry ∈ files
         /\ endsWith (toLowerCase (sf_file entry)) ext = true
         /\ sf_size entry = statSize (sf_file entry)))
  /\ sf_file <$> getLargestByExt (fun file => N.of_nat (length file)) (fmap asciiLower)
                   [js "a.HTML"; js "bb.html"; js "c.txt"; js "dd.html";
                    js "eeee.html"; js "html"]
                   (js ".html") 2
     = [js "eeee.html"; js "bb.html"].
Proof.
  split; [|split; [|vm_compute; reflexivity]].
  - intros files ext topN all result.
    set (sorted := sortBySizeDescending all).
    assert (result = take topN sorted) as Hresult by reflexivity.
    assert (sorted = result ++ drop topN sorted) as Hsplit
      by (by rewrite Hresult, take_drop).
    pose proof (sortBySizeDescending_sorted all) as Hsorted. fold sorted in Hsorted.
    pose proof (sortBySizeDescending_Permutation all) as Hperm. fold sorted in Hperm.
    split; [|split; [|split]].
    + rewrite Hresult, length_take. by rewrite Hperm.
    + rewrite Hsplit in Hsorted. clear -Hsorted.
      induction result as [|x result IH]; [constructor|].
      cbn [app] in Hsorted. inversion Hsorted as [|? ? Hrest Hx]; subst.
      constructor; [by apply IH|]. by apply Forall_app in Hx as [Hx _].
    + exists (drop topN sorted). split; [by rewrite <- Hsplit|].
      intros kept left Hkept Hleft. rewrite Hsplit in Hsorted. clear -Hsorted Hkept Hleft.
      induction result as [|x result IH]; [by apply elem_of_nil in Hkept|].
      cbn [app] in Hsorted. inversion Hsorted as [|? ? Hrest Hx]; subst.
      apply elem_of_cons in Hkept as [->|Hkept]; [|by apply IH].
      rewrite Forall_forall in Hx. apply Hx. apply elem_of_app. by right.
    + intros k. exists (List.filter (ofSize k) (drop topN sorted)).
      rewrite <- List.filter_app, <- Hsplit. unfold sorted.
      by rewrite sortBySizeDescending_ofSize.
  - intros files ext entry. unfold candidates. rewrite list_elem_of_In, in_map_iff.
    split.
    + intros (file & <- & Hfile). apply filter_In in Hfile as [Hfile Hext].
      cbn [sf_file sf_size]. by rewrite list_elem_of_In.
    + intros (Hfile & Hext & Hsize). exists (sf_file entry). split.
      * destruct entry as [file size]. cbn [sf_file sf_size] in *. by rewrite Hsize.
      * apply filter_In. by rewrite <- list_elem_of_In.
Qed.
